(** * GoAWS: the reusable connection, the request pipe and the SimpleDB
      paginated Select, embedded from the Go sources

    - [Dialer]  : dialer.go, the mutex-guarded [ReusableConn]
    - [Pipe]    : the [Conn] request pipe over a [ReusableConn]
    - [SDB]     : sdb/domain.go ([Domain.Select], [Domain.GetAttribute],
                  [Domain.DeleteAttribute])
    - [S3Util]  : the [s3] module of the command line tool
                  ([DefaultS3Service] and the commands)

    Go values are modelled as follows.  A nilable pointer or interface is
    an [option]; a Go [(value, error)] pair stays a pair, because both
    components are independent in Go.  Calling a method through a nil
    interface panics, which is an outcome of its own.  Everything the
    program asks of the outside (the [Dialer] closure, the [net.Conn]
    methods) is answered by an environment that may look at the whole
    history of earlier calls; every such call is appended to that history,
    so that statements can speak about which calls were made, on which
    socket, and in which order. *)

From Stdlib Require Import ZArith List String Bool Lia.
From stdpp Require Import base option list strings gmap.

Open Scope Z_scope.
Open Scope string_scope.
Open Scope list_scope.

(** ** Shared data: the Go library types the three files exchange *)

Module Net.

(** [[]byte] *)
Definition bytes := list Byte.byte.

(** The identity of a [net.Conn] object handed out by a [Dialer]. *)
Definition sock := nat.

(** A non-nil [error] value. *)
Definition error := string.

(** [net.Addr] *)
Definition addr := string.

(** [time.Time], as the offset in nanoseconds from the zero instant. *)
Definition time := Z.

Definition IsZero (t : time) : bool := (t =? 0)%Z.

(** [url.Values], a [map[string][]string]. *)
Abbreviation Values := (gmap string (list string)).

Definition Values_Set (k v : string) (vl : Values) : Values := <[k := [v]]> vl.
Definition Values_Del (k : string) (vl : Values) : Values := delete k vl.

Record URL := mkURL {
  Scheme : string;
  Host : string;
  Path : string;
  RawQuery : string
}.

(** The fields of [http.Request] the sources touch. *)
Record Request := mkRequest {
  Method : string;
  ReqURL : URL;
  Form : option Values
}.

Record Response := mkResponse {
  StatusCode : Z;
  Body : string
}.

(** One call to the outside, with its arguments and what it answered. *)
Inductive event : Type :=
| EDial (c : option sock) (err : option error)
| EConnRead (s : sock) (buf : bytes) (n : Z) (out : bytes) (err : option error)
| EConnWrite (s : sock) (data : bytes) (n : Z) (err : option error)
| EConnClose (s : sock) (err : option error)
| ESetReadDeadline (s : sock) (t : time) (err : option error)
| ESetWriteDeadline (s : sock) (t : time) (err : option error)
| ERemoteAddr (s : sock) (a : option addr)
| ENewClientConn
| EClientWrite (req : Request)
| EClientRead (req : Request).

Definition trace := list event.

(** The outside world of a [ReusableConn]: the [Dialer] closure and the
    methods of the [net.Conn] objects it returns.  Each answer may depend
    on everything that happened before. *)
Record Env := mkEnv {
  dialer : trace -> option sock * option error;
  conn_Read : trace -> sock -> bytes -> Z * bytes * option error;
  conn_Write : trace -> sock -> bytes -> Z * option error;
  conn_Close : trace -> sock -> option error;
  conn_SetReadDeadline : trace -> sock -> time -> option error;
  conn_SetWriteDeadline : trace -> sock -> time -> option error;
  conn_RemoteAddr : trace -> sock -> option addr;
  conn_LocalAddr : trace -> sock -> option addr
}.

(** How a call can end.  [Panicked]: a method was called through a nil
    interface.  [Blocked]: [Lock] on a mutex that is already held.
    [OutOfFuel]: the recursion bound of the model was reached. *)
Inductive outcome (St A : Type) : Type :=
| Done (a : A) (st : St) (h : trace)
| Panicked (st : St) (h : trace)
| Blocked (st : St) (h : trace)
| OutOfFuel (st : St) (h : trace).

Arguments Done {St A} a st h.
Arguments Panicked {St A} st h.
Arguments Blocked {St A} st h.
Arguments OutOfFuel {St A} st h.

Definition final_state {St A} (o : outcome St A) : St :=
  match o with
  | Done _ st _ | Panicked st _ | Blocked st _ | OutOfFuel st _ => st
  end.

Definition final_trace {St A} (o : outcome St A) : trace :=
  match o with
  | Done _ _ h | Panicked _ h | Blocked _ h | OutOfFuel _ h => h
  end.

Definition returned {St A} (o : outcome St A) : option A :=
  match o with
  | Done a _ _ => Some a
  | _ => None
  end.

(** State-and-history passing computations. *)
Definition M (St A : Type) : Type := St -> trace -> outcome St A.

Definition ret {St A} (a : A) : M St A := fun st h => Done a st h.

Definition bind {St A B} (m : M St A) (k : A -> M St B) : M St B :=
  fun st h =>
    match m st h with
    | Done a st' h' => k a st' h'
    | Panicked st' h' => Panicked st' h'
    | Blocked st' h' => Blocked st' h'
    | OutOfFuel st' h' => OutOfFuel st' h'
    end.

Definition out_of_fuel {St A} : M St A := fun st h => OutOfFuel st h.
Definition panic {St A} : M St A := fun st h => Panicked st h.
Definition get {St} : M St St := fun st h => Done st st h.
Definition modify {St} (f : St -> St) : M St unit := fun st h => Done tt (f st) h.

(** Ask the outside: compute the answer from the history, record it. *)
Definition ask {St A} (answer : trace -> A) (ev : A -> event) : M St A :=
  fun st h => let a := answer h in Done a st (h ++ [ev a]).

Definition emit {St} (ev : event) : M St unit :=
  fun st h => Done tt st (h ++ [ev]).

(** Run a computation on a component of a larger state. *)
Definition zoom {St Big A} (proj : Big -> St) (upd : St -> Big -> Big)
    (m : M St A) : M Big A :=
  fun big h =>
    match m (proj big) h with
    | Done a st' h' => Done a (upd st' big) h'
    | Panicked st' h' => Panicked (upd st' big) h'
    | Blocked st' h' => Blocked (upd st' big) h'
    | OutOfFuel st' h' => OutOfFuel (upd st' big) h'
    end.

Definition is_nil {A} (o : option A) : bool :=
  match o with None => true | Some _ => false end.

(** Counting the calls of one kind in a history. *)
Definition is_dial (e : event) : bool :=
  match e with EDial _ _ => true | _ => false end.

Definition is_new_client (e : event) : bool :=
  match e with ENewClientConn => true | _ => false end.

Definition is_client_write (e : event) : bool :=
  match e with EClientWrite _ => true | _ => false end.

Fixpoint count (p : event -> bool) (h : trace) : nat :=
  match h with
  | [] => O
  | e :: h' => if p e then S (count p h') else count p h'
  end.

(** The read deadline in force on socket [s] after history [h]: the value
    of the last [SetReadDeadline] call on [s] that returned nil.  A socket
    on which none succeeded has no deadline, which is the zero time. *)
Fixpoint read_deadline_of (s : sock) (h : trace) (cur : time) : time :=
  match h with
  | [] => cur
  | ESetReadDeadline s' t None :: h' =>
      read_deadline_of s h' (if Nat.eqb s s' then t else cur)
  | _ :: h' => read_deadline_of s h' cur
  end.

Fixpoint write_deadline_of (s : sock) (h : trace) (cur : time) : time :=
  match h with
  | [] => cur
  | ESetWriteDeadline s' t None :: h' =>
      write_deadline_of s h' (if Nat.eqb s s' then t else cur)
  | _ :: h' => write_deadline_of s h' cur
  end.

End Net.

Export Net.

Declare Scope go_scope.
Delimit Scope go_scope with go.
Notation "'let*' x ':=' m 'in' k" := (bind m (fun x => k))
  (at level 10, x pattern, m at level 100, k at level 200) : go_scope.
Notation "m1 ';;;' m2" := (bind m1 (fun _ => m2))
  (at level 100, m2 at level 200, right associativity) : go_scope.
Open Scope go_scope.

(** ** dialer.go *)

Module Dialer.

(** [type ReusableConn struct].  [lock] is [true] while the mutex is
    held; the [dialer] field is the environment's [dialer]. *)
Record ReusableConn := mkReusableConn {
  lock : bool;
  conn : option sock;
  readDeadline : time;
  writeDeadline : time
}.

Definition set_lock (b : bool) (self : ReusableConn) : ReusableConn :=
  mkReusableConn b (conn self) (readDeadline self) (writeDeadline self).
Definition set_conn (c : option sock) (self : ReusableConn) : ReusableConn :=
  mkReusableConn (lock self) c (readDeadline self) (writeDeadline self).
Definition set_readDeadline (t : time) (self : ReusableConn) : ReusableConn :=
  mkReusableConn (lock self) (conn self) t (writeDeadline self).
Definition set_writeDeadline (t : time) (self : ReusableConn) : ReusableConn :=
  mkReusableConn (lock self) (conn self) (readDeadline self) t.

(** [func NewReusableConnection(d Dialer) (c *ReusableConn)]: a fresh
    mutex, a nil [conn], and the zero values of the two deadlines. *)
Definition NewReusableConnection : ReusableConn :=
  mkReusableConn false None 0 0.

(** [self.conn.Method(...)]: the receiver must not be nil. *)
Definition the_conn : M ReusableConn sock :=
  fun self h =>
    match conn self with
    | Some c => Done c self h
    | None => Panicked self h
    end.

(** [self.lock.Lock(); defer self.lock.Unlock(); return body]: the
    deferred unlock runs on return and on panic alike. *)
Definition locked {A} (body : M ReusableConn A) : M ReusableConn A :=
  fun self h =>
    if lock self then Blocked self h
    else
      match body (set_lock true self) h with
      | Done a self' h' => Done a (set_lock false self') h'
      | Panicked self' h' => Panicked (set_lock false self') h'
      | Blocked self' h' => Blocked self' h'
      | OutOfFuel self' h' => OutOfFuel self' h'
      end.

Section WithEnv.

Variable env : Env.

(** [func (self *ReusableConn) setReadDeadline(t time.Time) (err error)],
    over the [dial] it calls. *)
Definition setReadDeadline_over (dial : M ReusableConn (option error))
    (t : time) : M ReusableConn (option error) :=
  let* err := dial in
  match err with
  | None =>
      let* c := the_conn in
      let* err := ask (fun h => conn_SetReadDeadline env h c t)
                      (ESetReadDeadline c t) in
      match err with
      | None => modify (set_readDeadline t) ;;; ret None
      | Some e => ret (Some e)
      end
  | Some e => ret (Some e)
  end.

(** [func (self *ReusableConn) setWriteDeadline(t time.Time) (err error)] *)
Definition setWriteDeadline_over (dial : M ReusableConn (option error))
    (t : time) : M ReusableConn (option error) :=
  let* err := dial in
  match err with
  | None =>
      let* c := the_conn in
      let* err := ask (fun h => conn_SetWriteDeadline env h c t)
                      (ESetWriteDeadline c t) in
      match err with
      | None => modify (set_writeDeadline t) ;;; ret None
      | Some e => ret (Some e)
      end
  | Some e => ret (Some e)
  end.

(** [func (self *ReusableConn) dial() (err error)].  [dial] and the two
    deadline setters call each other; [fuel] bounds the nesting. *)
Fixpoint dial (fuel : nat) : M ReusableConn (option error) :=
  match fuel with
  | O => out_of_fuel
  | S fuel' =>
      let* self := get in
      match conn self with
      | None =>
          let* (c, err) := ask (dialer env) (fun r => EDial (fst r) (snd r)) in
          modify (set_conn c) ;;;
          let* self := get in
          let* err :=
            (if is_nil err && negb (IsZero (readDeadline self))
             then setReadDeadline_over (dial fuel') (readDeadline self)
             else ret err) in
          let* self := get in
          let* err :=
            (if is_nil err && negb (IsZero (writeDeadline self))
             then setWriteDeadline_over (dial fuel') (writeDeadline self)
             else ret err) in
          ret err
      | Some _ => ret None
      end
  end.

Definition setReadDeadline (fuel : nat) (t : time) :=
  setReadDeadline_over (dial fuel) t.

Definition setWriteDeadline (fuel : nat) (t : time) :=
  setWriteDeadline_over (dial fuel) t.

(** [func (self *ReusableConn) Dial() (err error)] *)
Definition Dial (fuel : nat) : M ReusableConn (option error) :=
  locked (dial fuel).

(** [func (self *ReusableConn) close() (err error)] *)
Definition close : M ReusableConn (option error) :=
  let* self := get in
  match conn self with
  | Some c =>
      let* err := ask (fun h => conn_Close env h c) (EConnClose c) in
      modify (set_conn None) ;;;
      ret err
  | None => ret None
  end.

(** [func (self *ReusableConn) Close() (err error)] *)
Definition Close : M ReusableConn (option error) :=
  locked close.

(** [func (self *ReusableConn) RemoteAddr() (a net.Addr)] *)
Definition RemoteAddr : M ReusableConn (option addr) :=
  locked (
    let* self := get in
    match conn self with
    | Some c => ask (fun h => conn_RemoteAddr env h c) (ERemoteAddr c)
    | None => ret None
    end).

(** [func (self *ReusableConn) LocalAddr() (a net.Addr)]: the body
    calls [self.conn.RemoteAddr()]. *)
Definition LocalAddr : M ReusableConn (option addr) :=
  locked (
    let* self := get in
    match conn self with
    | Some c => ask (fun h => conn_RemoteAddr env h c) (ERemoteAddr c)
    | None => ret None
    end).

(** [func (self *ReusableConn) read(in []byte) (n int, err error)].
    The second component is the content of [in] after the call. *)
Definition read (fuel : nat) (buf : bytes) : M ReusableConn (Z * bytes * option error) :=
  let* err := dial fuel in
  match err with
  | None =>
      let* c := the_conn in
      let* (n, out, err) :=
        ask (fun h => conn_Read env h c buf)
            (fun r => EConnRead c buf (fst (fst r)) (snd (fst r)) (snd r)) in
      match err with
      | Some _ => close ;;; ret (n, out, err)
      | None => ret (n, out, err)
      end
  | Some e => ret (0, buf, Some e)
  end.

(** [func (self *ReusableConn) write(in []byte) (n int, err error)] *)
Definition write (fuel : nat) (data : bytes) : M ReusableConn (Z * option error) :=
  let* err := dial fuel in
  match err with
  | None =>
      let* c := the_conn in
      let* (n, err) :=
        ask (fun h => conn_Write env h c data)
            (fun r => EConnWrite c data (fst r) (snd r)) in
      match err with
      | Some _ => close ;;; ret (n, err)
      | None => ret (n, err)
      end
  | Some e => ret (0, Some e)
  end.

(** [func (self *ReusableConn) Read(in []byte) (n int, err error)] *)
Definition Read (fuel : nat) (buf : bytes) := locked (read fuel buf).

(** [func (self *ReusableConn) Write(out []byte) (n int, err error)] *)
Definition Write (fuel : nat) (out : bytes) := locked (write fuel out).

(** [func (self *ReusableConn) SetReadDeadline(t time.Time) (err error)] *)
Definition SetReadDeadline (fuel : nat) (t : time) := locked (setReadDeadline fuel t).

(** [func (self *ReusableConn) SetWriteDeadline(t time.Time) (err error)] *)
Definition SetWriteDeadline (fuel : nat) (t : time) := locked (setWriteDeadline fuel t).

(** [func (self *ReusableConn) SetDeadline(t time.Time) (err error)] *)
Definition SetDeadline (fuel : nat) (t : time) : M ReusableConn (option error) :=
  let* err := SetReadDeadline fuel t in
  match err with
  | None => SetWriteDeadline fuel t
  | Some e => ret (Some e)
  end.

End WithEnv.

End Dialer.

(** ** The request pipe: [type Conn struct] and its methods *)

Module Pipe.

Import Dialer.

(** What [http.ClientConn] does with the [net.Conn] it was built on (here
    always the [ReusableConn]): a finite script of [Write] and [Read]
    calls, each continuing on what the call returned. *)
Inductive io (A : Type) : Type :=
| io_ret (a : A)
| io_Write (data : bytes) (k : Z * option error -> io A)
| io_Read (buf : bytes) (k : Z * bytes * option error -> io A).

Arguments io_ret {A} a.
Arguments io_Write {A} data k.
Arguments io_Read {A} buf k.

Section WithHTTP.

Variable env : Env.

(** The Go [http] library, which is not part of the repository: the
    private state of a [*http.ClientConn], its constructor, its [Write]
    and [Read] methods, and [Form.Encode]. *)
Variable ClientConn : Type.
Variable NewClientConn : ClientConn.
Variable client_Write : ClientConn -> Request -> io (ClientConn * option error).
Variable client_Read :
  ClientConn -> Request -> io (ClientConn * (option Response * option error)).
Variable Encode : Values -> string.

(** [type Conn struct].  [c] is [None] for a nil handle; otherwise it
    holds the current private state of the handle it points to. *)
Record Conn := mkConn {
  uc : ReusableConn;
  c : option ClientConn
}.

Definition set_uc (u : ReusableConn) (self : Conn) : Conn := mkConn u (c self).
Definition set_c (h : option ClientConn) (self : Conn) : Conn := mkConn (uc self) h.

(** [func NewConn(d Dialer) *Conn] *)
Definition NewConn : Conn := mkConn NewReusableConnection None.

Definition on_uc {A} (m : M ReusableConn A) : M Conn A := zoom uc set_uc m.

(** Running the library's script against the public methods of [uc]. *)
Fixpoint run_io {A} (fuel : nat) (p : io A) : M ReusableConn A :=
  match p with
  | io_ret a => ret a
  | io_Write data k => let* r := Write env fuel data in run_io fuel (k r)
  | io_Read buf k => let* r := Read env fuel buf in run_io fuel (k r)
  end.

(** [self.c.Method(req)]: the receiver must not be nil. *)
Definition the_client : M Conn ClientConn :=
  fun self h =>
    match c self with
    | Some cc => Done cc self h
    | None => Panicked self h
    end.

(** [self.c.Write(req)]: the handle stays the same object, its private
    state moves on. *)
Definition c_Write (fuel : nat) (req : Request) : M Conn (option error) :=
  let* cc := the_client in
  emit (EClientWrite req) ;;;
  let* (cc', err) := on_uc (run_io fuel (client_Write cc req)) in
  modify (set_c (Some cc')) ;;;
  ret err.

(** [self.c.Read(req)] *)
Definition c_Read (fuel : nat) (req : Request)
    : M Conn (option Response * option error) :=
  let* cc := the_client in
  emit (EClientRead req) ;;;
  let* (cc', r) := on_uc (run_io fuel (client_Read cc req)) in
  modify (set_c (Some cc')) ;;;
  ret r.

(** [func (self *Conn) dial() (err os.Error)] *)
Definition dial (fuel : nat) : M Conn (option error) :=
  let* self := get in
  match c self with
  | None =>
      let* err := on_uc (Dial env fuel) in
      match err with
      | None =>
          emit ENewClientConn ;;;
          modify (set_c (Some NewClientConn)) ;;;
          ret None
      | Some e => ret (Some e)
      end
  | Some _ => ret None
  end.

(** The [if req.Form != nil { ... }] block of [Request]. *)
Definition merge_form (req : Request) : Request :=
  match Form req with
  | Some form =>
      let u := ReqURL req in
      let q := RawQuery u in
      let q := if negb (String.eqb q "") then q +:+ "&" else q in
      let q := q +:+ Encode form in
      mkRequest (Method req) (mkURL (Scheme u) (Host u) (Path u) q) None
  | None => req
  end.

(** [func (self *Conn) Request(req *http.Request) (resp *http.Response, err os.Error)].
    [req] is a pointer: the first component of the result is the
    request object as the call leaves it. *)
Definition Request (fuel : nat) (req : Net.Request)
    : M Conn (Net.Request * option Response * option error) :=
  let* err := dial fuel in
  match err with
  | None =>
      let req := merge_form req in
      let* err := c_Write fuel req in
      match err with
      | None =>
          let* (resp, err) := c_Read fuel req in
          ret (req, resp, err)
      | Some e => ret (req, None, Some e)
      end
  | Some e => ret (req, None, Some e)
  end.

End WithHTTP.

Arguments uc {ClientConn} _.
Arguments c {ClientConn} _.
Arguments mkConn {ClientConn} _ _.

End Pipe.

(** ** sdb/domain.go *)

Module SDB.

Section WithService.

(** The types of the [sdb] package that [domain.go] only mentions. *)
Variable Item : Type.
Variable Attribute : Type.
Variable AttributeList : Type.
Variable ATTRIBUTE_LIST_Values : AttributeList -> Values.
Variable EXPECTED_LIST_Values : AttributeList -> Values.

(** [type selectresponse struct], the two fields [Select] reads. *)
Record selectresponse := mkSelectresponse {
  Items : list Item;
  NextToken : string
}.

(** Whatever the signer and the connection of the domain own. *)
Variable World : Type.

(** The collaborators.  [vl] is a Go map, so a callee that was handed
    the map (through the request built from it) may have changed it by
    the time it returns: each effectful collaborator takes the map and
    gives it back.
    - [aws.NewRequest(url, method, nil, vl)]
    - [signer.SignRequestV2(req, aws.Canonicalize, DEFAULT_API_VERSION, 0)]
    - [self.conn.Request(req)]
    - [aws.CodeToError(code)]
    - [xml.NewDecoder(body).Decode(&response)] for the two response types *)
Variable NewRequest : URL -> string -> Values -> Request.
Variable SignRequestV2 :
  Request -> Values -> M World (Request * Values * option error).
Variable conn_Request :
  Request -> Values -> M World (option Response * option error * Values).
Variable CodeToError : Z -> option error.
Variable DecodeSelect : string -> selectresponse * option error.
Variable DecodeGetAttributes : string -> list Attribute * option error.

(** [type Domain struct]; the [conn] field lives in the world. *)
Record Domain := mkDomain {
  DomainURL : URL;
  Name : string
}.

(** The world, and three observations of a run: the parameter map of
    every request built, every request handed to [conn.Request], and
    every item sent on the [items] channel, each in order. *)
Record Run := mkRun {
  world : World;
  built : list Values;
  sent : list Request;
  queue : list Item
}.

Definition in_world {A} (m : M World A) : M Run A :=
  zoom world (fun w r => mkRun w (built r) (sent r) (queue r)) m.

Definition note_built (vl : Values) : M Run unit :=
  fun r h => Done tt (mkRun (world r) (built r ++ [vl]) (sent r) (queue r)) h.

Definition note_sent (req : Request) : M Run unit :=
  fun r h => Done tt (mkRun (world r) (built r) (sent r ++ [req]) (queue r)) h.

(** [items <- x].  The caller is reading the channel, so the send
    completes; what is kept is the order of the sends. *)
Definition send (x : Item) : M Run unit :=
  fun r h => Done tt (mkRun (world r) (built r) (sent r) (queue r ++ [x])) h.

(** [for i := range xs { items <- xs[i] }] *)
Fixpoint send_all (xs : list Item) : M Run unit :=
  match xs with
  | [] => ret tt
  | x :: xs' => send x ;;; send_all xs'
  end.

(** [resp.Field]: the pointer must not be nil. *)
Definition the_resp (resp : option Response) : M Run Response :=
  match resp with
  | Some r => ret r
  | None => panic
  end.

Variable self : Domain.

(** The locals that live across iterations of the loop in [Select]. *)
Record locals := mkLocals {
  l_vl : Values;
  l_err : option error;
  l_done : bool;
  l_nextToken : string
}.

(** One pass through the body of [for err == nil && !done { ... }].
    The dumps of the response to standard output and the closing of the
    response body are left out. *)
Definition Select_body (l : locals) : M Run locals :=
  let vl := Values_Del "NextToken" (l_vl l) in
  let vl := if negb (String.eqb (l_nextToken l) "")
            then Values_Set "NextToken" (l_nextToken l) vl else vl in
  let req := NewRequest (DomainURL self) "GET" vl in
  note_built vl ;;;
  let* (req, vl, err) := in_world (SignRequestV2 req vl) in
  match err with
  | Some e => ret (mkLocals vl (Some e) (l_done l) (l_nextToken l))
  | None =>
      note_sent req ;;;
      let* (resp, err, vl) := in_world (conn_Request req vl) in
      match err with
      | Some e => ret (mkLocals vl (Some e) (l_done l) (l_nextToken l))
      | None =>
          let* resp := the_resp resp in
          let (xresp, err) := DecodeSelect (Body resp) in
          match err with
          | Some e => ret (mkLocals vl (Some e) (l_done l) (l_nextToken l))
          | None =>
              send_all (Items xresp) ;;;
              let nextToken := NextToken xresp in
              ret (mkLocals vl None (String.eqb nextToken "") nextToken)
          end
      end
  end.

(** [for err == nil && !done { body }], at most [fuel] passes. *)
Fixpoint Select_loop (fuel : nat) (l : locals) : M Run (option error) :=
  if is_nil (l_err l) && negb (l_done l) then
    match fuel with
    | O => out_of_fuel
    | S fuel' => let* l' := Select_body l in Select_loop fuel' l'
    end
  else ret (l_err l).

(** The parameters [Select] builds before the loop. *)
Definition Select_params (what where_ : string) (consist : bool) : Values :=
  let vl := (∅ : Values) in
  let vl := Values_Set "Action" "Select" vl in
  let where_ := if negb (String.eqb where_ "") then " where " +:+ where_ else where_ in
  let vl := Values_Set "SelectExpression"
              ("select " +:+ what +:+ " from " +:+ Name self +:+ where_) vl in
  if consist then Values_Set "ConsistentRead" "true" vl else vl.

(** [func (self *Domain) Select(id *aws.Signer, what, where string,
    consist bool, items chan<- Item) (err error)] *)
Definition Select (fuel : nat) (what where_ : string) (consist : bool)
    : M Run (option error) :=
  Select_loop fuel (mkLocals (Select_params what where_ consist) None false "").

(** The tail both attribute calls share: sign, send, and
    [err = aws.CodeToError(resp.StatusCode)]. *)
Definition signed_call (vl : Values) : M Run (option Response * option error) :=
  let req := NewRequest (DomainURL self) "GET" vl in
  note_built vl ;;;
  let* (req, vl, err) := in_world (SignRequestV2 req vl) in
  let* (resp, err) :=
    match err with
    | None =>
        note_sent req ;;;
        let* (resp, err, _) := in_world (conn_Request req vl) in
        ret (resp, err)
    | Some e => ret (None, Some e)
    end in
  match err with
  | None =>
      let* r := the_resp resp in
      ret (resp, CodeToError (StatusCode r))
  | Some e => ret (resp, Some e)
  end.

(** [func (self *Domain) DeleteAttribute(s *aws.Signer, item string,
    attrs, expected AttributeList) (err error)] *)
Definition DeleteAttribute (item : string) (attrs expected : AttributeList)
    : M Run (option error) :=
  let vl := ATTRIBUTE_LIST_Values attrs in
  let vl := EXPECTED_LIST_Values expected ∪ vl in
  let vl := Values_Set "Action" "DeleteAttribute" vl in
  let vl := Values_Set "DomainName" (Name self) vl in
  let vl := Values_Set "ItemName" item vl in
  let* (_, err) := signed_call vl in
  ret err.

(** [func (self *Domain) GetAttribute(s *aws.Signer, item string,
    attrs AttributeList, consist bool) (a []Attribute, err error)] *)
Definition GetAttribute (item : string) (attrs : AttributeList) (consist : bool)
    : M Run (list Attribute * option error) :=
  let vl := ATTRIBUTE_LIST_Values attrs in
  let vl := Values_Set "Action" "GetAttributes" vl in
  let vl := Values_Set "DomainName" (Name self) vl in
  let vl := Values_Set "ItemName" item vl in
  let vl := if consist then Values_Set "ConsistentRead" "true" vl else vl in
  let* (resp, err) := signed_call vl in
  match err with
  | None =>
      let* r := the_resp resp in
      let (a, err) := DecodeGetAttributes (Body r) in
      match err with
      | None => ret (a, None)
      | Some e => ret ([], Some e)
      end
  | Some e => ret ([], Some e)
  end.

End WithService.

Arguments mkSelectresponse {Item} _ _.
Arguments Items {Item} _.
Arguments NextToken {Item} _.
Arguments mkRun {Item World} _ _ _ _.
Arguments world {Item World} _.
Arguments built {Item World} _.
Arguments sent {Item World} _.
Arguments queue {Item World} _.

End SDB.

(** ** Reasoning about computations

    [after m Q E st h]: if [m] returns [a] from [(st, h)], the state and
    history it leaves satisfy [Q a]; if it ends in any other way, they
    satisfy [E]. *)

Definition after {St A} (m : M St A) (Q : A -> St -> trace -> Prop)
    (E : St -> trace -> Prop) (st : St) (h : trace) : Prop :=
  match m st h with
  | Done a st' h' => Q a st' h'
  | Panicked st' h' | Blocked st' h' | OutOfFuel st' h' => E st' h'
  end.

Definition anyhow {St} : St -> trace -> Prop := fun _ _ => True.

(** The events a [ReusableConn] can cause. *)
Definition socket_event (e : event) : bool :=
  match e with
  | ENewClientConn | EClientWrite _ | EClientRead _ => false
  | _ => true
  end.

Import Dialer.

(** Ending otherwise than by returning is ruled out. *)
Definition never {St} : St -> trace -> Prop := fun _ _ => False.

(** What no call on a [ReusableConn] changes except the deadline setters,
    and what every call does to the history: it appends socket events. *)
Definition steady (self0 : ReusableConn) (h0 : trace) (self : ReusableConn) (h : trace) : Prop :=
  readDeadline self = readDeadline self0 /\
  writeDeadline self = writeDeadline self0 /\
  lock self = lock self0 /\
  exists ext, h = h0 ++ ext /\ forallb socket_event ext = true.

(** The deadline calls [dial] may make when the stored deadlines are [rd]
    and [wd]: only with these values, and only when they are not zero. *)
Definition tidy (rd wd : time) (e : event) : bool :=
  socket_event e &&
  match e with
  | ESetReadDeadline _ t _ => (t =? rd)%Z && negb (IsZero rd)
  | ESetWriteDeadline _ t _ => (t =? wd)%Z && negb (IsZero wd)
  | _ => true
  end.

(** What holds of [dial] from start to end: the stored deadlines and the
    lock stay, a live socket stays, and the history grows by tidy events. *)
Definition dialing (self0 : ReusableConn) (h0 : trace) (self : ReusableConn) (h : trace) : Prop :=
  readDeadline self = readDeadline self0 /\
  writeDeadline self = writeDeadline self0 /\
  lock self = lock self0 /\
  (forall s, conn self0 = Some s -> conn self = Some s) /\
  exists ext, h = h0 ++ ext /\
    forallb (tidy (readDeadline self0) (writeDeadline self0)) ext = true.

(** The history grows by socket events only. *)
Definition grows (h0 h : trace) : Prop :=
  exists ext, h = h0 ++ ext /\ forallb socket_event ext = true.

(** [adds p h0 h]: the history has grown from [h0] to [h] without a call
    of the kind [p]. *)
Definition adds (p : event -> bool) (h0 h : trace) : Prop :=
  exists ext, h = h0 ++ ext /\ count p ext = O.

(** ** Programs of a caller of [ReusableConn] *)

Inductive deadline_kind := ReadDeadline | WriteDeadline.

Inductive op : Type :=
| OpDial
| OpClose
| OpRead (buf : bytes)
| OpWrite (out : bytes)
| OpRemoteAddr
| OpLocalAddr
| OpSetReadDeadline (t : time)
| OpSetWriteDeadline (t : time)
| OpSetDeadline (t : time).

Definition run_op (env : Env) (fuel : nat) (o : op) : M Dialer.ReusableConn unit :=
  match o with
  | OpDial => Dialer.Dial env fuel ;;; ret tt
  | OpClose => Dialer.Close env ;;; ret tt
  | OpRead buf => Dialer.Read env fuel buf ;;; ret tt
  | OpWrite out => Dialer.Write env fuel out ;;; ret tt
  | OpRemoteAddr => Dialer.RemoteAddr env ;;; ret tt
  | OpLocalAddr => Dialer.LocalAddr env ;;; ret tt
  | OpSetReadDeadline t => Dialer.SetReadDeadline env fuel t ;;; ret tt
  | OpSetWriteDeadline t => Dialer.SetWriteDeadline env fuel t ;;; ret tt
  | OpSetDeadline t => Dialer.SetDeadline env fuel t ;;; ret tt
  end.

Fixpoint run_ops (env : Env) (fuel : nat) (os : list op) : M Dialer.ReusableConn unit :=
  match os with
  | [] => ret tt
  | o :: os' => run_op env fuel o ;;; run_ops env fuel os'
  end.

(** The calls that leave the stored deadline of kind [k] alone. *)
Definition keeps (k : deadline_kind) (o : op) : bool :=
  match o, k with
  | OpSetDeadline _, _ => false
  | OpSetReadDeadline _, ReadDeadline => false
  | OpSetWriteDeadline _, WriteDeadline => false
  | _, _ => true
  end.

Definition SetDeadlineOf (k : deadline_kind) :=
  match k with
  | ReadDeadline => Dialer.SetReadDeadline
  | WriteDeadline => Dialer.SetWriteDeadline
  end.

Definition stored (k : deadline_kind) (self : Dialer.ReusableConn) : time :=
  match k with
  | ReadDeadline => Dialer.readDeadline self
  | WriteDeadline => Dialer.writeDeadline self
  end.

(** The deadline of kind [k] in force on socket [s] after history [h]. *)
Definition deadline_of (k : deadline_kind) (s : sock) (h : trace) : time :=
  match k with
  | ReadDeadline => read_deadline_of s h 0
  | WriteDeadline => write_deadline_of s h 0
  end.

(** ** The handle of the request pipe, as the specification words it *)

Definition is_close (e : event) : bool :=
  match e with EConnClose _ _ => true | _ => false end.

(** The specification: whenever the underlying socket is discarded, the
    protocol handle of the pipe is cleared (set to nil).  For one
    [Request]: if the socket was closed while it ran, it leaves [c] nil. *)
Definition handle_cleared_when_socket_discarded
    (env : Env) {ClientConn : Type} (NewClientConn : ClientConn)
    (client_Write : ClientConn -> Request -> Pipe.io (ClientConn * option error))
    (client_Read : ClientConn -> Request ->
                   Pipe.io (ClientConn * (option Response * option error)))
    (Encode : Values -> string) : Prop :=
  forall fuel req self h,
    let o := Pipe.Request env ClientConn NewClientConn client_Write client_Read Encode
               fuel req self h in
    existsb is_close (drop (length h) (final_trace o)) = true ->
    Pipe.c (final_state o) = None.

(** ** A service that answers a query page by page *)

Section Serving.

Variable Item : Type.
Variable World : Type.
Variable NewRequest : URL -> string -> Values -> Request.
Variable SignRequestV2 :
  Request -> Values -> M World (Request * Values * option error).
Variable conn_Request :
  Request -> Values -> M World (option Response * option error * Values).
Variable DecodeSelect : string -> SDB.selectresponse Item * option error.
Variable self : SDB.Domain.

(** The parameters of the request that follows cursor [tok]. *)
Definition page_params (vl : Values) (tok : string) : Values :=
  let vl := Values_Del "NextToken" vl in
  if negb (String.eqb tok "") then Values_Set "NextToken" tok vl else vl.

(** From world [w] and history [h], with [tok] the cursor held, the next
    requests are answered with [pages], one page each: the signer signs
    the request, the connection returns a response, and the body of the
    response decodes to the page. *)
Fixpoint serves (pages : list (SDB.selectresponse Item)) (vl : Values) (tok : string)
    (w : World) (h : trace) : Prop :=
  match pages with
  | [] => True
  | p :: pages' =>
      let vl0 := page_params vl tok in
      exists req vl1 w1 h1 resp vl2 w2 h2,
        SignRequestV2 (NewRequest (SDB.DomainURL self) "GET" vl0) vl0 w h
        = Done (req, vl1, None) w1 h1 /\
        conn_Request req vl1 w1 h1 = Done (Some resp, None, vl2) w2 h2 /\
        DecodeSelect (Body resp) = (p, None) /\
        serves pages' vl2 (SDB.NextToken p) w2 h2
  end.

(** The cursor parameter of a request: absent for the empty cursor. *)
Definition cursor_param (tok : string) : option (list string) :=
  if String.eqb tok "" then None else Some [tok].

End Serving.

(** The same connection, with every status code it reports replaced. *)
Definition restatus {World : Type} (f : Z -> Z)
    (conn_Request : Request -> Values -> M World (option Response * option error * Values))
    : Request -> Values -> M World (option Response * option error * Values) :=
  fun req vl w h =>
    match conn_Request req vl w h with
    | Done (resp, err, vl') w' h' =>
        Done (option_map (fun r => mkResponse (f (StatusCode r)) (Body r)) resp, err, vl') w' h'
    | other => other
    end.

(** ** Test doubles *)

Module Mock.

(** A dialer that hands out sockets 0, 1, 2, ...; a call on a socket
    fails exactly when the socket is listed for that call. *)
Definition env_with (read_fails write_fails rd_fails wd_fails : list sock) : Env :=
  {| dialer := fun h => (Some (count is_dial h), None);
     conn_Read := fun _ s buf =>
       if existsb (Nat.eqb s) read_fails
       then (0, buf, Some "read: connection reset by peer")
       else (Z.of_nat (length buf), buf, None);
     conn_Write := fun _ s data =>
       if existsb (Nat.eqb s) write_fails
       then (0, Some "write: broken pipe")
       else (Z.of_nat (length data), None);
     conn_Close := fun _ _ => None;
     conn_SetReadDeadline := fun _ s _ =>
       if existsb (Nat.eqb s) rd_fails then Some "set read deadline: bad descriptor" else None;
     conn_SetWriteDeadline := fun _ s _ =>
       if existsb (Nat.eqb s) wd_fails then Some "set write deadline: bad descriptor" else None;
     conn_RemoteAddr := fun _ _ => Some "203.0.113.7:80";
     conn_LocalAddr := fun _ _ => Some "192.0.2.1:49152" |}.

Definition env_ok : Env := env_with [] [] [] [].

(** A dialer that always fails. *)
Definition env_down : Env :=
  {| dialer := fun _ => (None, Some "dial: connection refused");
     conn_Read := conn_Read env_ok;
     conn_Write := conn_Write env_ok;
     conn_Close := conn_Close env_ok;
     conn_SetReadDeadline := conn_SetReadDeadline env_ok;
     conn_SetWriteDeadline := conn_SetWriteDeadline env_ok;
     conn_RemoteAddr := conn_RemoteAddr env_ok;
     conn_LocalAddr := conn_LocalAddr env_ok |}.

Definition live (s : sock) : Dialer.ReusableConn :=
  Dialer.mkReusableConn false (Some s) 0 0.

(** A connection with both deadlines stored and no socket. *)
Definition idle_with_deadlines : Dialer.ReusableConn :=
  Dialer.mkReusableConn false None 5 7.

(** Set a read deadline, lose the socket to a failed read, dial again. *)
Definition env_first_read_fails : Env := env_with [0%nat] [] [] [].

Definition deadline_set :=
  Dialer.SetReadDeadline env_first_read_fails 2 5 Dialer.NewReusableConnection [].

Definition socket_lost :=
  run_ops env_first_read_fails 2 [OpRead []]
    (final_state deadline_set) (final_trace deadline_set).

Definition redialed :=
  Dialer.dial env_first_read_fails 2
    (Dialer.set_lock true (final_state socket_lost)) (final_trace socket_lost).

(** A protocol layer without private state: one [Write] per request,
    one [Read] per response. *)
Definition wire (req : Request) : bytes :=
  String.list_byte_of_string (Method req +:+ " " +:+ Path (ReqURL req) +:+ "?" +:+ RawQuery (ReqURL req)).

Definition client_Write (cc : unit) (req : Request) : Pipe.io (unit * option error) :=
  Pipe.io_Write (wire req) (fun r => Pipe.io_ret (cc, snd r)).

Definition client_Read (cc : unit) (req : Request)
    : Pipe.io (unit * (option Response * option error)) :=
  Pipe.io_Read []
    (fun r => Pipe.io_ret
       (cc, match snd r with
            | None => (Some (mkResponse 200 ""), None)
            | Some e => (None, Some e)
            end)).

(** The pipe over this protocol layer. *)
Definition pipe_Request (env : Env) (Encode : Values -> string) (fuel : nat) :=
  Pipe.Request env unit tt client_Write client_Read Encode fuel.

Definition pipe_dial (env : Env) (fuel : nat) :=
  Pipe.dial env unit tt fuel.

(** Socket 0 fails every write; the sockets dialed after it work. *)
Definition env_first_socket_broken : Env := env_with [] [0%nat] [] [].

(** A first request on a broken socket, then a second request. *)
Definition first_request (Encode : Values -> string) (req : Request) :=
  pipe_Request env_first_socket_broken Encode 3 req (Pipe.NewConn unit) [].

Definition second_request (Encode : Values -> string) (req : Request) :=
  pipe_Request env_first_socket_broken Encode 3 req
    (final_state (first_request Encode req)) (final_trace (first_request Encode req)).

(** [key=value] pairs joined by [&], without escaping. *)
Definition plain_Encode (vl : Values) : string :=
  String.concat "&"
    (flat_map (fun kv => map (fun v => fst kv +:+ "=" +:+ v) (snd kv)) (map_to_list vl)).

Definition get_a1 : Request :=
  mkRequest "GET" (mkURL "https" "sdb.amazonaws.com" "/" "a=1") (Some {[ "b" := ["2"] ]}).

Definition get_plain : Request :=
  mkRequest "GET" (mkURL "https" "sdb.amazonaws.com" "/" "") (Some {[ "b" := ["2"] ]}).

(** A SimpleDB endpoint that answers the k-th request with the k-th
    entry of a script and fails when the script is used up; the signer
    never fails and changes nothing. *)
Definition server := list (option Response * option error).

Definition NewRequest (u : URL) (method : string) (vl : Values) : Request :=
  mkRequest method u (Some vl).

Definition SignRequestV2 (req : Request) (vl : Values)
    : M server (Request * Values * option error) :=
  ret (req, vl, None).

Definition conn_Request (req : Request) (vl : Values)
    : M server (option Response * option error * Values) :=
  fun w h =>
    match w with
    | r :: w' => Done (r, vl) w' h
    | [] => Done (None, Some "EOF", vl) [] h
    end.

Definition CodeToError (code : Z) : option error :=
  if ((200 <=? code) && (code <? 300))%Z then None else Some "service error".

(** Bodies are decoded by looking them up in a table. *)
Definition DecodeSelect (table : list (string * SDB.selectresponse string))
    (body : string) : SDB.selectresponse string * option error :=
  match find (fun e => String.eqb (fst e) body) table with
  | Some e => (snd e, None)
  | None => (SDB.mkSelectresponse [] "", Some "malformed XML")
  end.

Definition DecodeGetAttributes (body : string) : list string * option error :=
  ([body], None).

Definition domain : SDB.Domain :=
  SDB.mkDomain (mkURL "https" "sdb.amazonaws.com" "/" "") "fruit".

Definition pages : list (string * SDB.selectresponse string) :=
  [ ("page1", SDB.mkSelectresponse ["apple"; "banana"] "t1");
    ("page2", SDB.mkSelectresponse ["cherry"] "t2");
    ("page3", SDB.mkSelectresponse ["damson"; "elder"] "");
    ("error document", SDB.mkSelectresponse [] "") ].

Definition three_pages : server :=
  [ (Some (mkResponse 200 "page1"), None);
    (Some (mkResponse 200 "page2"), None);
    (Some (mkResponse 200 "page3"), None) ].

(** The same three responses, the second with a failure status. *)
Definition second_fails : server :=
  [ (Some (mkResponse 200 "page1"), None);
    (Some (mkResponse 500 "page2"), None);
    (Some (mkResponse 200 "page3"), None) ].

(** Page 1, then a failure status with a body that has neither items nor
    a cursor in it. *)
Definition second_is_error_document : server :=
  [ (Some (mkResponse 200 "page1"), None);
    (Some (mkResponse 500 "error document"), None);
    (Some (mkResponse 200 "page3"), None) ].

Definition start (w : server) : SDB.Run string server :=
  SDB.mkRun w [] [] [].

Definition Select (fuel : nat) :=
  SDB.Select string server NewRequest SignRequestV2 conn_Request
    (DecodeSelect pages) domain fuel "*" "" false.

Definition GetAttribute :=
  SDB.GetAttribute string string unit (fun _ => ∅) server NewRequest SignRequestV2
    conn_Request CodeToError DecodeGetAttributes domain "item1" tt false.

End Mock.

(** ** Further notions for the reusable connection *)

(** Replaying a history against the socket that is live.  The dialer may
    be called only when no socket is live, and its socket becomes the live
    one; every call on a socket must be on the live one; [Close] leaves
    none.  The result is the live socket at the end, or [None] when a call
    breaks these rules. *)
Fixpoint replay (h : trace) (cur : option sock) : option (option sock) :=
  match h with
  | [] => Some cur
  | e :: h' =>
      let on s (next : option sock) :=
        match cur with
        | Some s' => if Nat.eqb s s' then replay h' next else None
        | None => None
        end in
      match e with
      | EDial c _ =>
          match cur with
          | None => replay h' c
          | Some _ => None
          end
      | EConnClose s _ => on s None
      | EConnRead s _ _ _ _ => on s cur
      | EConnWrite s _ _ _ => on s cur
      | ESetReadDeadline s _ _ => on s cur
      | ESetWriteDeadline s _ _ => on s cur
      | ERemoteAddr s _ => on s cur
      | ENewClientConn | EClientWrite _ | EClientRead _ => replay h' cur
      end
  end.

(** The history [h], replayed from the socket [c0], agrees with the
    connection: it breaks no rule and ends with the stored socket live. *)
Definition in_step (c0 : option sock) (self : ReusableConn) (h : trace) : Prop :=
  replay h c0 = Some (conn self).

(** An event on socket [s] that leaves [s] live. *)
Definition on_live (s : sock) (e : event) : bool :=
  match e with
  | EConnRead s' _ _ _ _ | EConnWrite s' _ _ _ | ESetReadDeadline s' _ _
  | ESetWriteDeadline s' _ _ | ERemoteAddr s' _ => Nat.eqb s' s
  | _ => false
  end.

(** How a public method may leave the mutex: free when it returns or
    panics, and it never waits for a mutex it holds itself. *)
Definition lock_released {A} (o : outcome ReusableConn A) : Prop :=
  match o with
  | Done _ self _ | Panicked self _ => lock self = false
  | Blocked _ _ => False
  | OutOfFuel _ _ => True
  end.

Definition unblocked {St A} (o : outcome St A) : Prop :=
  match o with
  | Blocked _ _ => False
  | _ => True
  end.

Definition other_kind (k : deadline_kind) : deadline_kind :=
  match k with
  | ReadDeadline => WriteDeadline
  | WriteDeadline => ReadDeadline
  end.

(** ** Further notions for the request pipe *)

(** A caller sending requests one after the other, whatever they return. *)
Fixpoint run_requests (env : Env) {ClientConn : Type} (NewClientConn : ClientConn)
    (client_Write : ClientConn -> Request -> Pipe.io (ClientConn * option error))
    (client_Read : ClientConn -> Request ->
                   Pipe.io (ClientConn * (option Response * option error)))
    (Encode : Values -> string) (fuel : nat) (reqs : list Request)
    : M (Pipe.Conn ClientConn) unit :=
  match reqs with
  | [] => ret tt
  | req :: reqs' =>
      Pipe.Request env ClientConn NewClientConn client_Write client_Read Encode fuel req ;;;
      run_requests env NewClientConn client_Write client_Read Encode fuel reqs'
  end.

(** Handles built so far, plus one when none is held. *)
Definition handle_budget {ClientConn : Type} (self : Pipe.Conn ClientConn) (h : trace) : nat :=
  (count is_new_client h + (if is_nil (Pipe.c self) then 1 else 0))%nat.

(** ** A service that fails in the middle of a query *)

Section Failing.

Variable Item : Type.
Variable World : Type.
Variable NewRequest : URL -> string -> Values -> Request.
Variable SignRequestV2 :
  Request -> Values -> M World (Request * Values * option error).
Variable conn_Request :
  Request -> Values -> M World (option Response * option error * Values).
Variable DecodeSelect : string -> SDB.selectresponse Item * option error.
Variable self : SDB.Domain.

(** Like [serves], with [rest] holding where the pages end. *)
Fixpoint serves_then (pages : list (SDB.selectresponse Item))
    (rest : Values -> string -> World -> trace -> Prop)
    (vl : Values) (tok : string) (w : World) (h : trace) : Prop :=
  match pages with
  | [] => rest vl tok w h
  | p :: pages' =>
      let vl0 := page_params vl tok in
      exists req vl1 w1 h1 resp vl2 w2 h2,
        SignRequestV2 (NewRequest (SDB.DomainURL self) "GET" vl0) vl0 w h
        = Done (req, vl1, None) w1 h1 /\
        conn_Request req vl1 w1 h1 = Done (Some resp, None, vl2) w2 h2 /\
        DecodeSelect (Body resp) = (p, None) /\
        serves_then pages' rest vl2 (SDB.NextToken p) w2 h2
  end.

(** The next request fails with [e]: in signing (nothing is sent, [n] is
    0), or in [conn.Request], or in decoding the response ([n] is 1). *)
Definition fails_with (e : error) (n : nat)
    (vl : Values) (tok : string) (w : World) (h : trace) : Prop :=
  let vl0 := page_params vl tok in
  let req0 := NewRequest (SDB.DomainURL self) "GET" vl0 in
  (n = O /\ exists req vl1 w1 h1,
     SignRequestV2 req0 vl0 w h = Done (req, vl1, Some e) w1 h1) \/
  (n = 1%nat /\ exists req vl1 w1 h1, SignRequestV2 req0 vl0 w h = Done (req, vl1, None) w1 h1 /\
     ((exists resp vl2 w2 h2, conn_Request req vl1 w1 h1 = Done (resp, Some e, vl2) w2 h2) \/
      (exists resp vl2 w2 h2 partial,
         conn_Request req vl1 w1 h1 = Done (Some resp, None, vl2) w2 h2 /\
         DecodeSelect (Body resp) = (partial, Some e)))).

End Failing.

(** The dialer keeps to the convention of [net.Dial]: it never answers
    with neither a socket nor an error. *)
Definition dialer_answers (env : Env) : Prop :=
  forall h, fst (dialer env h) = None -> snd (dialer env h) <> None.

(** The deadline call of kind [k] on a socket, and its entry in the
    history. *)
Definition conn_SetDeadlineOf (k : deadline_kind) (env : Env)
    : trace -> sock -> time -> option error :=
  match k with
  | ReadDeadline => conn_SetReadDeadline env
  | WriteDeadline => conn_SetWriteDeadline env
  end.

Definition deadline_event (k : deadline_kind) (s : sock) (t : time) (err : option error)
    : event :=
  match k with
  | ReadDeadline => ESetReadDeadline s t err
  | WriteDeadline => ESetWriteDeadline s t err
  end.

Definition set_stored (k : deadline_kind) (t : time) (self : ReusableConn) : ReusableConn :=
  match k with
  | ReadDeadline => set_readDeadline t self
  | WriteDeadline => set_writeDeadline t self
  end.

(** A dialer that answers with neither a socket nor an error. *)
Definition env_silent : Env :=
  {| dialer := fun _ => (None, None);
     conn_Read := conn_Read Mock.env_ok;
     conn_Write := conn_Write Mock.env_ok;
     conn_Close := conn_Close Mock.env_ok;
     conn_SetReadDeadline := conn_SetReadDeadline Mock.env_ok;
     conn_SetWriteDeadline := conn_SetWriteDeadline Mock.env_ok;
     conn_RemoteAddr := conn_RemoteAddr Mock.env_ok;
     conn_LocalAddr := conn_LocalAddr Mock.env_ok |}.

(** The recursion bound was reached. *)
Definition ran_out {St A} (o : outcome St A) : bool :=
  match o with
  | OutOfFuel _ _ => true
  | _ => false
  end.

(** ** The [s3] module of the command line tool (package [s3_util]) *)

Module S3Util.

(** The calls on the service, as the service sees them. *)
Inductive call : Type :=
| CListBuckets
| CGetKey (bucket key : string)
| CExists (bucket key : string)
| CDeleteBucket (bucket : string)
| CCreateBucket (bucket : string)
| CDelete (bucket key : string)
| CPutLocalFile (bucket key file : string).

(** How a command can end: it returns, the process exits ([os.Exit]),
    or an index expression is out of range. *)
Inductive ended (St : Type) : Type :=
| Returns (err : option error) (st : St)
| Exits (code : Z) (st : St)
| IndexOutOfRange (st : St).

Arguments Returns {St} err st.
Arguments Exits {St} code st.
Arguments IndexOutOfRange {St} st.

Section WithService.

(** [*aws.Signer] and [*s3.Service], and what the functions of other
    packages return:
    - [DefaultSigner()] of [util/common]
    - [url.Parse(rawurl)], [s3.NewService(url)]
    - [path.Join(a, b)], [path.Base(p)] *)
Variable Signer : Type.
Variable Service : Type.
Variable DefaultSigner : option Signer * option error.
Variable url_Parse : string -> option URL * option error.
Variable NewService : option URL -> Service.
Variable path_Join : string -> string -> string.
Variable path_Base : string -> string.

(** [func DefaultS3Service() (id *aws.Signer, s *s3.Service, err error)].
    The [err] that [url.Parse] assigns is declared by [:=] inside the
    [if] block: it is a variable of that block, not the result [err]. *)
Definition DefaultS3Service (flag_endpoint_url : string)
    : option Signer * option Service * option error :=
  let (id, err) := DefaultSigner in
  let s :=
    match err with
    | None =>
        let (url_, err_inner) := url_Parse flag_endpoint_url in
        match err_inner with
        | None => Some (NewService url_)
        | Some _ => None
        end
    | Some _ => None
    end in
  (id, s, err).

(** Whatever the service holds. *)
Variable World : Type.

(** The methods of the service and of its buckets that the commands
    call, with the global [signer]:
    - [service.ListBuckets(signer)]
    - [service.Bucket(b).GetKey(signer, key, os.Stdout)]
    - [service.Bucket(b).Exists(signer, key)]
    - [service.DeleteBucket(signer, b)], [service.CreateBucket(signer, b)]
    - [service.Bucket(b).Delete(signer, key)]
    - [service.Bucket(b).PutLocalFile(signer, key, file)] *)
Variable ListBuckets : World -> list string * option error * World.
Variable GetKey : string -> string -> World -> list string * option error * World.
Variable Exists : string -> string -> World -> option error * World.
Variable DeleteBucket : string -> World -> option error * World.
Variable CreateBucket : string -> World -> option error * World.
Variable Delete : string -> string -> World -> option error * World.
Variable PutLocalFile : string -> string -> string -> World -> option error * World.

(** The world, the calls made on the service so far, and what was
    written to standard output. *)
Record Sys := mkSys {
  world : World;
  calls : list call;
  stdout : list string
}.

Definition on_service {A} (c : call) (f : World -> A * World) (st : Sys) : A * Sys :=
  let (a, w) := f (world st) in
  (a, mkSys w (calls st ++ [c]) (stdout st)).

Definition print (chunks : list string) (st : Sys) : Sys :=
  mkSys (world st) (calls st) (stdout st ++ chunks).

Definition newline : string := String (Ascii.ascii_of_nat 10) "".

(** [Modules["s3"].Calls["buckets"]] *)
Definition buckets (args : list string) (st : Sys) : ended Sys :=
  if negb (length args =? 0)%nat then Returns (Some "USAGE: buckets") st
  else
    let '(lb, err, w) := ListBuckets (world st) in
    let st := mkSys w (calls st ++ [CListBuckets]) (stdout st) in
    match err with
    | None => Returns err (print (map (fun b => b +:+ newline) lb) st)
    | Some _ => Returns err st
    end.

(** [Modules["s3"].Calls["cat"]]; [GetKey] writes to [os.Stdout]. *)
Definition cat (args : list string) (st : Sys) : ended Sys :=
  if negb (length args =? 2)%nat then Returns (Some "Usage: get BUCKET KEY") st
  else
    match args !! 0%nat, args !! 1%nat with
    | Some bucket, Some key =>
        let '(out, err, w) := GetKey bucket key (world st) in
        Returns err (mkSys w (calls st ++ [CGetKey bucket key]) (stdout st ++ out))
    | _, _ => IndexOutOfRange st
    end.

(** [Modules["s3"].Calls["exists"]] *)
Definition exists_ (args : list string) (st : Sys) : ended Sys :=
  if (length args =? 2)%nat then
    Exits 1 (print ["Usage: exists BUCKET KEY" +:+ newline] st)
  else
    match args !! 0%nat, args !! 1%nat with
    | Some bucket, Some key =>
        let (err, st) := on_service (CExists bucket key) (Exists bucket key) st in
        Returns err st
    | _, _ => IndexOutOfRange st
    end.

(** [Modules["s3"].Calls["drop"]] *)
Definition drop (args : list string) (st : Sys) : ended Sys :=
  if negb (length args =? 1)%nat then Returns (Some "Usage: drop BUCKET") st
  else
    match args !! 0%nat with
    | Some bucket =>
        let (err, st) := on_service (CDeleteBucket bucket) (DeleteBucket bucket) st in
        Returns err st
    | None => IndexOutOfRange st
    end.

(** [Modules["s3"].Calls["create"]] *)
Definition create (args : list string) (st : Sys) : ended Sys :=
  if negb (length args =? 1)%nat then Returns (Some "Usage: create BUCKET") st
  else
    match args !! 0%nat with
    | Some bucket =>
        let (err, st) := on_service (CCreateBucket bucket) (CreateBucket bucket) st in
        Returns err st
    | None => IndexOutOfRange st
    end.

(** [for i := range args { err = ...Delete(signer, args[i]); if err != nil
    { break } }], with [err] as the loop finds it. *)
Fixpoint rm_loop (bucket : string) (keys : list string) (err : option error) (st : Sys)
    : option error * Sys :=
  match keys with
  | [] => (err, st)
  | key :: keys' =>
      let (err, st) := on_service (CDelete bucket key) (Delete bucket key) st in
      match err with
      | Some _ => (err, st)
      | None => rm_loop bucket keys' err st
      end
  end.

(** [Modules["s3"].Calls["rm"]] *)
Definition rm (args : list string) (st : Sys) : ended Sys :=
  if (length args <? 2)%nat then Returns (Some "Usage: rm BUCKET KEY [KEY2...]") st
  else
    match args !! 0%nat with
    | Some bucket =>
        let (err, st) := rm_loop bucket (List.skipn 1 args) None st in
        Returns err st
    | None => IndexOutOfRange st
    end.

Fixpoint put_loop (bucket prefix : string) (keys : list string) (err : option error)
    (st : Sys) : option error * Sys :=
  match keys with
  | [] => (err, st)
  | file :: keys' =>
      let key := path_Join prefix (path_Base file) in
      let (err, st) :=
        on_service (CPutLocalFile bucket key file) (PutLocalFile bucket key file) st in
      match err with
      | Some _ => (err, st)
      | None => put_loop bucket prefix keys' err st
      end
  end.

(** [Modules["s3"].Calls["put"]] *)
Definition put (args : list string) (st : Sys) : ended Sys :=
  if (length args <? 3)%nat then Returns (Some "Usage: put BUCKET PREFIX FILE [FILE2...]") st
  else
    match args !! 0%nat, args !! 1%nat with
    | Some bucket, Some prefix =>
        let (err, st) := put_loop bucket prefix (List.skipn 2 args) None st in
        Returns err st
    | _, _ => IndexOutOfRange st
    end.

End WithService.

Arguments mkSys {World} _ _ _.
Arguments world {World} _.
Arguments calls {World} _.
Arguments stdout {World} _.

End S3Util.

(** The world after the service has performed the call [f] for each of
    [keys] in turn without an error; [None] if one of them fails. *)
Fixpoint performs {World} (f : string -> World -> option error * World)
    (keys : list string) (w : World) : option World :=
  match keys with
  | [] => Some w
  | key :: keys' =>
      match f key w with
      | (None, w') => performs f keys' w'
      | (Some _, _) => None
      end
  end.

(** Test doubles for the [s3] commands: a bucket is the list of its
    keys; deleting a key that is not there fails, and so does uploading
    a file without a name. *)
Module MockS3.

Definition Delete (bucket key : string) (w : list string) : option error * list string :=
  if existsb (String.eqb key) w
  then (None, List.filter (fun k => negb (String.eqb key k)) w)
  else (Some "NoSuchKey", w).

Definition PutLocalFile (bucket key file : string) (w : list string)
    : option error * list string :=
  if String.eqb file "" then (Some "open : no such file or directory", w)
  else (None, w ++ [key]).

Definition path_Join (a b : string) : string := a +:+ "/" +:+ b.

(** What follows the last slash. *)
Fixpoint after_last_slash (p acc : string) : string :=
  match p with
  | EmptyString => acc
  | String c p' =>
      if Ascii.eqb c (Ascii.ascii_of_nat 47) then after_last_slash p' ""
      else after_last_slash p' (acc +:+ String c "")
  end.

Definition path_Base (p : string) : string := after_last_slash p "".

Definition start (w : list string) : S3Util.Sys (list string) := S3Util.mkSys w [] [].

End MockS3.

(** * Properties *)

(** ** The rules of [after] *)

Section AfterRules.

Context {St : Type}.
Implicit Types (st : St) (h : trace) (E : St -> trace -> Prop).

Lemma after_ret {A} (a : A) (Q : A -> St -> trace -> Prop) E st h :
  Q a st h -> after (ret a) Q E st h.
Proof. exact id. Qed.

Lemma after_bind {A B} (m : M St A) (k : A -> M St B) Q E st h :
  after m (fun a => after (k a) Q E) E st h -> after (bind m k) Q E st h.
Proof. unfold after, bind. destruct (m st h); exact id. Qed.

Lemma after_get (Q : St -> St -> trace -> Prop) E st h :
  Q st st h -> after get Q E st h.
Proof. exact id. Qed.

Lemma after_ask {A} (answer : trace -> A) ev (Q : A -> St -> trace -> Prop) E st h :
  Q (answer h) st (h ++ [ev (answer h)]) -> after (ask answer ev) Q E st h.
Proof. exact id. Qed.

Lemma after_emit ev (Q : unit -> St -> trace -> Prop) E st h :
  Q tt st (h ++ [ev]) -> after (emit ev) Q E st h.
Proof. exact id. Qed.

Lemma after_out_of_fuel {A} (Q : A -> St -> trace -> Prop) E st h :
  E st h -> after out_of_fuel Q E st h.
Proof. exact id. Qed.

Lemma after_panic {A} (Q : A -> St -> trace -> Prop) E st h :
  E st h -> after panic Q E st h.
Proof. exact id. Qed.

Lemma after_mono {A} (m : M St A) (Q Q' : A -> St -> trace -> Prop) E E' st h :
  after m Q E st h ->
  (forall a st' h', Q a st' h' -> Q' a st' h') ->
  (forall st' h', E st' h' -> E' st' h') ->
  after m Q' E' st h.
Proof. unfold after. destruct (m st h); auto. Qed.

Lemma after_done {A} (m : M St A) Q E st h a st' h' :
  after m Q E st h -> m st h = Done a st' h' -> Q a st' h'.
Proof. unfold after. intros H Heq. now rewrite Heq in H. Qed.

Lemma after_final {A} (m : M St A) (R : St -> trace -> Prop) st h :
  after m (fun _ => R) R st h -> R (final_state (m st h)) (final_trace (m st h)).
Proof. unfold after. destruct (m st h); exact id. Qed.

End AfterRules.

Lemma after_zoom {St Big A} (proj : Big -> St) upd (m : M St A)
    (Q : A -> Big -> trace -> Prop) (E : Big -> trace -> Prop) big h :
  after m (fun a st' h' => Q a (upd st' big) h') (fun st' h' => E (upd st' big) h')
    (proj big) h ->
  after (zoom proj upd m) Q E big h.
Proof. unfold after, zoom. destruct (m (proj big) h); exact id. Qed.

(** ** Histories *)

Lemma count_app p h1 h2 : count p (h1 ++ h2) = (count p h1 + count p h2)%nat.
Proof. induction h1 as [|e h1 IH]; simpl; [reflexivity|]. destruct (p e); simpl; now rewrite IH. Qed.

Lemma read_deadline_of_app s h1 h2 cur :
  read_deadline_of s (h1 ++ h2) cur = read_deadline_of s h2 (read_deadline_of s h1 cur).
Proof.
  revert cur. induction h1 as [|e h1 IH]; intros cur; [reflexivity|].
  destruct e; simpl; try apply IH. destruct err; apply IH.
Qed.

Lemma write_deadline_of_app s h1 h2 cur :
  write_deadline_of s (h1 ++ h2) cur = write_deadline_of s h2 (write_deadline_of s h1 cur).
Proof.
  revert cur. induction h1 as [|e h1 IH]; intros cur; [reflexivity|].
  destruct e; simpl; try apply IH. destruct err; apply IH.
Qed.

(** ** dialer.go: the reusable connection *)


Lemma after_modify {St} (f : St -> St) (Q : unit -> St -> trace -> Prop) E st h :
  Q tt (f st) h -> after (modify f) Q E st h.
Proof. exact id. Qed.

Lemma after_the_conn (Q : sock -> ReusableConn -> trace -> Prop) E self h :
  (forall s, conn self = Some s -> Q s self h) ->
  (conn self = None -> E self h) ->
  after the_conn Q E self h.
Proof. unfold after, the_conn. destruct (conn self); auto. Qed.

Lemma after_locked {A} (body : M ReusableConn A) (Q : A -> ReusableConn -> trace -> Prop) E self h :
  (lock self = true -> E self h) ->
  (lock self = false ->
   after body (fun a self' h' => Q a (set_lock false self') h')
              (fun self' h' => E (set_lock false self') h' /\ E self' h')
              (set_lock true self) h) ->
  after (locked body) Q E self h.
Proof.
  unfold after, locked. destruct (lock self); [auto|]. intros _ H.
  specialize (H eq_refl). destruct (body (set_lock true self) h); tauto.
Qed.

Ltac step :=
  lazymatch goal with
  | |- after (bind _ _) _ _ _ _ => apply after_bind
  | |- after (ret _) _ _ _ _ => apply after_ret
  | |- after get _ _ _ _ => apply after_get
  | |- after (ask _ _) _ _ _ _ => apply after_ask
  | |- after (emit _) _ _ _ _ => apply after_emit
  | |- after (modify _) _ _ _ _ => apply after_modify
  | |- after out_of_fuel _ _ _ _ => apply after_out_of_fuel
  | |- after panic _ _ _ _ => apply after_panic
  | |- after the_conn _ _ _ _ => apply after_the_conn; [intros ? ?|intros ?]
  end; cbv beta.

Lemma unlock_lock self : lock self = false -> set_lock false (set_lock true self) = self.
Proof. destruct self; simpl; intros ->; reflexivity. Qed.

Lemma locked_free {A} (body : M ReusableConn A) self h :
  lock self = false ->
  locked body self h =
    match body (set_lock true self) h with
    | Done a self' h' => Done a (set_lock false self') h'
    | Panicked self' h' => Panicked (set_lock false self') h'
    | Blocked self' h' => Blocked self' h'
    | OutOfFuel self' h' => OutOfFuel self' h'
    end.
Proof. unfold locked. now intros ->. Qed.

(** With a live socket, [dial] returns nil at once. *)
Lemma dial_live env fuel self h s :
  conn self = Some s -> dial env (S fuel) self h = Done None self h.
Proof. intros Hc. simpl. unfold bind, get. now rewrite Hc. Qed.

Lemma tidy_socket_event rd wd e : tidy rd wd e = true -> socket_event e = true.
Proof. unfold tidy. now intros [H _]%andb_prop. Qed.

Lemma dialing_steady self0 h0 self h : dialing self0 h0 self h -> steady self0 h0 self h.
Proof.
  intros (Hr & Hw & Hl & _ & ext & -> & Hext). repeat split; try assumption.
  exists ext. split; [reflexivity|]. rewrite forallb_forall in *.
  intros e He. eapply tidy_socket_event. now apply Hext.
Qed.

Lemma steady_refl self h : steady self h self h.
Proof. repeat split. exists []. now rewrite app_nil_r. Qed.

Lemma steady_event self0 h0 self h e :
  steady self0 h0 self h -> socket_event e = true -> steady self0 h0 self (h ++ [e]).
Proof.
  intros (Hr & Hw & Hl & ext & -> & Hext) He. repeat split; try assumption.
  exists (ext ++ [e]). rewrite app_assoc. split; [reflexivity|].
  rewrite forallb_app, Hext. simpl. now rewrite He.
Qed.

Lemma steady_fields self0 h0 self self' h :
  steady self0 h0 self h ->
  readDeadline self' = readDeadline self ->
  writeDeadline self' = writeDeadline self ->
  lock self' = lock self ->
  steady self0 h0 self' h.
Proof. intros (Hr & Hw & Hl & Hext) Hr' Hw' Hl'. repeat split; congruence. Qed.

Lemma dialing_refl self h : dialing self h self h.
Proof. repeat split; auto. exists []. now rewrite app_nil_r. Qed.

Lemma dialing_event self0 h0 self h e :
  dialing self0 h0 self h ->
  tidy (readDeadline self0) (writeDeadline self0) e = true ->
  dialing self0 h0 self (h ++ [e]).
Proof.
  intros (Hr & Hw & Hl & Hc & ext & -> & Hext) He. repeat split; try assumption.
  exists (ext ++ [e]). rewrite app_assoc. split; [reflexivity|].
  rewrite forallb_app, Hext. simpl. now rewrite He.
Qed.

Lemma dialing_fields self0 h0 self self' h :
  dialing self0 h0 self h ->
  readDeadline self' = readDeadline self ->
  writeDeadline self' = writeDeadline self ->
  lock self' = lock self ->
  (forall s, conn self = Some s -> conn self' = Some s) ->
  dialing self0 h0 self' h.
Proof.
  intros (Hr & Hw & Hl & Hc & Hext) Hr' Hw' Hl' Hc'.
  repeat split; try congruence; auto.
Qed.

Section DialDialing.

Variable env : Env.
Variable d : M ReusableConn (option error).
Hypothesis d_dialing :
  forall self0 h0 self h,
    dialing self0 h0 self h -> after d (fun _ => dialing self0 h0) (dialing self0 h0) self h.

(** The deadline setters as [dial] calls them: with the stored deadline,
    which is not zero.  When one returns nil, a socket is live and the
    last call recorded is the successful deadline call on that socket. *)
Lemma setReadDeadline_over_dialing self0 h0 self h :
  dialing self0 h0 self h ->
  IsZero (readDeadline self) = false ->
  after (setReadDeadline_over env d (readDeadline self))
    (fun err self' h' =>
       dialing self0 h0 self' h' /\
       (err = None -> exists s ext,
           conn self' = Some s /\ h' = h0 ++ ext /\
           In (ESetReadDeadline s (readDeadline self) None) ext))
    (dialing self0 h0) self h.
Proof.
  intros Hs Hz. unfold setReadDeadline_over. step.
  eapply after_mono; [apply (d_dialing _ _ _ _ Hs)| |auto].
  intros [e|] self1 h1 Hs1; cbv beta; [step; split; [assumption|discriminate]|].
  do 2 step; [|assumption]. do 2 step.
  assert (Hrd : readDeadline self = readDeadline self0) by apply Hs.
  assert (Hs2 : dialing self0 h0 self1
                  (h1 ++ [ESetReadDeadline s (readDeadline self)
                            (conn_SetReadDeadline env h1 s (readDeadline self))])).
  { apply dialing_event; [assumption|]. unfold tidy. simpl.
    rewrite <- Hrd, Hz, Z.eqb_refl. reflexivity. }
  destruct (conn_SetReadDeadline env h1 s (readDeadline self)); repeat step.
  - split; [assumption|discriminate].
  - split.
    + eapply dialing_fields; [exact Hs2| | | |]; try reflexivity; [|auto].
      simpl. destruct Hs1 as (-> & _). congruence.
    + intros _. destruct Hs1 as (_ & _ & _ & _ & ext1 & -> & _).
      exists s, (ext1 ++ [ESetReadDeadline s (readDeadline self) None]). rewrite app_assoc.
      repeat split; [assumption|]. apply in_or_app. right. now left.
Qed.

Lemma setWriteDeadline_over_dialing self0 h0 self h :
  dialing self0 h0 self h ->
  IsZero (writeDeadline self) = false ->
  after (setWriteDeadline_over env d (writeDeadline self))
    (fun err self' h' =>
       dialing self0 h0 self' h' /\
       (err = None -> exists s ext,
           conn self' = Some s /\ h' = h0 ++ ext /\
           In (ESetWriteDeadline s (writeDeadline self) None) ext))
    (dialing self0 h0) self h.
Proof.
  intros Hs Hz. unfold setWriteDeadline_over. step.
  eapply after_mono; [apply (d_dialing _ _ _ _ Hs)| |auto].
  intros [e|] self1 h1 Hs1; cbv beta; [step; split; [assumption|discriminate]|].
  do 2 step; [|assumption]. do 2 step.
  assert (Hwd : writeDeadline self = writeDeadline self0) by apply Hs.
  assert (Hs2 : dialing self0 h0 self1
                  (h1 ++ [ESetWriteDeadline s (writeDeadline self)
                            (conn_SetWriteDeadline env h1 s (writeDeadline self))])).
  { apply dialing_event; [assumption|]. unfold tidy. simpl.
    rewrite <- Hwd, Hz, Z.eqb_refl. reflexivity. }
  destruct (conn_SetWriteDeadline env h1 s (writeDeadline self)); repeat step.
  - split; [assumption|discriminate].
  - split.
    + eapply dialing_fields; [exact Hs2| | | |]; try reflexivity; [|auto].
      simpl. destruct Hs1 as (_ & -> & _). congruence.
    + intros _. destruct Hs1 as (_ & _ & _ & _ & ext1 & -> & _).
      exists s, (ext1 ++ [ESetWriteDeadline s (writeDeadline self) None]). rewrite app_assoc.
      repeat split; [assumption|]. apply in_or_app. right. now left.
Qed.

(** The part of [dial] that follows the call of the dialer. *)
Lemma reapply_dialing (err : option error) self0 h0 self h :
  dialing self0 h0 self h ->
  after
    (let* self := get in
     let* err :=
       (if is_nil err && negb (IsZero (readDeadline self))
        then setReadDeadline_over env d (readDeadline self)
        else ret err) in
     let* self := get in
     let* err :=
       (if is_nil err && negb (IsZero (writeDeadline self))
        then setWriteDeadline_over env d (writeDeadline self)
        else ret err) in
     ret err)
    (fun _ => dialing self0 h0) (dialing self0 h0) self h.
Proof.
  intros Hs1. do 3 step.
  eapply after_mono with (Q := fun _ => dialing self0 h0) (E := dialing self0 h0); [| |auto].
  { destruct (is_nil err && negb (IsZero (readDeadline self))) eqn:Hg.
    - apply andb_prop in Hg as [_ Hz]. apply negb_true_iff in Hz.
      eapply after_mono; [apply setReadDeadline_over_dialing; [exact Hs1|exact Hz]| |auto].
      now intros ? ? ? [? _].
    - now step. }
  intros err1 self2 h2 Hs2. cbv beta. do 3 step.
  eapply after_mono with (Q := fun _ => dialing self0 h0) (E := dialing self0 h0); [| |auto].
  { destruct (is_nil err1 && negb (IsZero (writeDeadline self2))) eqn:Hg.
    - apply andb_prop in Hg as [_ Hz]. apply negb_true_iff in Hz.
      eapply after_mono; [apply setWriteDeadline_over_dialing; [exact Hs2|exact Hz]| |auto].
      now intros ? ? ? [? _].
    - now step. }
  intros err2 self3 h3 Hs3. cbv beta. now step.
Qed.

End DialDialing.

Lemma dial_dialing env fuel :
  forall self0 h0 self h,
    dialing self0 h0 self h ->
    after (dial env fuel) (fun _ => dialing self0 h0) (dialing self0 h0) self h.
Proof.
  induction fuel as [|fuel IH]; intros self0 h0 self h Hs; simpl; [now step|].
  do 2 step. destruct (conn self) eqn:Hc; [now step|].
  do 2 step. destruct (dialer env h) as [c err]; simpl.
  do 2 step. apply (reapply_dialing env _ IH).
  eapply dialing_fields; [apply dialing_event; [exact Hs|reflexivity]| | | |];
    try reflexivity. simpl. congruence.
Qed.

(** Without a socket, the first thing [dial] does is call the dialer. *)
Lemma dial_calls_dialer env fuel self h :
  conn self = None ->
  exists tl,
    final_trace (dial env (S fuel) self h)
    = h ++ EDial (fst (dialer env h)) (snd (dialer env h)) :: tl.
Proof.
  intros Hc.
  apply (after_final (dial env (S fuel))
           (fun _ h' => exists tl,
                h' = h ++ EDial (fst (dialer env h)) (snd (dialer env h)) :: tl)).
  simpl. do 2 step. rewrite Hc. do 2 step.
  destruct (dialer env h) as [c err]; simpl. do 2 step.
  eapply after_mono;
    [apply (reapply_dialing env _ (dial_dialing env fuel) err
              (set_conn c self) (h ++ [EDial c err])), dialing_refl| |].
  - intros _ self' h' (_ & _ & _ & _ & ext & -> & _).
    exists ext. now rewrite <- app_assoc.
  - intros self' h' (_ & _ & _ & _ & ext & -> & _).
    exists ext. now rewrite <- app_assoc.
Qed.

Lemma steady_trans a ha b hb c hc :
  steady a ha b hb -> steady b hb c hc -> steady a ha c hc.
Proof.
  intros (Hr & Hw & Hl & e1 & -> & He1) (Hr' & Hw' & Hl' & e2 & -> & He2).
  repeat split; try congruence. exists (e1 ++ e2).
  rewrite app_assoc, forallb_app, He1, He2. now split.
Qed.

Lemma dial_steady env fuel self0 h0 self h :
  steady self0 h0 self h ->
  after (dial env fuel) (fun _ => steady self0 h0) (steady self0 h0) self h.
Proof.
  intros Hs.
  eapply after_mono; [exact (dial_dialing env fuel self h self h (dialing_refl _ _))| |];
    intros; (eapply steady_trans; [exact Hs|now apply dialing_steady]).
Qed.

(** Reading the deadline in force off a tidy history. *)
Lemma read_deadline_of_tidy rd wd s ext :
  forallb (tidy rd wd) ext = true ->
  (IsZero rd = false -> In (ESetReadDeadline s rd None) ext) ->
  forall cur, read_deadline_of s ext cur = if IsZero rd then cur else rd.
Proof.
  intros Ht Hin. destruct (IsZero rd) eqn:Hz.
  - clear Hin. induction ext as [|e ext IH]; intros cur; [reflexivity|].
    simpl in Ht. apply andb_prop in Ht as [He Ht]. specialize (IH Ht).
    destruct e; simpl; try apply IH.
    unfold tidy in He. simpl in He. rewrite Hz in He. simpl in He.
    now rewrite andb_false_r in He.
  - specialize (Hin eq_refl).
    assert (Hgen : forall cur, (cur = rd \/ In (ESetReadDeadline s rd None) ext) ->
                               read_deadline_of s ext cur = rd).
    { clear Hin. induction ext as [|e ext IH]; intros cur Hor.
      - destruct Hor as [->|[]]. reflexivity.
      - simpl in Ht. apply andb_prop in Ht as [He Ht]. specialize (IH Ht).
        destruct e; simpl;
          try (apply IH; destruct Hor as [->|[Hd|Hi]]; [now left|discriminate Hd|now right]).
        unfold tidy in He. simpl in He.
        apply andb_prop in He as [Het _]. apply Z.eqb_eq in Het. subst t.
        destruct err.
        + apply IH. destruct Hor as [->|[Hd|Hi]]; [now left|discriminate Hd|now right].
        + apply IH. destruct (Nat.eqb s s0) eqn:Hss; [now left|].
          destruct Hor as [->|[Hd|Hi]]; [now left| |now right].
          injection Hd as ->. now rewrite Nat.eqb_refl in Hss. }
    intros cur. apply Hgen. now right.
Qed.

Lemma write_deadline_of_tidy rd wd s ext :
  forallb (tidy rd wd) ext = true ->
  (IsZero wd = false -> In (ESetWriteDeadline s wd None) ext) ->
  forall cur, write_deadline_of s ext cur = if IsZero wd then cur else wd.
Proof.
  intros Ht Hin. destruct (IsZero wd) eqn:Hz.
  - clear Hin. induction ext as [|e ext IH]; intros cur; [reflexivity|].
    simpl in Ht. apply andb_prop in Ht as [He Ht]. specialize (IH Ht).
    destruct e; simpl; try apply IH.
    unfold tidy in He. simpl in He. rewrite Hz in He. simpl in He.
    now rewrite andb_false_r in He.
  - specialize (Hin eq_refl).
    assert (Hgen : forall cur, (cur = wd \/ In (ESetWriteDeadline s wd None) ext) ->
                               write_deadline_of s ext cur = wd).
    { clear Hin. induction ext as [|e ext IH]; intros cur Hor.
      - destruct Hor as [->|[]]. reflexivity.
      - simpl in Ht. apply andb_prop in Ht as [He Ht]. specialize (IH Ht).
        destruct e; simpl;
          try (apply IH; destruct Hor as [->|[Hd|Hi]]; [now left|discriminate Hd|now right]).
        unfold tidy in He. simpl in He.
        apply andb_prop in He as [Het _]. apply Z.eqb_eq in Het. subst t.
        destruct err.
        + apply IH. destruct Hor as [->|[Hd|Hi]]; [now left|discriminate Hd|now right].
        + apply IH. destruct (Nat.eqb s s0) eqn:Hss; [now left|].
          destruct Hor as [->|[Hd|Hi]]; [now left| |now right].
          injection Hd as ->. now rewrite Nat.eqb_refl in Hss. }
    intros cur. apply Hgen. now right.
Qed.

Lemma after_conj {St A} (m : M St A) (Q1 Q2 : A -> St -> trace -> Prop) E1 E2 st h :
  after m Q1 E1 st h -> after m Q2 E2 st h ->
  after m (fun a st' h' => Q1 a st' h' /\ Q2 a st' h')
          (fun st' h' => E1 st' h' /\ E2 st' h') st h.
Proof. unfold after. destruct (m st h); auto. Qed.

(** A [dial] that starts without a socket, returns nil and leaves a socket
    [s] has made the successful deadline calls on [s] for the stored
    deadlines that are not zero, and no other deadline call. *)
Lemma dial_reapplies env fuel self h :
  conn self = None ->
  after (dial env fuel)
    (fun err self' h' =>
       err = None -> forall s, conn self' = Some s ->
       exists ext, h' = h ++ ext /\
         forallb (tidy (readDeadline self) (writeDeadline self)) ext = true /\
         (IsZero (readDeadline self) = false ->
          In (ESetReadDeadline s (readDeadline self) None) ext) /\
         (IsZero (writeDeadline self) = false ->
          In (ESetWriteDeadline s (writeDeadline self) None) ext))
    anyhow self h.
Proof.
  intros Hc. destruct fuel as [|fuel]; simpl; [now step|].
  do 2 step. rewrite Hc. do 2 step. destruct (dialer env h) as [c err]; simpl.
  assert (Hs1 : dialing self h (set_conn c self) (h ++ [EDial c err])).
  { eapply dialing_fields; [apply dialing_event; [apply dialing_refl|reflexivity]| | | |];
      try reflexivity. simpl. congruence. }
  do 5 step.
  eapply after_mono with
    (Q := fun err1 self2 h2 =>
            dialing self h self2 h2 /\
            (err1 = None -> err = None /\
               (IsZero (readDeadline self) = false ->
                exists s ext, conn self2 = Some s /\ h2 = h ++ ext /\
                  In (ESetReadDeadline s (readDeadline self) None) ext)))
    (E := anyhow); [| |auto].
  { destruct err as [e|]; simpl.
    - step. split; [assumption|discriminate].
    - destruct (IsZero (readDeadline self)) eqn:Hz; simpl.
      + step. split; [assumption|]. intros _. split; [reflexivity|discriminate].
      + eapply after_mono;
          [apply (setReadDeadline_over_dialing env _ (dial_dialing env fuel)
                    self h (set_conn c self)); [exact Hs1|exact Hz]| |now auto].
        intros err1 self2 h2 [Hd Hok]. split; [exact Hd|].
        intros ->. split; [reflexivity|]. intros _. now apply Hok. }
  intros err1 self2 h2 [Hs2 Hr]. cbv beta. do 3 step.
  assert (Hwd2 : writeDeadline self2 = writeDeadline self) by apply Hs2.
  eapply after_mono with
    (Q := fun err2 self3 h3 =>
            (dialing self h self3 h3 /\ dialing self2 h2 self3 h3) /\
            (err2 = None -> err1 = None /\
               (IsZero (writeDeadline self) = false ->
                exists s ext, conn self3 = Some s /\ h3 = h ++ ext /\
                  In (ESetWriteDeadline s (writeDeadline self) None) ext)))
    (E := anyhow); [| |auto].
  { destruct err1 as [e|]; simpl.
    - step. split; [split; [assumption|apply dialing_refl]|discriminate].
    - rewrite Hwd2. destruct (IsZero (writeDeadline self)) eqn:Hz; simpl.
      + step. split; [split; [assumption|apply dialing_refl]|].
        intros _. split; [reflexivity|discriminate].
      + rewrite <- Hwd2 in Hz |- *.
        eapply after_mono;
          [apply after_conj;
             [apply (setWriteDeadline_over_dialing env _ (dial_dialing env fuel)
                       self h self2); [exact Hs2|exact Hz]
             |apply (setWriteDeadline_over_dialing env _ (dial_dialing env fuel)
                       self2 h2 self2); [apply dialing_refl|exact Hz]]
          | |now auto].
        intros err2 self3 h3 [[Hd Hok] [Hd2 _]]. split; [split; assumption|].
        intros ->. split; [reflexivity|]. intros _. now apply Hok. }
  intros err2 self3 h3 [[Hs3 Hs23] Hw]. cbv beta. step.
  intros -> s Hcs. destruct (Hw eq_refl) as [-> Hwin]. destruct (Hr eq_refl) as [_ Hrin].
  destruct Hs3 as (_ & _ & _ & _ & EXT & -> & Htidy).
  exists EXT. repeat split; [assumption| |].
  - intros Hz. destruct (Hrin Hz) as (s' & extR & Hcs' & -> & Hin).
    destruct Hs23 as (_ & _ & _ & Hkeep & extW & Heq & _).
    rewrite (Hkeep _ Hcs') in Hcs. injection Hcs as ->.
    rewrite <- app_assoc in Heq. apply app_inv_head in Heq. subst EXT.
    apply in_or_app. now left.
  - intros Hz. destruct (Hwin Hz) as (s' & extW & Hcs' & Heq & Hin).
    rewrite Hcs' in Hcs. injection Hcs as ->.
    apply app_inv_head in Heq. now subst EXT.
Qed.

(** The public methods, as far as returning calls are concerned. *)
Lemma after_locked_done {A} (body : M ReusableConn A)
    (Q : A -> ReusableConn -> trace -> Prop) self h :
  (lock self = false ->
   after body (fun a self' h' => Q a (set_lock false self') h') anyhow
     (set_lock true self) h) ->
  after (locked body) Q anyhow self h.
Proof.
  intros H. apply after_locked; [easy|]. intros Hl.
  eapply after_mono; [exact (H Hl)|auto|easy].
Qed.

Lemma close_steady env self0 h0 self h :
  steady self0 h0 self h ->
  after (close env) (fun _ => steady self0 h0) (steady self0 h0) self h.
Proof.
  intros Hs. unfold close. do 2 step. destruct (conn self); [|now step].
  do 4 step. step. eapply steady_fields; [apply steady_event; [exact Hs|]| | |]; reflexivity.
Qed.

Lemma read_steady env fuel buf self0 h0 self h :
  steady self0 h0 self h ->
  after (read env fuel buf) (fun _ => steady self0 h0) (steady self0 h0) self h.
Proof.
  intros Hs. unfold read. step.
  eapply after_mono; [exact (dial_steady env fuel _ _ _ _ Hs)| |auto].
  intros [e|] self1 h1 Hs1; cbv beta; [now step|].
  do 2 step; [|assumption]. do 2 step.
  destruct (conn_Read env h1 s buf) as [[n out] err]; simpl.
  assert (Hs2 : steady self0 h0 self1 (h1 ++ [EConnRead s buf n out err]))
    by now apply steady_event.
  destruct err; [|now step]. step.
  eapply after_mono; [exact (close_steady env _ _ _ _ Hs2)| |auto].
  intros; now step.
Qed.

Lemma write_steady env fuel data self0 h0 self h :
  steady self0 h0 self h ->
  after (write env fuel data) (fun _ => steady self0 h0) (steady self0 h0) self h.
Proof.
  intros Hs. unfold write. step.
  eapply after_mono; [exact (dial_steady env fuel _ _ _ _ Hs)| |auto].
  intros [e|] self1 h1 Hs1; cbv beta; [now step|].
  do 2 step; [|assumption]. do 2 step.
  destruct (conn_Write env h1 s data) as [n err]; simpl.
  assert (Hs2 : steady self0 h0 self1 (h1 ++ [EConnWrite s data n err]))
    by now apply steady_event.
  destruct err; [|now step]. step.
  eapply after_mono; [exact (close_steady env _ _ _ _ Hs2)| |auto].
  intros; now step.
Qed.

(** A deadline setter stores its argument exactly when it returns nil, and
    leaves the other deadline alone. *)
Lemma setReadDeadline_stores env fuel t self h :
  after (setReadDeadline env fuel t)
    (fun err self' _ =>
       readDeadline self' = match err with Some _ => readDeadline self | None => t end /\
       writeDeadline self' = writeDeadline self /\ lock self' = lock self)
    anyhow self h.
Proof.
  unfold setReadDeadline, setReadDeadline_over. step.
  eapply after_mono; [exact (dial_steady env fuel _ _ _ _ (steady_refl self h))| |easy].
  intros [e|] self1 h1 (Hr & Hw & Hl & _); cbv beta; [now step|].
  do 2 step; [|easy]. do 2 step.
  destruct (conn_SetReadDeadline env h1 s t); repeat step; simpl; auto.
Qed.

Lemma setWriteDeadline_stores env fuel t self h :
  after (setWriteDeadline env fuel t)
    (fun err self' _ =>
       writeDeadline self' = match err with Some _ => writeDeadline self | None => t end /\
       readDeadline self' = readDeadline self /\ lock self' = lock self)
    anyhow self h.
Proof.
  unfold setWriteDeadline, setWriteDeadline_over. step.
  eapply after_mono; [exact (dial_steady env fuel _ _ _ _ (steady_refl self h))| |easy].
  intros [e|] self1 h1 (Hr & Hw & Hl & _); cbv beta; [now step|].
  do 2 step; [|easy]. do 2 step.
  destruct (conn_SetWriteDeadline env h1 s t); repeat step; simpl; auto.
Qed.

Lemma stored_set_lock k b self : stored k (set_lock b self) = stored k self.
Proof. now destruct k. Qed.

Lemma steady_stored k self0 h0 self h :
  steady self0 h0 self h -> stored k self = stored k self0.
Proof. intros (Hr & Hw & _). now destruct k. Qed.

(** Every call other than a setter of the deadline of kind [k] leaves the
    stored deadline of that kind as it was. *)
Lemma run_op_keeps k env fuel o self h :
  keeps k o = true ->
  after (run_op env fuel o) (fun _ self' _ => stored k self' = stored k self) anyhow self h.
Proof.
  assert (Hlk : forall A (body : M ReusableConn A),
             (forall st, after body (fun _ => steady st h) (steady st h) st h) ->
             after (locked body ;;; ret tt)
               (fun _ self' _ => stored k self' = stored k self) anyhow self h).
  { intros A body Hb. step. apply after_locked_done. intros _.
    eapply after_mono; [apply Hb| |easy].
    intros a self' h' Hs. cbv beta. step.
    now rewrite stored_set_lock, (steady_stored k _ _ _ _ Hs), stored_set_lock. }
  intros Hk. destruct o; cbn [run_op].
  - apply Hlk. intros st. apply dial_steady, steady_refl.
  - apply Hlk. intros st. apply close_steady, steady_refl.
  - apply Hlk. intros st. apply read_steady, steady_refl.
  - apply Hlk. intros st. apply write_steady, steady_refl.
  - apply Hlk. intros st. do 2 step. destruct (conn st); step; [|apply steady_refl].
    apply steady_event; [apply steady_refl|reflexivity].
  - apply Hlk. intros st. do 2 step. destruct (conn st); step; [|apply steady_refl].
    apply steady_event; [apply steady_refl|reflexivity].
  - destruct k; [discriminate|]. step. apply after_locked_done. intros _.
    eapply after_mono; [apply setReadDeadline_stores| |easy].
    intros a self' h' (_ & Hw & _). cbv beta. step. simpl in *. congruence.
  - destruct k; [|discriminate]. step. apply after_locked_done. intros _.
    eapply after_mono; [apply setWriteDeadline_stores| |easy].
    intros a self' h' (_ & Hr & _). cbv beta. step. simpl in *. congruence.
  - now destruct k.
Qed.

Lemma run_ops_keeps k env fuel os :
  forallb (keeps k) os = true ->
  forall self h,
    after (run_ops env fuel os) (fun _ self' _ => stored k self' = stored k self)
      anyhow self h.
Proof.
  induction os as [|o os IH]; intros Hk self h; cbn [run_ops]; [now step|].
  simpl in Hk. apply andb_prop in Hk as [Ho Hos]. step.
  eapply after_mono; [exact (run_op_keeps k env fuel o self h Ho)| |easy].
  intros u1 self1 h1 H1. cbv beta.
  eapply after_mono; [exact (IH Hos self1 h1)| |easy].
  intros u2 self2 h2 H2. cbv beta. congruence.
Qed.

Lemma SetDeadlineOf_stores k env fuel t self h self1 h1 :
  SetDeadlineOf k env fuel t self h = Done None self1 h1 -> stored k self1 = t.
Proof.
  intros Hrun. destruct k; cbn [SetDeadlineOf] in Hrun.
  - refine (after_done _ (fun err self' _ => err = None -> stored ReadDeadline self' = t)
              anyhow _ _ _ _ _ _ Hrun eq_refl).
    apply after_locked_done. intros _.
    eapply after_mono; [apply setReadDeadline_stores| |easy].
    intros err self' h' (Hr & _) ->. exact Hr.
  - refine (after_done _ (fun err self' _ => err = None -> stored WriteDeadline self' = t)
              anyhow _ _ _ _ _ _ Hrun eq_refl).
    apply after_locked_done. intros _.
    eapply after_mono; [apply setWriteDeadline_stores| |easy].
    intros err self' h' (Hw & _) ->. exact Hw.
Qed.

Lemma IsZero_zero (t : time) : IsZero t = true -> t = 0.
Proof. unfold IsZero. now intros H%Z.eqb_eq. Qed.

(** C4.  Once the caller has set a read (or write) deadline [t] with
    success, then after any further calls that do not set that deadline
    again, every [dial] that starts without a socket, returns nil and
    leaves a socket [s] has that deadline in force on [s] by the time it
    returns, and still stores it.  [dial] is what every public method runs
    first, holding the lock ([b]); the calls in between may be reads and
    writes that fail and discard the socket.  For the zero time, which
    stands for no deadline, [dial] makes no call: the socket is then as the
    dialer made it, without a deadline. *)
Theorem deadline_survives_redial k env fuel t os b self h self1 h1 self2 h2 self3 h3 s :
  SetDeadlineOf k env fuel t self h = Done None self1 h1 ->
  forallb (keeps k) os = true ->
  run_ops env fuel os self1 h1 = Done tt self2 h2 ->
  conn self2 = None ->
  dial env fuel (set_lock b self2) h2 = Done None self3 h3 ->
  conn self3 = Some s ->
  (IsZero t = true -> deadline_of k s h2 = 0) ->
  stored k self3 = t /\ deadline_of k s h3 = t.
Proof.
  intros Hset Hkeep Hops Hnil Hdial Hlive Hfresh.
  assert (H1 : stored k self1 = t) by exact (SetDeadlineOf_stores _ _ _ _ _ _ _ _ Hset).
  assert (H2 : stored k self2 = t).
  { rewrite <- H1.
    exact (after_done _ _ _ _ _ _ _ _ (run_ops_keeps k env fuel os Hkeep self1 h1) Hops). }
  assert (H2b : stored k (set_lock b self2) = t) by now rewrite stored_set_lock.
  split.
  - rewrite <- H2b.
    assert (Hd := after_done _ _ _ _ _ _ _ _
                    (dial_dialing env fuel _ _ _ _ (dialing_refl (set_lock b self2) h2)) Hdial).
    destruct Hd as (Hr & Hw & _). now destruct k.
  - assert (Hre := after_done _ _ _ _ _ _ _ _
                     (dial_reapplies env fuel (set_lock b self2) h2 Hnil) Hdial eq_refl s Hlive).
    destruct Hre as (ext & -> & Htidy & Hrin & Hwin).
    destruct k; cbn [deadline_of stored] in *.
    + rewrite read_deadline_of_app, (read_deadline_of_tidy _ _ s ext Htidy Hrin), H2b.
      destruct (IsZero t) eqn:Hz; [|reflexivity].
      rewrite (Hfresh eq_refl). symmetry. now apply IsZero_zero.
    + rewrite write_deadline_of_app, (write_deadline_of_tidy _ _ s ext Htidy Hwin), H2b.
      destruct (IsZero t) eqn:Hz; [|reflexivity].
      rewrite (Hfresh eq_refl). symmetry. now apply IsZero_zero.
Qed.

(** ** Calls that are sure to return *)

Lemma after_never {St A} (m : M St A) Q st h :
  after m Q never st h -> exists a st' h', m st h = Done a st' h' /\ Q a st' h'.
Proof. unfold after. destruct (m st h); try easy. intros HQ. eauto. Qed.

Lemma after_equal {St A} (m : M St A) a st' h' st h :
  after m (fun a0 st0 h0 => a0 = a /\ st0 = st' /\ h0 = h') never st h ->
  m st h = Done a st' h'.
Proof. intros (a0 & st0 & h0 & -> & -> & -> & ->)%after_never. reflexivity. Qed.

Lemma after_known {St A} (m : M St A) Q E st h a st' h' :
  m st h = Done a st' h' -> Q a st' h' -> after m Q E st h.
Proof. intros Heq HQ. unfold after. now rewrite Heq. Qed.

Lemma after_dial_live env fuel (Q : option error -> ReusableConn -> trace -> Prop) E self h s :
  conn self = Some s -> Q None self h -> after (dial env (S fuel)) Q E self h.
Proof. intros Hc HQ. unfold after. now rewrite (dial_live env fuel self h s Hc). Qed.

Lemma after_locked_sure {A} (body : M ReusableConn A)
    (Q : A -> ReusableConn -> trace -> Prop) self h :
  lock self = false ->
  after body (fun a self' h' => Q a (set_lock false self') h') never (set_lock true self) h ->
  after (locked body) Q never self h.
Proof.
  intros Hl H. apply after_locked; [congruence|]. intros _.
  eapply after_mono; [exact H|auto|easy].
Qed.

Lemma after_the_conn_live (Q : sock -> ReusableConn -> trace -> Prop) E self h s :
  conn self = Some s -> Q s self h -> after the_conn Q E self h.
Proof. intros Hc HQ. unfold after, the_conn. now rewrite Hc. Qed.

(** When the dialer hands out a socket [s], [dial] returns, with [s]
    stored, and has called the dialer once. *)
Lemma dial_with_socket env fuel self h s err0 :
  conn self = None ->
  dialer env h = (Some s, err0) ->
  after (dial env (S (S fuel)))
    (fun _ self1 h1 =>
       conn self1 = Some s /\ lock self1 = lock self /\
       count is_dial h1 = S (count is_dial h))
    never self h.
Proof.
  intros Hc Hd. remember (S fuel) as n eqn:Hn0. cbn [dial]. subst n.
  do 2 step. rewrite Hc. do 2 step. rewrite Hd. cbn [fst snd]. do 5 step.
  cbn [readDeadline set_conn].
  assert (Hn : count is_dial (h ++ [EDial (Some s) err0]) = S (count is_dial h)).
  { rewrite count_app. simpl. lia. }
  revert Hn. generalize (h ++ [EDial (Some s) err0]). intros h1 Hn.
  assert (Hw : forall err1 self2 h2,
             conn self2 = Some s -> lock self2 = lock self ->
             count is_dial h2 = S (count is_dial h) ->
             after
               (let* self := get in
                let* err :=
                  (if is_nil err1 && negb (IsZero (writeDeadline self))
                   then setWriteDeadline_over env (dial env (S fuel)) (writeDeadline self)
                   else ret err1) in
                ret err)
               (fun _ self1 h1 =>
                  conn self1 = Some s /\ lock self1 = lock self /\
                  count is_dial h1 = S (count is_dial h)) never self2 h2).
  { intros err1 self2 h2 Hc2 Hl2 Hn2. do 3 step.
    destruct (is_nil err1 && negb (IsZero (writeDeadline self2))); [|now repeat step].
    unfold setWriteDeadline_over. step.
    eapply after_dial_live; [exact Hc2|]. cbv beta.
    step. eapply after_the_conn_live; [exact Hc2|]. cbv beta. do 2 step.
    assert (Hn3 : forall e, count is_dial (h2 ++ [ESetWriteDeadline s (writeDeadline self2) e])
                            = S (count is_dial h)).
    { intros e. rewrite count_app. simpl. lia. }
    destruct (conn_SetWriteDeadline env h2 s (writeDeadline self2)); repeat step; auto. }
  destruct (is_nil err0 && negb (IsZero (readDeadline self))).
  - unfold setReadDeadline_over. step.
    eapply after_dial_live; [reflexivity|]. cbv beta.
    step. eapply after_the_conn_live; [reflexivity|]. cbv beta. do 2 step.
    assert (Hn3 : forall e, count is_dial (h1 ++ [ESetReadDeadline s (readDeadline self) e])
                            = S (count is_dial h)).
    { intros e. rewrite count_app. simpl. lia. }
    destruct (conn_SetReadDeadline env h1 s (readDeadline self)).
    + step. first [apply Hw; now auto | now auto].
    + do 3 step. first [apply Hw; now auto | now auto].
  - step. first [apply Hw; now auto | now auto].
Qed.

(** [dial] returns, unless the dialer answers with neither a socket nor
    an error. *)
Lemma dial_returns env fuel self h :
  (fst (dialer env h) = None -> snd (dialer env h) <> None) ->
  exists err self' h', dial env (S (S fuel)) self h = Done err self' h'.
Proof.
  intros Hd. destruct (conn self) as [s|] eqn:Hc.
  { rewrite (dial_live env (S fuel) self h s Hc). eauto. }
  destruct (dialer env h) as [[s|] err0] eqn:Hdial.
  - destruct (after_never _ _ _ _ (dial_with_socket env fuel self h s err0 Hc Hdial))
      as (err & self' & h' & Hrun & _). eauto.
  - destruct err0 as [e|]; [|now destruct (Hd eq_refl)].
    eexists _, _, _. remember (S fuel) as n. cbn [dial].
    unfold bind at 1. unfold get at 1. rewrite Hc.
    unfold bind at 1. unfold ask at 1. rewrite Hdial. cbn [fst snd].
    reflexivity.
Qed.

(** C6.  [Dial] is idempotent.  On a connection that holds a live socket
    it returns nil and changes neither the connection nor the history, so
    the dialer is not called.  And when the dialer hands out a socket, two
    [Dial] calls in a row call the dialer exactly once between them: the
    second finds the socket the first one stored. *)
Theorem Dial_idempotent env fuel self h :
  lock self = false ->
  (forall s, conn self = Some s ->
     Dial env (S fuel) self h = Done None self h) /\
  (forall s, conn self = None -> fst (dialer env h) = Some s ->
     exists err self1 h1,
       Dial env (S (S fuel)) self h = Done err self1 h1 /\
       conn self1 = Some s /\
       Dial env (S (S fuel)) self1 h1 = Done None self1 h1 /\
       count is_dial h1 = S (count is_dial h)).
Proof.
  intros Hl.
  assert (Hlive : forall n self1 h1 s, lock self1 = false -> conn self1 = Some s ->
             Dial env (S n) self1 h1 = Done None self1 h1).
  { intros n self1 h1 s Hl1 Hc1. unfold Dial. rewrite (locked_free _ _ _ Hl1).
    rewrite (dial_live env n _ h1 s) by exact Hc1. now rewrite unlock_lock. }
  split; [intros s Hc; now apply (Hlive fuel self h s)|].
  intros s Hc Hd. destruct (dialer env h) as [c err0] eqn:Hdial. simpl in Hd. subst c.
  cut (after (Dial env (S (S fuel)))
         (fun _ self1 h1 => lock self1 = false /\ conn self1 = Some s /\
                            count is_dial h1 = S (count is_dial h)) never self h).
  { intros (err & self1 & h1 & Hrun & Hl1 & Hc1 & Hn)%after_never.
    exists err, self1, h1. eauto. }
  unfold Dial. apply after_locked_sure; [exact Hl|].
  eapply after_mono;
    [apply (dial_with_socket env fuel (set_lock true self) h s err0 Hc Hdial)| |easy].
  intros err self1 h1 (Hc1 & _ & Hn). cbv beta. auto.
Qed.

(** C9.  [Close] on a connection without a live socket returns nil, calls
    nothing and changes nothing.  After any [Close] no socket is live, so a
    second [Close] right after it returns nil. *)
Theorem Close_of_closed env self h :
  lock self = false ->
  (conn self = None -> Close env self h = Done None self h) /\
  (exists err self1 h1,
     Close env self h = Done err self1 h1 /\
     conn self1 = None /\
     Close env self1 h1 = Done None self1 h1).
Proof.
  intros Hl.
  assert (Hnone : forall st k, lock st = false -> conn st = None ->
             Close env st k = Done None st k).
  { intros st k Hlk Hc. unfold Close. rewrite (locked_free _ _ _ Hlk).
    unfold close, bind, get. cbn [conn set_lock]. rewrite Hc.
    unfold ret. now rewrite unlock_lock. }
  split; [now apply Hnone|].
  unfold Close at 1. rewrite (locked_free _ _ _ Hl).
  unfold close, bind, get. cbn [conn set_lock].
  destruct (conn self) as [s|] eqn:Hc.
  - unfold ask, modify, ret. cbn.
    eexists _, _, _. split; [reflexivity|]. split; [reflexivity|].
    now apply Hnone.
  - unfold ret. rewrite unlock_lock by exact Hl.
    exists None, self, h. repeat split; [exact Hc|]. now apply Hnone.
Qed.

(** C10.  [LocalAddr] returns what [RemoteAddr] returns: with a live
    socket, the answer of the socket's [RemoteAddr] method (its
    [LocalAddr] method is never called); without one, nil, and the dialer
    is not called. *)
Theorem LocalAddr_is_RemoteAddr env self h :
  lock self = false ->
  LocalAddr env self h = RemoteAddr env self h /\
  (forall s, conn self = Some s ->
     LocalAddr env self h
     = Done (conn_RemoteAddr env h s) self (h ++ [ERemoteAddr s (conn_RemoteAddr env h s)])) /\
  (conn self = None -> LocalAddr env self h = Done None self h).
Proof.
  intros Hl. split; [reflexivity|].
  unfold LocalAddr. rewrite (locked_free _ _ _ Hl).
  unfold bind, get. cbn [conn set_lock]. split.
  - intros s ->. unfold ask. now rewrite unlock_lock.
  - intros ->. unfold ret. now rewrite unlock_lock.
Qed.

(** [read] after a successful [dial], when the call on the socket fails. *)
Lemma read_discards_on_error env fuel self h self1 h1 s buf n out e :
  dial env fuel self h = Done None self1 h1 ->
  conn self1 = Some s ->
  conn_Read env h1 s buf = (n, out, Some e) ->
  let h2 := h1 ++ [EConnRead s buf n out (Some e)] in
  read env fuel buf self h
  = Done (n, out, Some e) (set_conn None self1)
      (h2 ++ [EConnClose s (conn_Close env h2 s)]).
Proof.
  intros Hdial Hc Hread h2. apply after_equal. unfold read. step.
  eapply after_known; [exact Hdial|]. cbv beta iota.
  step. eapply after_the_conn_live; [exact Hc|]. cbv beta. do 2 step.
  rewrite Hread. cbn [fst snd]. step. unfold close. do 2 step. rewrite Hc.
  repeat step. auto.
Qed.

Lemma write_discards_on_error env fuel self h self1 h1 s data n e :
  dial env fuel self h = Done None self1 h1 ->
  conn self1 = Some s ->
  conn_Write env h1 s data = (n, Some e) ->
  let h2 := h1 ++ [EConnWrite s data n (Some e)] in
  write env fuel data self h
  = Done (n, Some e) (set_conn None self1)
      (h2 ++ [EConnClose s (conn_Close env h2 s)]).
Proof.
  intros Hdial Hc Hwrite h2. apply after_equal. unfold write. step.
  eapply after_known; [exact Hdial|]. cbv beta iota.
  step. eapply after_the_conn_live; [exact Hc|]. cbv beta. do 2 step.
  rewrite Hwrite. cbn [fst snd]. step. unfold close. do 2 step. rewrite Hc.
  repeat step. auto.
Qed.

(** C5.  A [Read] or [Write] whose [dial] (run under the lock) succeeded
    and whose call on the live socket [s] returns an error makes that one
    call on [s], closes [s], clears the stored socket and returns what the
    failed call returned, error included.  From the state it leaves, the
    next [Dial] starts by calling the dialer. *)
Theorem failed_io_discards_socket env fuel self h self1 h1 s :
  lock self = false ->
  dial env fuel (set_lock true self) h = Done None self1 h1 ->
  conn self1 = Some s ->
  let closed := set_lock false (set_conn None self1) in
  (forall buf n out e,
     conn_Read env h1 s buf = (n, out, Some e) ->
     let h2 := h1 ++ [EConnRead s buf n out (Some e)] in
     Read env fuel buf self h
     = Done (n, out, Some e) closed (h2 ++ [EConnClose s (conn_Close env h2 s)])) /\
  (forall data n e,
     conn_Write env h1 s data = (n, Some e) ->
     let h2 := h1 ++ [EConnWrite s data n (Some e)] in
     Write env fuel data self h
     = Done (n, Some e) closed (h2 ++ [EConnClose s (conn_Close env h2 s)])) /\
  conn closed = None /\
  (forall fuel' h',
     exists tl,
       final_trace (Dial env (S fuel') closed h')
       = h' ++ EDial (fst (dialer env h')) (snd (dialer env h')) :: tl).
Proof.
  intros Hl Hdial Hc closed. repeat split.
  - intros buf n out e Hread h2. unfold Read. rewrite (locked_free _ _ _ Hl).
    now rewrite (read_discards_on_error env fuel _ h self1 h1 s buf n out e Hdial Hc Hread).
  - intros data n e Hwrite h2. unfold Write. rewrite (locked_free _ _ _ Hl).
    now rewrite (write_discards_on_error env fuel _ h self1 h1 s data n e Hdial Hc Hwrite).
  - intros fuel' h'. unfold Dial. rewrite locked_free by reflexivity.
    destruct (dial_calls_dialer env fuel' (set_lock true closed) h' eq_refl) as [tl Htl].
    exists tl. rewrite <- Htl. now destruct (dial env (S fuel') (set_lock true closed) h').
Qed.

(** C7.  When the dialer hands out a socket [s] and putting a stored
    deadline back on [s] fails, [dial] returns the error of that deadline
    call, and [s] stays stored: a [dial] right after it returns nil
    without calling anything.  First the read deadline fails; then the
    write deadline fails, the read deadline being zero or put back with
    success. *)
Theorem dial_keeps_socket_when_reapply_fails env fuel self h s :
  conn self = None ->
  dialer env h = (Some s, None) ->
  let h0 := h ++ [EDial (Some s) None] in
  let live := set_conn (Some s) self in
  (forall e,
     IsZero (readDeadline self) = false ->
     conn_SetReadDeadline env h0 s (readDeadline self) = Some e ->
     let h1 := h0 ++ [ESetReadDeadline s (readDeadline self) (Some e)] in
     dial env (S (S fuel)) self h = Done (Some e) live h1 /\
     dial env (S (S fuel)) live h1 = Done None live h1) /\
  (forall e h1,
     (IsZero (readDeadline self) = true /\ h1 = h0 \/
      IsZero (readDeadline self) = false /\
      conn_SetReadDeadline env h0 s (readDeadline self) = None /\
      h1 = h0 ++ [ESetReadDeadline s (readDeadline self) None]) ->
     IsZero (writeDeadline self) = false ->
     conn_SetWriteDeadline env h1 s (writeDeadline self) = Some e ->
     let h2 := h1 ++ [ESetWriteDeadline s (writeDeadline self) (Some e)] in
     dial env (S (S fuel)) self h = Done (Some e) live h2 /\
     dial env (S (S fuel)) live h2 = Done None live h2).
Proof.
  intros Hc Hd h0 live.
  assert (Hlive : forall k, dial env (S (S fuel)) live k = Done None live k)
    by (intros k; now apply (dial_live env (S fuel) live k s)).
  split.
  - intros e Hz Hfail h1. split; [|apply Hlive].
    apply after_equal. remember (S fuel) as n eqn:Hn. cbn [dial]. subst n.
    do 2 step. rewrite Hc. do 2 step. rewrite Hd. cbn [fst snd]. do 5 step.
    cbn [readDeadline set_conn is_nil]. rewrite Hz. cbn [negb andb].
    unfold setReadDeadline_over. step. eapply after_dial_live; [reflexivity|].
    cbv beta iota. step. eapply after_the_conn_live; [reflexivity|]. cbv beta.
    do 2 step. fold h0. rewrite Hfail. step. do 3 step. cbn [is_nil andb]. repeat step.
    auto.
  - intros e h1 Hread Hz Hfail h2. split; [|apply Hlive].
    apply after_equal. remember (S fuel) as n eqn:Hn. cbn [dial]. subst n.
    do 2 step. rewrite Hc. do 2 step. rewrite Hd. cbn [fst snd]. do 5 step.
    cbn [readDeadline set_conn is_nil].
    assert (Hw : after
                   (let* self0 := get in
                    let* err :=
                      (if is_nil (@None error) && negb (IsZero (writeDeadline self0))
                       then setWriteDeadline_over env (dial env (S fuel)) (writeDeadline self0)
                       else ret None) in
                    ret err)
                   (fun a0 st0 k0 => a0 = Some e /\ st0 = live /\ k0 = h2) never live h1).
    { do 3 step. cbn [writeDeadline live set_conn is_nil]. rewrite Hz. cbn [negb andb].
      unfold setWriteDeadline_over. step. eapply after_dial_live; [reflexivity|].
      cbv beta iota. step. eapply after_the_conn_live; [reflexivity|]. cbv beta.
      do 2 step. rewrite Hfail. repeat step. auto. }
    destruct Hread as [[Hrz ->]|(Hrz & Hok & ->)]; rewrite Hrz; cbn [negb andb].
    + step. exact Hw.
    + unfold setReadDeadline_over. step. eapply after_dial_live; [reflexivity|].
      cbv beta iota. step. eapply after_the_conn_live; [reflexivity|]. cbv beta.
      do 2 step. fold h0. rewrite Hok. do 3 step. exact Hw.
Qed.

(** ** The request pipe *)

Lemma grows_refl h : grows h h.
Proof. exists []. now rewrite app_nil_r. Qed.

Lemma grows_trans h0 h1 h2 : grows h0 h1 -> grows h1 h2 -> grows h0 h2.
Proof.
  intros (e1 & -> & He1) (e2 & -> & He2). exists (e1 ++ e2).
  now rewrite app_assoc, forallb_app, He1, He2.
Qed.

Lemma steady_grows self0 h0 self h : steady self0 h0 self h -> grows h0 h.
Proof. now intros (_ & _ & _ & Hext). Qed.

Lemma locked_grows {A} (body : M ReusableConn A) self h :
  (forall st, after body (fun _ => steady st h) (steady st h) st h) ->
  after (locked body) (fun _ _ h' => grows h h') (fun _ h' => grows h h') self h.
Proof.
  intros Hb. apply after_locked; [intros _; apply grows_refl|]. intros _.
  eapply after_mono; [apply Hb| |]; cbv beta; intros; eauto using steady_grows.
Qed.

Lemma run_io_grows env {A} fuel (p : Pipe.io A) :
  forall self h,
    after (Pipe.run_io env fuel p) (fun _ _ h' => grows h h') (fun _ h' => grows h h') self h.
Proof.
  induction p as [a|data k IH|buf k IH]; intros self h; cbn [Pipe.run_io].
  - step. apply grows_refl.
  - step. eapply after_mono;
      [apply (locked_grows (write env fuel data)); intros; apply write_steady, steady_refl| |auto].
    intros r self1 h1 Hg. cbv beta in Hg |- *.
    eapply after_mono; [apply IH| |]; cbv beta; intros; eauto using grows_trans.
  - step. eapply after_mono;
      [apply (locked_grows (read env fuel buf)); intros; apply read_steady, steady_refl| |auto].
    intros r self1 h1 Hg. cbv beta in Hg |- *.
    eapply after_mono; [apply IH| |]; cbv beta; intros; eauto using grows_trans.
Qed.

Lemma count_socket_events p ext :
  (forall e, socket_event e = true -> p e = false) ->
  forallb socket_event ext = true -> count p ext = O.
Proof.
  intros Hp. induction ext as [|e ext IH]; [reflexivity|]. simpl.
  intros [He Hext]%andb_prop. now rewrite (Hp e He), IH.
Qed.

Lemma socket_event_not_new e : socket_event e = true -> is_new_client e = false.
Proof. now destruct e. Qed.

Lemma socket_event_not_client_write e : socket_event e = true -> is_client_write e = false.
Proof. now destruct e. Qed.

Lemma adds_trans p h0 h1 h2 : adds p h0 h1 -> adds p h1 h2 -> adds p h0 h2.
Proof.
  intros (e1 & -> & He1) (e2 & -> & He2). exists (e1 ++ e2).
  now rewrite app_assoc, count_app, He1, He2.
Qed.

Lemma adds_event p h0 h e : adds p h0 h -> p e = false -> adds p h0 (h ++ [e]).
Proof.
  intros (e1 & -> & He1) He. exists (e1 ++ [e]).
  rewrite app_assoc, count_app, He1. simpl. now rewrite He.
Qed.

Lemma grows_adds p h0 h :
  (forall e, socket_event e = true -> p e = false) -> grows h0 h -> adds p h0 h.
Proof. intros Hp (ext & -> & Hext). exists ext. eauto using count_socket_events. Qed.

Lemma adds_count p h0 h : adds p h0 h -> count p h = count p h0.
Proof. intros (ext & -> & Hext). rewrite count_app, Hext. lia. Qed.

Section PipeFacts.

Variable env : Env.
Variable ClientConn : Type.
Variable NewClientConn : ClientConn.
Variable client_Write : ClientConn -> Request -> Pipe.io (ClientConn * option error).
Variable client_Read :
  ClientConn -> Request -> Pipe.io (ClientConn * (option Response * option error)).
Variable Encode : Values -> string.

Local Abbreviation Conn := (Pipe.Conn ClientConn).
Local Abbreviation pipe_dial := (Pipe.dial env ClientConn NewClientConn).
Local Abbreviation c_Write := (Pipe.c_Write env ClientConn client_Write).
Local Abbreviation c_Read := (Pipe.c_Read env ClientConn client_Read).
Local Abbreviation pipe_Request :=
  (Pipe.Request env ClientConn NewClientConn client_Write client_Read Encode).

Lemma after_the_client (Q : ClientConn -> Conn -> trace -> Prop) E (self : Conn) h cc :
  Pipe.c self = Some cc -> Q cc self h -> after (Pipe.the_client ClientConn) Q E self h.
Proof. intros Hc HQ. unfold after, Pipe.the_client. now rewrite Hc. Qed.

(** With a handle, [dial] of the pipe returns nil and does nothing. *)
Lemma pipe_dial_with_handle fuel (self : Conn) h cc :
  Pipe.c self = Some cc -> pipe_dial fuel self h = Done None self h.
Proof. intros Hc. unfold Pipe.dial, bind, get. now rewrite Hc. Qed.

(** When it returns nil, there is a handle. *)
Lemma pipe_dial_builds fuel (self : Conn) h self1 h1 :
  pipe_dial fuel self h = Done None self1 h1 -> exists cc, Pipe.c self1 = Some cc.
Proof.
  intros Hrun.
  refine (after_done _ (fun err self1 _ => err = None -> exists cc, Pipe.c self1 = Some cc)
            anyhow _ _ _ _ _ _ Hrun eq_refl).
  unfold Pipe.dial. do 2 step. destruct (Pipe.c self) eqn:Hc; [step; eauto|].
  step. apply after_zoom. eapply after_mono with (Q := fun _ _ _ => True) (E := anyhow).
  - unfold after. now destruct (Dial env fuel (Pipe.uc self) h).
  - intros [e|] st' h' _; cbv beta; repeat step; [discriminate|]. simpl. eauto.
  - easy.
Qed.

(** What the library does through [uc] leaves the handle field alone and
    adds socket events only. *)
Lemma on_uc_io p {A} fuel (prog : Pipe.io A) (self : Conn) h :
  (forall e, socket_event e = true -> p e = false) ->
  after (Pipe.on_uc ClientConn (Pipe.run_io env fuel prog))
    (fun _ self' h' => Pipe.c self' = Pipe.c self /\ adds p h h')
    (fun self' h' => Pipe.c self' = Pipe.c self /\ adds p h h') self h.
Proof.
  intros Hp. apply after_zoom.
  eapply after_mono; [apply run_io_grows| |]; cbv beta; intros;
    (split; [reflexivity|now apply grows_adds]).
Qed.

(** [Request] from the point where [dial] has returned nil. *)
Lemma Request_after_dial p fuel req (self1 : Conn) h1 cc :
  (forall e, socket_event e = true -> p e = false) ->
  (forall r, p (EClientRead r) = false) ->
  Pipe.c self1 = Some cc ->
  after
    (let* err := c_Write fuel req in
     match err with
     | None => let* (resp, err) := c_Read fuel req in ret (req, resp, err)
     | Some e => ret (req, None, Some e)
     end)
    (fun r self' h' =>
       fst (fst r) = req /\ is_Some (Pipe.c self') /\
       adds p (h1 ++ [EClientWrite req]) h')
    (fun self' h' => is_Some (Pipe.c self') /\ adds p (h1 ++ [EClientWrite req]) h')
    self1 h1.
Proof.
  intros Hp Hr Hc. step. unfold Pipe.c_Write. step.
  eapply after_the_client; [exact Hc|]. cbv beta. do 3 step.
  eapply after_mono; [apply (on_uc_io p); exact Hp| |].
  2:{ intros st' h' [Hc' Ha]. rewrite Hc', Hc. eauto. }
  intros [cc' err] self2 h2 [Hc2 Ha2]. cbv beta iota. do 3 step.
  destruct err as [e|].
  { step. cbn. eauto. }
  unfold Pipe.c_Read. do 2 step.
  eapply after_the_client; [reflexivity|]. cbv beta. do 3 step.
  assert (Ha3 : adds p (h1 ++ [EClientWrite req]) (h2 ++ [EClientRead req]))
    by now apply adds_event.
  eapply after_mono; [apply (on_uc_io p); exact Hp| |].
  2:{ intros st' h' [Hc' Ha]. rewrite Hc'. cbn. eauto using adds_trans. }
  intros [cc'' [resp err]] self3 h3 [Hc3 Ha4]. cbv beta iota. do 4 step.
  cbn. eauto using adds_trans.
Qed.

End PipeFacts.

Section PipeClaims.

Variable env : Env.
Variable ClientConn : Type.
Variable NewClientConn : ClientConn.
Variable client_Write : ClientConn -> Request -> Pipe.io (ClientConn * option error).
Variable client_Read :
  ClientConn -> Request -> Pipe.io (ClientConn * (option Response * option error)).
Variable Encode : Values -> string.

Local Abbreviation pipe_dial := (Pipe.dial env ClientConn NewClientConn).
Local Abbreviation pipe_Request :=
  (Pipe.Request env ClientConn NewClientConn client_Write client_Read Encode).

(** C8.  For a request with parameter data (a non-nil [Form]), once
    [dial] has returned nil, the request that [Request] hands to the
    protocol layer, and the only one it hands over, has the encoded data
    appended to its query, after an [&] exactly when the query was not
    empty, and a nil [Form]; the request object is left in that form. *)
Theorem Request_merges_form fuel req form self h self1 h1 :
  pipe_dial fuel self h = Done None self1 h1 ->
  Form req = Some form ->
  let u := ReqURL req in
  let merged :=
    mkRequest (Method req)
      (mkURL (Scheme u) (Host u) (Path u)
         (if String.eqb (RawQuery u) "" then Encode form
          else (RawQuery u +:+ "&") +:+ Encode form))
      None in
  let o := pipe_Request fuel req self h in
  (exists tl, final_trace o = h1 ++ EClientWrite merged :: tl /\
              count is_client_write tl = O) /\
  (forall r, returned o = Some r -> fst (fst r) = merged).
Proof.
  intros Hdial Hform u merged o.
  destruct (pipe_dial_builds _ _ _ _ _ _ _ _ Hdial) as [cc Hcc].
  assert (Hm : Pipe.merge_form Encode req = merged).
  { unfold Pipe.merge_form, merged, u. rewrite Hform.
    destruct (String.eqb_spec (RawQuery (ReqURL req)) "") as [Hq|Hq]; [|reflexivity].
    now rewrite Hq. }
  assert (Hafter :
    after (pipe_Request fuel req)
      (fun r _ h' => fst (fst r) = merged /\
                     adds is_client_write (h1 ++ [EClientWrite merged]) h')
      (fun _ h' => adds is_client_write (h1 ++ [EClientWrite merged]) h') self h).
  { unfold Pipe.Request. step. eapply after_known; [exact Hdial|]. cbv beta iota.
    rewrite Hm.
    eapply after_mono;
      [apply (Request_after_dial env ClientConn client_Write client_Read
                is_client_write fuel merged self1 h1 cc);
         [exact socket_event_not_client_write|reflexivity|exact Hcc]| |];
      cbv beta; tauto. }
  unfold after in Hafter. fold o in Hafter.
  assert (Hsplit : forall h', adds is_client_write (h1 ++ [EClientWrite merged]) h' ->
             exists tl, h' = h1 ++ EClientWrite merged :: tl /\ count is_client_write tl = O).
  { intros h' (ext & -> & Hext). exists ext. now rewrite <- app_assoc. }
  destruct o; cbn [final_trace returned]; (split; [now apply Hsplit, Hafter|]);
    try discriminate.
  intros r [= <-]. apply Hafter.
Qed.

(** C3, as the code has it.  The pipe never clears its handle: from a
    state with a handle, [dial] of the pipe returns nil without doing
    anything, and however a [Request] ends, there still is a handle and
    no new one has been built, whether or not the socket below was
    discarded on the way. *)
Theorem handle_is_kept fuel req self h cc :
  Pipe.c self = Some cc ->
  let o := pipe_Request fuel req self h in
  pipe_dial fuel self h = Done None self h /\
  is_Some (Pipe.c (final_state o)) /\
  count is_new_client (final_trace o) = count is_new_client h.
Proof.
  intros Hc o. split; [exact (pipe_dial_with_handle _ _ _ _ _ _ _ Hc)|].
  assert (Hafter :
    after (pipe_Request fuel req)
      (fun _ self' h' => is_Some (Pipe.c self') /\ count is_new_client h' = count is_new_client h)
      (fun self' h' => is_Some (Pipe.c self') /\ count is_new_client h' = count is_new_client h)
      self h).
  { unfold Pipe.Request. step.
    eapply after_known; [exact (pipe_dial_with_handle _ _ _ _ _ _ _ Hc)|]. cbv beta iota.
    assert (Hw : count is_new_client (h ++ [EClientWrite (Pipe.merge_form Encode req)])
                 = count is_new_client h).
    { rewrite count_app. simpl. lia. }
    eapply after_mono;
      [apply (Request_after_dial env ClientConn client_Write client_Read
                is_new_client fuel (Pipe.merge_form Encode req) self h cc);
         [exact socket_event_not_new|reflexivity|exact Hc]| |];
      cbv beta; intros; (split; [tauto|]);
      rewrite <- Hw; apply adds_count; tauto. }
  unfold after in Hafter. fold o in Hafter. destruct o; exact Hafter.
Qed.

End PipeClaims.

(** ** sdb/domain.go: the paginated Select *)

Lemma lookup_page_params vl tok :
  page_params vl tok !! "NextToken" = cursor_param tok.
Proof.
  unfold page_params, cursor_param, Values_Set, Values_Del.
  destruct (String.eqb tok ""); simpl.
  - apply lookup_delete_eq.
  - apply lookup_insert_eq.
Qed.

Section SelectFacts.

Variable Item : Type.
Variable World : Type.
Variable NewRequest : URL -> string -> Values -> Request.
Variable SignRequestV2 :
  Request -> Values -> M World (Request * Values * option error).
Variable conn_Request :
  Request -> Values -> M World (option Response * option error * Values).
Variable DecodeSelect : string -> SDB.selectresponse Item * option error.
Variable self : SDB.Domain.

Local Abbreviation Run := (SDB.Run Item World).
Local Abbreviation Select_body :=
  (SDB.Select_body Item World NewRequest SignRequestV2 conn_Request DecodeSelect self).
Local Abbreviation Select_loop :=
  (SDB.Select_loop Item World NewRequest SignRequestV2 conn_Request DecodeSelect self).
Local Abbreviation Select :=
  (SDB.Select Item World NewRequest SignRequestV2 conn_Request DecodeSelect self).
Local Abbreviation serves :=
  (serves Item World NewRequest SignRequestV2 conn_Request DecodeSelect self).

Lemma send_all_queue (xs : list Item) (r : Run) h :
  SDB.send_all Item World xs r h
  = Done tt (SDB.mkRun (SDB.world r) (SDB.built r) (SDB.sent r) (SDB.queue r ++ xs)) h.
Proof.
  revert r. induction xs as [|x xs IH]; intros r; cbn [SDB.send_all].
  - unfold ret. rewrite app_nil_r. now destruct r.
  - unfold bind, SDB.send at 1. rewrite IH. cbn. now rewrite <- app_assoc.
Qed.

(** One pass of the loop against a service that answers with page [p]. *)
Lemma Select_body_page (l : SDB.locals) (r : Run) h req vl1 w1 h1 resp vl2 w2 h2 p :
  let vl0 := page_params (SDB.l_vl l) (SDB.l_nextToken l) in
  SignRequestV2 (NewRequest (SDB.DomainURL self) "GET" vl0) vl0 (SDB.world r) h
  = Done (req, vl1, None) w1 h1 ->
  conn_Request req vl1 w1 h1 = Done (Some resp, None, vl2) w2 h2 ->
  DecodeSelect (Body resp) = (p, None) ->
  Select_body l r h
  = Done (SDB.mkLocals vl2 None (String.eqb (SDB.NextToken p) "") (SDB.NextToken p))
      (SDB.mkRun w2 (SDB.built r ++ [vl0]) (SDB.sent r ++ [req])
         (SDB.queue r ++ SDB.Items p))
      h2.
Proof.
  intros vl0 Hsign Hreq Hdec. subst vl0. unfold page_params in *.
  unfold SDB.Select_body. cbv zeta in *.
  unfold bind at 1. unfold SDB.note_built at 1.
  unfold bind at 1. unfold SDB.in_world at 1, zoom at 1. cbn [SDB.world].
  rewrite Hsign. cbv beta iota.
  unfold bind at 1. unfold SDB.note_sent at 1.
  unfold bind at 1. unfold SDB.in_world at 1, zoom at 1. cbn [SDB.world].
  rewrite Hreq. cbv beta iota.
  unfold bind at 1. unfold SDB.the_resp at 1, ret at 1.
  rewrite Hdec. unfold bind at 1. rewrite send_all_queue. reflexivity.
Qed.

Lemma Select_loop_step fuel (l : SDB.locals) :
  SDB.l_err l = None -> SDB.l_done l = false ->
  Select_loop (S fuel) l = (let* l' := Select_body l in Select_loop fuel l').
Proof. intros He Hd. cbn [SDB.Select_loop]. now rewrite He, Hd. Qed.

Lemma Select_loop_exit fuel (l : SDB.locals) :
  SDB.l_done l = true -> Select_loop fuel l = ret (SDB.l_err l).
Proof.
  intros Hd. destruct fuel; cbn [SDB.Select_loop]; rewrite Hd;
    now rewrite andb_false_r.
Qed.

(** The loop against a service that answers with the pages [init] and
    then [last], the only one with an empty cursor. *)
Lemma Select_loop_pages init last :
  Forall (fun p => SDB.NextToken p <> "") init ->
  SDB.NextToken last = "" ->
  forall fuel (l : SDB.locals) (r : Run) h,
    SDB.l_err l = None -> SDB.l_done l = false ->
    serves (init ++ [last]) (SDB.l_vl l) (SDB.l_nextToken l) (SDB.world r) h ->
    (length init < fuel)%nat ->
    exists r' h',
      Select_loop fuel l r h = Done None r' h' /\
      SDB.queue r' = SDB.queue r ++ concat (map SDB.Items (init ++ [last])) /\
      length (SDB.sent r') = (length (SDB.sent r) + S (length init))%nat /\
      map (fun vl : Values => vl !! "NextToken") (SDB.built r')
      = map (fun vl : Values => vl !! "NextToken") (SDB.built r)
        ++ cursor_param (SDB.l_nextToken l)
           :: map (fun p => Some [SDB.NextToken p]) init.
Proof.
  intros Hinit Hlast. induction Hinit as [|p init Hp Hinit IH];
    intros fuel l r h He Hd Hserves Hfuel;
    (destruct fuel as [|fuel]; [simpl in Hfuel; lia|]);
    cbn [app serves] in Hserves;
    destruct Hserves as (req & vl1 & w1 & h1 & resp & vl2 & w2 & h2
                         & Hsign & Hreq & Hdec & Hrest);
    rewrite (Select_loop_step fuel l He Hd); unfold bind;
    rewrite (Select_body_page l r h _ _ _ _ _ _ _ _ _ Hsign Hreq Hdec).
  - rewrite Select_loop_exit by (cbn; now rewrite Hlast).
    eexists _, _. split; [reflexivity|].
    cbn [SDB.queue SDB.sent SDB.built SDB.l_err map concat app length].
    rewrite app_nil_r, length_app, map_app. cbn [map length].
    rewrite lookup_page_params.
    repeat split; lia.
  - apply String.eqb_neq in Hp.
    destruct (IH fuel
                (SDB.mkLocals vl2 None (String.eqb (SDB.NextToken p) "") (SDB.NextToken p))
                (SDB.mkRun w2 (SDB.built r ++ [page_params (SDB.l_vl l) (SDB.l_nextToken l)])
                   (SDB.sent r ++ [req]) (SDB.queue r ++ SDB.Items p))
                h2 eq_refl Hp Hrest ltac:(simpl in Hfuel; lia))
      as (r' & h' & Hrun & Hq & Hs & Hb).
    exists r', h'. split; [exact Hrun|].
    cbn [SDB.queue SDB.sent SDB.built SDB.l_nextToken] in Hq, Hs, Hb.
    rewrite Hq, Hs, Hb. repeat split.
    + now rewrite <- app_assoc.
    + rewrite length_app. cbn [length]. lia.
    + rewrite (map_app _ (SDB.built r)). cbn [map].
      rewrite lookup_page_params, <- app_assoc. cbn [app].
      unfold cursor_param at 2. now rewrite Hp.
Qed.

End SelectFacts.

Section SelectClaims.

Variable Item : Type.
Variable World : Type.
Variable NewRequest : URL -> string -> Values -> Request.
Variable SignRequestV2 :
  Request -> Values -> M World (Request * Values * option error).
Variable conn_Request :
  Request -> Values -> M World (option Response * option error * Values).
Variable DecodeSelect : string -> SDB.selectresponse Item * option error.
Variable self : SDB.Domain.

Local Abbreviation Select :=
  (SDB.Select Item World NewRequest SignRequestV2 conn_Request DecodeSelect self).
Local Abbreviation serves :=
  (serves Item World NewRequest SignRequestV2 conn_Request DecodeSelect self).

(** C1.  Against a service that answers the query with N pages of which
    only the last has an empty cursor, [Select] returns nil after exactly
    N requests; it has sent every item of every page, in the order of the
    pages and of the items within each page; the first request carries no
    cursor and each later one the cursor of the page before it.  No
    request follows the page with the empty cursor. *)
Theorem Select_delivers_every_page init last what where_ consist fuel w q h :
  Forall (fun p => SDB.NextToken p <> "") init ->
  SDB.NextToken last = "" ->
  serves (init ++ [last]) (SDB.Select_params self what where_ consist) "" w h ->
  (length init < fuel)%nat ->
  exists r' h',
    Select fuel what where_ consist (SDB.mkRun w [] [] q) h = Done None r' h' /\
    SDB.queue r' = q ++ concat (map SDB.Items (init ++ [last])) /\
    length (SDB.sent r') = length (init ++ [last]) /\
    map (fun vl : Values => vl !! "NextToken") (SDB.built r')
    = None :: map (fun p => Some [SDB.NextToken p]) init.
Proof.
  intros Hinit Hlast Hserves Hfuel. unfold SDB.Select.
  destruct (Select_loop_pages Item World NewRequest SignRequestV2 conn_Request
              DecodeSelect self init last Hinit Hlast fuel
              (SDB.mkLocals (SDB.Select_params self what where_ consist) None false "")
              (SDB.mkRun w [] [] q) h eq_refl eq_refl Hserves Hfuel)
    as (r' & h' & Hrun & Hq & Hs & Hb).
  exists r', h'. rewrite length_app. cbn in Hs, Hb |- *.
  repeat split; try assumption. lia.
Qed.

(** [Select] never looks at the status code of a response. *)
Lemma Select_body_status_blind (f : Z -> Z) l r h :
  SDB.Select_body Item World NewRequest SignRequestV2 (restatus f conn_Request)
    DecodeSelect self l r h
  = SDB.Select_body Item World NewRequest SignRequestV2 conn_Request
      DecodeSelect self l r h.
Proof.
  unfold SDB.Select_body, bind, SDB.note_built, SDB.note_sent, SDB.in_world, zoom,
    restatus. cbn [SDB.world].
  destruct (SignRequestV2 _ _ _ _) as [[[req vl] [e|]] w1 h1| | |]; try reflexivity.
  cbn [SDB.world SDB.built SDB.sent SDB.queue].
  destruct (conn_Request req vl w1 h1) as [[[resp e] vl'] w' h'| | |]; try reflexivity.
  destruct e; [reflexivity|]. destruct resp as [resp|]; reflexivity.
Qed.

Lemma Select_status_blind (f : Z -> Z) fuel what where_ consist r h :
  SDB.Select Item World NewRequest SignRequestV2 (restatus f conn_Request)
    DecodeSelect self fuel what where_ consist r h
  = Select fuel what where_ consist r h.
Proof.
  unfold SDB.Select. generalize (SDB.mkLocals (SDB.Select_params self what where_ consist)
                                   None false "").
  revert r h. induction fuel as [|fuel IH]; intros r h l; cbn [SDB.Select_loop];
    [reflexivity|].
  destruct (is_nil (SDB.l_err l) && negb (SDB.l_done l)); [|reflexivity].
  unfold bind. rewrite Select_body_status_blind.
  destruct (SDB.Select_body _ _ _ _ _ _ _ _ _ _); try reflexivity. apply IH.
Qed.

End SelectClaims.

Section AttributeFacts.

Variable Item : Type.
Variable Attribute : Type.
Variable AttributeList : Type.
Variable ATTRIBUTE_LIST_Values : AttributeList -> Values.
Variable EXPECTED_LIST_Values : AttributeList -> Values.
Variable World : Type.
Variable NewRequest : URL -> string -> Values -> Request.
Variable SignRequestV2 :
  Request -> Values -> M World (Request * Values * option error).
Variable conn_Request :
  Request -> Values -> M World (option Response * option error * Values).
Variable CodeToError : Z -> option error.
Variable self : SDB.Domain.

(** The attribute calls do map the status of the response to an error. *)
Lemma signed_call_maps_status vl (r : SDB.Run Item World) h req vl1 w1 h1 resp vl2 w2 h2 :
  SignRequestV2 (NewRequest (SDB.DomainURL self) "GET" vl) vl (SDB.world r) h
  = Done (req, vl1, None) w1 h1 ->
  conn_Request req vl1 w1 h1 = Done (Some resp, None, vl2) w2 h2 ->
  returned (SDB.signed_call Item World NewRequest SignRequestV2 conn_Request CodeToError
              self vl r h)
  = Some (Some resp, CodeToError (StatusCode resp)).
Proof.
  intros Hsign Hreq.
  unfold SDB.signed_call, bind, SDB.note_built, SDB.note_sent, SDB.in_world, zoom.
  cbn [SDB.world]. rewrite Hsign. cbn [SDB.world]. rewrite Hreq. reflexivity.
Qed.

Lemma DeleteAttribute_maps_status item attrs expected (r : SDB.Run Item World) h
    req vl1 w1 h1 resp vl2 w2 h2 :
  let vl :=
    Values_Set "ItemName" item
      (Values_Set "DomainName" (SDB.Name self)
         (Values_Set "Action" "DeleteAttribute"
            (EXPECTED_LIST_Values expected ∪ ATTRIBUTE_LIST_Values attrs))) in
  SignRequestV2 (NewRequest (SDB.DomainURL self) "GET" vl) vl (SDB.world r) h
  = Done (req, vl1, None) w1 h1 ->
  conn_Request req vl1 w1 h1 = Done (Some resp, None, vl2) w2 h2 ->
  returned (SDB.DeleteAttribute Item AttributeList ATTRIBUTE_LIST_Values
              EXPECTED_LIST_Values World NewRequest SignRequestV2 conn_Request
              CodeToError self item attrs expected r h)
  = Some (CodeToError (StatusCode resp)).
Proof.
  intros vl Hsign Hreq.
  pose proof (signed_call_maps_status vl r h _ _ _ _ _ _ _ _ Hsign Hreq) as Hcall.
  unfold SDB.DeleteAttribute. fold vl. unfold bind.
  destruct (SDB.signed_call _ _ _ _ _ _ _ _ _ _) as [[resp' err] r' h'| | |];
    cbn in Hcall |- *; try discriminate.
  now injection Hcall as _ ->.
Qed.

End AttributeFacts.

(** C2, where the code departs from the specification: [Select] does not
    check the status of a response.  Three pages, the second with status
    500: [Select] goes on to the third request, sends the items of all
    three pages and returns nil.  When the body that comes with the
    failure status holds no items and no cursor, [Select] stops after the
    second request and returns nil, not an error.  [GetAttribute], given a
    response with that status, returns the error the status maps to. *)
Theorem Select_skips_status_check :
  let o := Mock.Select 3 (Mock.start Mock.second_fails) [] in
  let o' := Mock.Select 3 (Mock.start Mock.second_is_error_document) [] in
  (returned o = Some None /\
   SDB.queue (final_state o) = ["apple"; "banana"; "cherry"; "damson"; "elder"] /\
   length (SDB.sent (final_state o)) = 3%nat) /\
  (returned o' = Some None /\
   SDB.queue (final_state o') = ["apple"; "banana"] /\
   length (SDB.sent (final_state o')) = 2%nat) /\
  returned (Mock.GetAttribute (Mock.start [(Some (mkResponse 500 "page2"), None)]) [])
  = Some ([], Some "service error").
Proof. vm_compute. auto. Qed.

(** * The claims at concrete inputs *)

(** A live socket 0, and a fresh connection on a dialer that works. *)
Lemma Dial_idempotent_witness :
  Dial Mock.env_ok 1 (Mock.live 0%nat) [] = Done None (Mock.live 0%nat) [] /\
  exists err self1 h1,
    Dial Mock.env_ok 2 NewReusableConnection [] = Done err self1 h1 /\
    conn self1 = Some 0%nat /\
    Dial Mock.env_ok 2 self1 h1 = Done None self1 h1 /\
    count is_dial h1 = 1%nat.
Proof.
  split.
  - exact (proj1 (Dial_idempotent Mock.env_ok 0 (Mock.live 0%nat) [] eq_refl) 0%nat eq_refl).
  - exact (proj2 (Dial_idempotent Mock.env_ok 0 NewReusableConnection [] eq_refl)
             0%nat eq_refl eq_refl).
Defined.

(** A fresh connection, and one with socket 0 live, closed twice. *)
Lemma Close_of_closed_witness :
  Close Mock.env_ok NewReusableConnection [] = Done None NewReusableConnection [] /\
  exists err self1 h1,
    Close Mock.env_ok (Mock.live 0%nat) [] = Done err self1 h1 /\
    conn self1 = None /\
    Close Mock.env_ok self1 h1 = Done None self1 h1.
Proof.
  split.
  - exact (proj1 (Close_of_closed Mock.env_ok NewReusableConnection [] eq_refl) eq_refl).
  - exact (proj2 (Close_of_closed Mock.env_ok (Mock.live 0%nat) [] eq_refl)).
Defined.

(** The mock socket has different local and remote addresses; and a
    connection whose dialer is down is not dialed. *)
Lemma LocalAddr_is_RemoteAddr_witness :
  conn_LocalAddr Mock.env_ok [] 0%nat = Some "192.0.2.1:49152" /\
  LocalAddr Mock.env_ok (Mock.live 0%nat) []
  = Done (Some "203.0.113.7:80") (Mock.live 0%nat) [ERemoteAddr 0%nat (Some "203.0.113.7:80")] /\
  LocalAddr Mock.env_down NewReusableConnection [] = Done None NewReusableConnection [].
Proof.
  split; [reflexivity|]. split.
  - exact (proj1 (proj2 (LocalAddr_is_RemoteAddr Mock.env_ok (Mock.live 0%nat) [] eq_refl))
             0%nat eq_refl).
  - exact (proj2 (proj2 (LocalAddr_is_RemoteAddr Mock.env_down NewReusableConnection []
                           eq_refl)) eq_refl).
Defined.

(** Socket 0 fails reads and writes. *)
Lemma failed_io_discards_socket_witness :
  let env := Mock.env_with [0%nat] [0%nat] [] [] in
  Read env 1 [] (Mock.live 0%nat) []
  = Done (0, [], Some "read: connection reset by peer") NewReusableConnection
      [EConnRead 0%nat [] 0 [] (Some "read: connection reset by peer");
       EConnClose 0%nat None] /\
  Write env 1 [] (Mock.live 0%nat) []
  = Done (0, Some "write: broken pipe") NewReusableConnection
      [EConnWrite 0%nat [] 0 (Some "write: broken pipe"); EConnClose 0%nat None] /\
  exists tl, final_trace (Dial env 1 NewReusableConnection []) = EDial (Some 0%nat) None :: tl.
Proof.
  intros env.
  pose proof (failed_io_discards_socket env 1 (Mock.live 0%nat) []
                (set_lock true (Mock.live 0%nat)) [] 0%nat eq_refl eq_refl eq_refl)
    as (Hr & Hw & _ & Hd).
  split; [exact (Hr [] 0 [] _ eq_refl)|].
  split; [exact (Hw [] 0 _ eq_refl)|].
  exact (Hd 0%nat []).
Defined.

(** Deadlines 5 and 7 stored; socket 0 refuses the read deadline, then
    (on another dialer) the write deadline. *)
Lemma dial_keeps_socket_when_reapply_fails_witness :
  dial (Mock.env_with [] [] [0%nat] []) 2 Mock.idle_with_deadlines []
  = Done (Some "set read deadline: bad descriptor")
      (set_conn (Some 0%nat) Mock.idle_with_deadlines)
      [EDial (Some 0%nat) None;
       ESetReadDeadline 0%nat 5 (Some "set read deadline: bad descriptor")] /\
  dial (Mock.env_with [] [] [] [0%nat]) 2 Mock.idle_with_deadlines []
  = Done (Some "set write deadline: bad descriptor")
      (set_conn (Some 0%nat) Mock.idle_with_deadlines)
      [EDial (Some 0%nat) None; ESetReadDeadline 0%nat 5 None;
       ESetWriteDeadline 0%nat 7 (Some "set write deadline: bad descriptor")].
Proof.
  split.
  - exact (proj1 (proj1 (dial_keeps_socket_when_reapply_fails
                           (Mock.env_with [] [] [0%nat] []) 0 Mock.idle_with_deadlines []
                           0%nat eq_refl eq_refl)
                    _ eq_refl eq_refl)).
  - exact (proj1 (proj2 (dial_keeps_socket_when_reapply_fails
                           (Mock.env_with [] [] [] [0%nat]) 0 Mock.idle_with_deadlines []
                           0%nat eq_refl eq_refl)
                    _ _ (or_intror (conj eq_refl (conj eq_refl eq_refl))) eq_refl eq_refl)).
Defined.

(** Read deadline 5 set on socket 0; a read fails and socket 0 is
    closed; the next dial gets socket 1 and puts the deadline on it. *)
Lemma deadline_survives_redial_witness :
  conn (final_state Mock.socket_lost) = None /\
  returned Mock.redialed = Some None /\
  conn (final_state Mock.redialed) = Some 1%nat /\
  stored ReadDeadline (final_state Mock.redialed) = 5 /\
  deadline_of ReadDeadline 1%nat (final_trace Mock.redialed) = 5.
Proof.
  split; [reflexivity|]. split; [reflexivity|]. split; [reflexivity|].
  eapply (deadline_survives_redial ReadDeadline Mock.env_first_read_fails 2 5
            [OpRead []] true NewReusableConnection []); reflexivity.
Defined.

(** Query [a=1] with data [b=2], and an empty query with data [b=2]. *)
Lemma Request_merges_form_witness :
  Mock.plain_Encode {[ "b" := ["2"] ]} = "b=2" /\
  (exists tl,
     final_trace (Mock.pipe_Request Mock.env_ok Mock.plain_Encode 3 Mock.get_a1
                    (Pipe.NewConn unit) [])
     = [EDial (Some 0%nat) None; ENewClientConn]
       ++ EClientWrite
            (mkRequest "GET" (mkURL "https" "sdb.amazonaws.com" "/" "a=1&b=2") None)
          :: tl /\
     count is_client_write tl = O) /\
  (exists tl,
     final_trace (Mock.pipe_Request Mock.env_ok Mock.plain_Encode 3 Mock.get_plain
                    (Pipe.NewConn unit) [])
     = [EDial (Some 0%nat) None; ENewClientConn]
       ++ EClientWrite
            (mkRequest "GET" (mkURL "https" "sdb.amazonaws.com" "/" "b=2") None)
          :: tl /\
     count is_client_write tl = O).
Proof.
  split; [reflexivity|]. split.
  - exact (proj1 (Request_merges_form Mock.env_ok unit tt Mock.client_Write
                    Mock.client_Read Mock.plain_Encode 3 Mock.get_a1 {[ "b" := ["2"] ]}
                    (Pipe.NewConn unit) []
                    (Pipe.mkConn (Mock.live 0%nat) (Some tt))
                    [EDial (Some 0%nat) None; ENewClientConn] eq_refl eq_refl)).
  - exact (proj1 (Request_merges_form Mock.env_ok unit tt Mock.client_Write
                    Mock.client_Read Mock.plain_Encode 3 Mock.get_plain {[ "b" := ["2"] ]}
                    (Pipe.NewConn unit) []
                    (Pipe.mkConn (Mock.live 0%nat) (Some tt))
                    [EDial (Some 0%nat) None; ENewClientConn] eq_refl eq_refl)).
Defined.

(** C3, as the specification has it, fails.  The first socket breaks on
    the write of the first request and is closed; the handle is still
    there.  The second request goes out on a new socket, through the
    handle built for the first. *)
Lemma handle_survives_discarded_socket :
  ~ handle_cleared_when_socket_discarded Mock.env_first_socket_broken tt
      Mock.client_Write Mock.client_Read Mock.plain_Encode.
Proof.
  intros Hclaim.
  specialize (Hclaim 3%nat Mock.get_a1 (Pipe.NewConn unit) [] eq_refl).
  discriminate Hclaim.
Qed.

(** The two requests of the scenario above. *)
Lemma handle_is_kept_witness :
  let o1 := Mock.first_request Mock.plain_Encode Mock.get_a1 in
  let o2 := Mock.second_request Mock.plain_Encode Mock.get_a1 in
  conn (Pipe.uc (final_state o1)) = None /\
  Pipe.c (final_state o1) = Some tt /\
  conn (Pipe.uc (final_state o2)) = Some 1%nat /\
  Mock.pipe_dial Mock.env_first_socket_broken 3 (final_state o1) (final_trace o1)
  = Done None (final_state o1) (final_trace o1) /\
  is_Some (Pipe.c (final_state o2)) /\
  count is_new_client (final_trace o2) = 1%nat.
Proof.
  intros o1 o2. split; [reflexivity|]. split; [reflexivity|]. split; [reflexivity|].
  exact (handle_is_kept Mock.env_first_socket_broken unit tt Mock.client_Write
           Mock.client_Read Mock.plain_Encode 3 Mock.get_a1
           (final_state o1) (final_trace o1) tt eq_refl).
Defined.

(** Three pages with cursors t1, t2 and the empty one. *)
Lemma Select_delivers_every_page_witness :
  exists r' h',
    Mock.Select 3 (Mock.start Mock.three_pages) [] = Done None r' h' /\
    SDB.queue r' = ["apple"; "banana"; "cherry"; "damson"; "elder"] /\
    length (SDB.sent r') = 3%nat /\
    map (fun vl : Values => vl !! "NextToken") (SDB.built r')
    = [None; Some ["t1"]; Some ["t2"]].
Proof.
  refine (Select_delivers_every_page string Mock.server Mock.NewRequest Mock.SignRequestV2
            Mock.conn_Request (Mock.DecodeSelect Mock.pages) Mock.domain
            [SDB.mkSelectresponse ["apple"; "banana"] "t1";
             SDB.mkSelectresponse ["cherry"] "t2"]
            (SDB.mkSelectresponse ["damson"; "elder"] "")
            "*" "" false 3 Mock.three_pages [] [] _ eq_refl _ _).
  - repeat constructor; discriminate.
  - cbn [app serves]. repeat (eexists; repeat split; try reflexivity).
  - simpl. lia.
Defined.

(** * Further properties of the code *)

(** ** The reusable connection and its sockets *)

Lemma replay_app h1 h2 c :
  replay (h1 ++ h2) c
  = match replay h1 c with
    | Some c' => replay h2 c'
    | None => None
    end.
Proof.
  revert c. induction h1 as [|e h1 IH]; intros c; [reflexivity|].
  cbn [app replay].
  destruct e; destruct c as [s'|]; try reflexivity; try apply IH;
    destruct (Nat.eqb _ _); try reflexivity; apply IH.
Qed.

Lemma in_step_dial c0 self h c err :
  in_step c0 self h -> conn self = None ->
  in_step c0 (set_conn c self) (h ++ [EDial c err]).
Proof.
  unfold in_step. intros Hs Hc. rewrite replay_app, Hs, Hc. reflexivity.
Qed.

Lemma in_step_on_live c0 self h s e :
  in_step c0 self h -> conn self = Some s -> on_live s e = true ->
  in_step c0 self (h ++ [e]).
Proof.
  unfold in_step. intros Hs Hc He. rewrite replay_app, Hs, Hc.
  destruct e; try discriminate; cbn in He |- *; now rewrite He.
Qed.

Lemma in_step_close c0 self h s err :
  in_step c0 self h -> conn self = Some s ->
  in_step c0 (set_conn None self) (h ++ [EConnClose s err]).
Proof.
  unfold in_step. intros Hs Hc. rewrite replay_app, Hs, Hc. cbn.
  now rewrite Nat.eqb_refl.
Qed.

Lemma in_step_fields c0 self self' h :
  in_step c0 self h -> conn self' = conn self -> in_step c0 self' h.
Proof. unfold in_step. now intros Hs ->. Qed.

Section InStep.

Variable env : Env.
Variable c0 : option sock.
Variable d : M ReusableConn (option error).
Hypothesis d_in_step :
  forall self h, in_step c0 self h -> after d (fun _ => in_step c0) (in_step c0) self h.

Lemma setReadDeadline_over_in_step t self h :
  in_step c0 self h ->
  after (setReadDeadline_over env d t) (fun _ => in_step c0) (in_step c0) self h.
Proof.
  intros Hs. unfold setReadDeadline_over. step.
  eapply after_mono; [apply (d_in_step _ _ Hs)| |auto].
  intros [e|] self1 h1 Hs1; cbv beta; [now step|].
  do 2 step; [|assumption]. do 2 step.
  assert (Hs2 : forall r, in_step c0 self1 (h1 ++ [ESetReadDeadline s t r])).
  { intros r. eapply in_step_on_live; eauto. cbn. apply Nat.eqb_refl. }
  destruct (conn_SetReadDeadline env h1 s t); repeat step; [apply Hs2|].
  eapply in_step_fields; [apply Hs2|reflexivity].
Qed.

Lemma setWriteDeadline_over_in_step t self h :
  in_step c0 self h ->
  after (setWriteDeadline_over env d t) (fun _ => in_step c0) (in_step c0) self h.
Proof.
  intros Hs. unfold setWriteDeadline_over. step.
  eapply after_mono; [apply (d_in_step _ _ Hs)| |auto].
  intros [e|] self1 h1 Hs1; cbv beta; [now step|].
  do 2 step; [|assumption]. do 2 step.
  assert (Hs2 : forall r, in_step c0 self1 (h1 ++ [ESetWriteDeadline s t r])).
  { intros r. eapply in_step_on_live; eauto. cbn. apply Nat.eqb_refl. }
  destruct (conn_SetWriteDeadline env h1 s t); repeat step; [apply Hs2|].
  eapply in_step_fields; [apply Hs2|reflexivity].
Qed.

End InStep.

Lemma dial_in_step env c0 fuel :
  forall self h,
    in_step c0 self h ->
    after (dial env fuel) (fun _ => in_step c0) (in_step c0) self h.
Proof.
  induction fuel as [|fuel IH]; intros self h Hs; simpl; [now step|].
  do 2 step. destruct (conn self) eqn:Hc; [now step|].
  do 2 step. destruct (dialer env h) as [c err]; simpl.
  assert (Hs1 : in_step c0 (set_conn c self) (h ++ [EDial c err]))
    by now apply in_step_dial.
  do 5 step.
  eapply after_mono with (Q := fun _ => in_step c0) (E := in_step c0); [| |auto].
  { destruct (is_nil err && negb (IsZero (readDeadline (set_conn c self)))).
    - now apply setReadDeadline_over_in_step.
    - now step. }
  intros err1 self2 h2 Hs2. cbv beta. do 3 step.
  eapply after_mono with (Q := fun _ => in_step c0) (E := in_step c0); [| |auto].
  { destruct (is_nil err1 && negb (IsZero (writeDeadline self2))).
    - now apply setWriteDeadline_over_in_step.
    - now step. }
  intros err2 self3 h3 Hs3. cbv beta. now step.
Qed.

Lemma close_in_step env c0 self h :
  in_step c0 self h ->
  after (close env) (fun _ => in_step c0) (in_step c0) self h.
Proof.
  intros Hs. unfold close. do 2 step. destruct (conn self) eqn:Hc; [|now step].
  do 4 step. step. now apply in_step_close.
Qed.

Lemma read_in_step env c0 fuel buf self h :
  in_step c0 self h ->
  after (read env fuel buf) (fun _ => in_step c0) (in_step c0) self h.
Proof.
  intros Hs. unfold read. step.
  eapply after_mono; [exact (dial_in_step env c0 fuel _ _ Hs)| |auto].
  intros [e|] self1 h1 Hs1; cbv beta; [now step|].
  do 2 step; [|assumption]. do 2 step.
  destruct (conn_Read env h1 s buf) as [[n out] err]; simpl.
  assert (Hs2 : in_step c0 self1 (h1 ++ [EConnRead s buf n out err])).
  { eapply in_step_on_live; eauto. cbn. apply Nat.eqb_refl. }
  destruct err; [|now step]. step.
  eapply after_mono; [exact (close_in_step env c0 _ _ Hs2)| |auto].
  intros; now step.
Qed.

Lemma write_in_step env c0 fuel data self h :
  in_step c0 self h ->
  after (write env fuel data) (fun _ => in_step c0) (in_step c0) self h.
Proof.
  intros Hs. unfold write. step.
  eapply after_mono; [exact (dial_in_step env c0 fuel _ _ Hs)| |auto].
  intros [e|] self1 h1 Hs1; cbv beta; [now step|].
  do 2 step; [|assumption]. do 2 step.
  destruct (conn_Write env h1 s data) as [n err]; simpl.
  assert (Hs2 : in_step c0 self1 (h1 ++ [EConnWrite s data n err])).
  { eapply in_step_on_live; eauto. cbn. apply Nat.eqb_refl. }
  destruct err; [|now step]. step.
  eapply after_mono; [exact (close_in_step env c0 _ _ Hs2)| |auto].
  intros; now step.
Qed.

Lemma locked_in_step {A} c0 (body : M ReusableConn A) self h :
  (forall st k, in_step c0 st k -> after body (fun _ => in_step c0) (in_step c0) st k) ->
  in_step c0 self h ->
  after (locked body) (fun _ => in_step c0) (in_step c0) self h.
Proof.
  intros Hb Hs. apply after_locked; [auto|]. intros _.
  eapply after_mono; [apply Hb; exact Hs| |]; cbv beta; intros; auto.
Qed.

Lemma run_op_in_step env c0 fuel o self h :
  in_step c0 self h ->
  after (run_op env fuel o) (fun _ => in_step c0) (in_step c0) self h.
Proof.
  assert (Hk : forall A (m : M ReusableConn A) st k,
             in_step c0 st k ->
             (forall st k, in_step c0 st k ->
                after m (fun _ => in_step c0) (in_step c0) st k) ->
             after (m ;;; ret tt) (fun _ => in_step c0) (in_step c0) st k).
  { intros A m st k Hs Hm. step. eapply after_mono; [apply Hm, Hs| |auto].
    intros; now step. }
  assert (Haddr : forall st k, in_step c0 st k ->
             after (let* self := get in
                    match conn self with
                    | Some c => ask (fun h => conn_RemoteAddr env h c) (ERemoteAddr c)
                    | None => ret None
                    end) (fun _ => in_step c0) (in_step c0) st k).
  { intros st k Hs. do 2 step. destruct (conn st) eqn:Hc; step; [|assumption].
    eapply in_step_on_live; eauto. cbn. apply Nat.eqb_refl. }
  intros Hs. destruct o; cbn [run_op]; apply Hk; try assumption; intros st k Hsk.
  - apply locked_in_step; [apply dial_in_step|assumption].
  - apply locked_in_step; [apply close_in_step|assumption].
  - apply locked_in_step; [intros; now apply read_in_step|assumption].
  - apply locked_in_step; [intros; now apply write_in_step|assumption].
  - apply locked_in_step; [exact Haddr|assumption].
  - apply locked_in_step; [exact Haddr|assumption].
  - apply locked_in_step; [|assumption]. intros.
    apply setReadDeadline_over_in_step; [apply dial_in_step|assumption].
  - apply locked_in_step; [|assumption]. intros.
    apply setWriteDeadline_over_in_step; [apply dial_in_step|assumption].
  - unfold SetDeadline. step.
    eapply after_mono with (Q := fun _ => in_step c0) (E := in_step c0); [| |auto].
    + apply locked_in_step; [|assumption]. intros.
      apply setReadDeadline_over_in_step; [apply dial_in_step|assumption].
    + intros [e|] st1 k1 Hs1; cbv beta; [now step|].
      apply locked_in_step; [|assumption]. intros.
      apply setWriteDeadline_over_in_step; [apply dial_in_step|assumption].
Qed.

(** X1.  The sockets are used one at a time.  Whatever the caller does
    with a connection, and however each call ends, the history keeps to
    these rules: the dialer is called only when no socket is stored; every
    read, write, deadline and address call goes to the socket stored at
    that moment; a socket is closed before another one is dialed; and the
    socket stored at the end is the last one dialed and not closed. *)
Theorem sockets_one_at_a_time env fuel os c0 self h :
  in_step c0 self h ->
  let o := run_ops env fuel os self h in
  in_step c0 (final_state o) (final_trace o).
Proof.
  intros Hs o. subst o. apply (after_final (run_ops env fuel os) (in_step c0)).
  revert self h Hs. induction os as [|op os IH]; intros self h Hs; cbn [run_ops].
  - now step.
  - step. eapply after_mono; [exact (run_op_in_step env c0 fuel op self h Hs)| |auto].
    intros u self1 h1 Hs1. cbv beta. now apply IH.
Qed.

Lemma sockets_one_at_a_time_witness :
  let o := run_ops Mock.env_first_read_fails 2
             [OpSetReadDeadline 5; OpRead []; OpWrite []; OpClose; OpLocalAddr; OpDial]
             NewReusableConnection [] in
  in_step None NewReusableConnection [] /\
  final_trace o
  = [EDial (Some 0%nat) None; ESetReadDeadline 0%nat 5 None;
     EConnRead 0%nat [] 0 [] (Some "read: connection reset by peer");
     EConnClose 0%nat None;
     EDial (Some 1%nat) None; ESetReadDeadline 1%nat 5 None;
     EConnWrite 1%nat [] 0 None; EConnClose 1%nat None;
     EDial (Some 2%nat) None; ESetReadDeadline 2%nat 5 None] /\
  in_step None (final_state o) (final_trace o).
Proof.
  split; [reflexivity|]. split; [reflexivity|].
  apply (sockets_one_at_a_time Mock.env_first_read_fails 2
           [OpSetReadDeadline 5; OpRead []; OpWrite []; OpClose; OpLocalAddr; OpDial]
           None NewReusableConnection []).
  reflexivity.
Defined.

(** ** Calls return, and leave the mutex free *)

Lemma dial_sound env fuel self h :
  (fst (dialer env h) = None -> snd (dialer env h) <> None) ->
  after (dial env (S (S fuel)))
    (fun err self' _ => lock self' = lock self /\ (err = None -> is_Some (conn self')))
    never self h.
Proof.
  intros Hd. destruct (conn self) as [s|] eqn:Hc.
  { eapply after_dial_live; [exact Hc|]. rewrite Hc. split; eauto. }
  destruct (dialer env h) as [[s|] err0] eqn:Hdial.
  - eapply after_mono; [exact (dial_with_socket env fuel self h s err0 Hc Hdial)| |easy].
    intros err self1 h1 (Hc1 & Hl1 & _). rewrite Hc1. eauto.
  - destruct err0 as [e|]; [|now destruct (Hd eq_refl)].
    eapply after_known.
    + remember (S fuel) as n. cbn [dial]. unfold bind at 1. unfold get at 1. rewrite Hc.
      unfold bind at 1. unfold ask at 1. rewrite Hdial. cbn [fst snd]. reflexivity.
    + split; [reflexivity | discriminate].
Qed.

Lemma after_the_conn_some (Q : sock -> ReusableConn -> trace -> Prop) E self h :
  is_Some (conn self) -> (forall s, conn self = Some s -> Q s self h) ->
  after the_conn Q E self h.
Proof. intros [s Hs] HQ. eapply after_the_conn_live; eauto. Qed.

Lemma setReadDeadline_sound env fuel t self h :
  dialer_answers env ->
  after (setReadDeadline env (S (S fuel)) t) (fun _ self' _ => lock self' = lock self)
    never self h.
Proof.
  intros Hd. unfold setReadDeadline, setReadDeadline_over. step.
  eapply after_mono; [apply dial_sound, Hd| |easy].
  intros [e|] self1 h1 [Hl Hc]; cbv beta; [now step|].
  step. apply after_the_conn_some; [auto|]. intros s Hs. do 2 step.
  destruct (conn_SetReadDeadline env h1 s t); repeat step; exact Hl.
Qed.

Lemma setWriteDeadline_sound env fuel t self h :
  dialer_answers env ->
  after (setWriteDeadline env (S (S fuel)) t) (fun _ self' _ => lock self' = lock self)
    never self h.
Proof.
  intros Hd. unfold setWriteDeadline, setWriteDeadline_over. step.
  eapply after_mono; [apply dial_sound, Hd| |easy].
  intros [e|] self1 h1 [Hl Hc]; cbv beta; [now step|].
  step. apply after_the_conn_some; [auto|]. intros s Hs. do 2 step.
  destruct (conn_SetWriteDeadline env h1 s t); repeat step; exact Hl.
Qed.

Lemma close_sound env self h :
  after (close env) (fun _ self' _ => lock self' = lock self) never self h.
Proof.
  unfold close. do 2 step. destruct (conn self); repeat step; reflexivity.
Qed.

Lemma read_sound env fuel buf self h :
  dialer_answers env ->
  after (read env (S (S fuel)) buf) (fun _ self' _ => lock self' = lock self) never self h.
Proof.
  intros Hd. unfold read. step.
  eapply after_mono; [apply dial_sound, Hd| |easy].
  intros [e|] self1 h1 [Hl Hc]; cbv beta; [now step|].
  step. apply after_the_conn_some; [auto|]. intros s Hs. do 2 step.
  destruct (conn_Read env h1 s buf) as [[n out] [e|]]; cbn [fst snd]; [|now step].
  step. eapply after_mono; [apply close_sound| |easy].
  intros ? ? ? Hl2. cbv beta. step. congruence.
Qed.

Lemma write_sound env fuel data self h :
  dialer_answers env ->
  after (write env (S (S fuel)) data) (fun _ self' _ => lock self' = lock self) never self h.
Proof.
  intros Hd. unfold write. step.
  eapply after_mono; [apply dial_sound, Hd| |easy].
  intros [e|] self1 h1 [Hl Hc]; cbv beta; [now step|].
  step. apply after_the_conn_some; [auto|]. intros s Hs. do 2 step.
  destruct (conn_Write env h1 s data) as [n [e|]]; cbn [fst snd]; [|now step].
  step. eapply after_mono; [apply close_sound| |easy].
  intros ? ? ? Hl2. cbv beta. step. congruence.
Qed.

Lemma locked_sound {A} (body : M ReusableConn A) self h :
  lock self = false ->
  (forall st k, after body (fun _ st' _ => lock st' = lock st) never st k) ->
  after (locked body) (fun _ self' _ => lock self' = false) never self h.
Proof.
  intros Hl Hb. apply after_locked_sure; [exact Hl|].
  eapply after_mono; [apply Hb| |easy]. intros. reflexivity.
Qed.

Lemma run_op_sound env fuel o self h :
  dialer_answers env ->
  lock self = false ->
  after (run_op env (S (S fuel)) o) (fun _ self' _ => lock self' = false) never self h.
Proof.
  intros Hd Hl.
  assert (Hk : forall A (m : M ReusableConn A),
             after m (fun _ self' _ => lock self' = false) never self h ->
             after (m ;;; ret tt) (fun _ self' _ => lock self' = false) never self h).
  { intros A m Hm. step. eapply after_mono; [exact Hm| |easy]. intros; now step. }
  assert (Haddr : forall st k,
             after (let* self := get in
                    match conn self with
                    | Some c => ask (fun h => conn_RemoteAddr env h c) (ERemoteAddr c)
                    | None => ret None
                    end) (fun _ st' _ => lock st' = lock st) never st k).
  { intros st k. do 2 step. destruct (conn st); now step. }
  destruct o; cbn [run_op]; apply Hk.
  - apply locked_sound; [exact Hl|]. intros. eapply after_mono; [apply dial_sound, Hd| |easy].
    cbv beta. tauto.
  - apply locked_sound; [exact Hl|]. intros. apply close_sound.
  - apply locked_sound; [exact Hl|]. intros. now apply read_sound.
  - apply locked_sound; [exact Hl|]. intros. now apply write_sound.
  - apply locked_sound; [exact Hl|]. exact Haddr.
  - apply locked_sound; [exact Hl|]. exact Haddr.
  - apply locked_sound; [exact Hl|]. intros. now apply setReadDeadline_sound.
  - apply locked_sound; [exact Hl|]. intros. now apply setWriteDeadline_sound.
  - unfold SetDeadline. step.
    eapply after_mono;
      [apply (locked_sound (setReadDeadline env (S (S fuel)) t)); [exact Hl|]| |easy].
    + intros. now apply setReadDeadline_sound.
    + intros [e|] st1 k1 Hl1; cbv beta; [now step|].
      apply locked_sound; [exact Hl1|]. intros. now apply setWriteDeadline_sound.
Qed.

(** X2.  With a dialer that never answers with neither a socket nor an
    error, every sequence of public calls on an unlocked connection runs
    to its end: no call panics, none waits for the mutex, the nesting of
    [dial] and the deadline setters stays within two levels, and the
    mutex is free when the last call has returned. *)
Theorem calls_return_with_mutex_free env fuel os self h :
  dialer_answers env ->
  lock self = false ->
  exists self' h',
    run_ops env (S (S fuel)) os self h = Done tt self' h' /\ lock self' = false.
Proof.
  intros Hd Hl.
  cut (after (run_ops env (S (S fuel)) os) (fun _ self' _ => lock self' = false) never self h).
  { intros (u & self' & h' & Hrun & Hl')%after_never. destruct u. eauto. }
  revert self h Hl. induction os as [|o os IH]; intros self h Hl; cbn [run_ops].
  - now step.
  - step. eapply after_mono; [exact (run_op_sound env fuel o self h Hd Hl)| |easy].
    intros u self1 h1 Hl1. cbv beta. now apply IH.
Qed.

Lemma calls_return_with_mutex_free_witness :
  dialer_answers Mock.env_down /\
  exists self' h',
    run_ops Mock.env_down 2 [OpRead []; OpSetDeadline 5; OpClose] NewReusableConnection []
    = Done tt self' h' /\ lock self' = false.
Proof.
  assert (Hd : dialer_answers Mock.env_down) by (intros h; simpl; discriminate).
  split; [exact Hd|].
  apply (calls_return_with_mutex_free Mock.env_down 0 [OpRead []; OpSetDeadline 5; OpClose]
           NewReusableConnection [] Hd).
  reflexivity.
Defined.

(** ** The dialer fails, or answers with nothing *)

Lemma locked_returns {A} (body : M ReusableConn A) self h a self' h' :
  lock self = false ->
  body (set_lock true self) h = Done a (set_lock true self') h' ->
  lock self' = false ->
  locked body self h = Done a self' h'.
Proof.
  intros Hl Hb Hl'. rewrite (locked_free _ _ _ Hl), Hb. now rewrite unlock_lock.
Qed.

Lemma locked_panics {A} (body : M ReusableConn A) self h self' h' :
  lock self = false ->
  body (set_lock true self) h = Panicked (set_lock true self') h' ->
  lock self' = false ->
  locked body self h = Panicked self' h'.
Proof.
  intros Hl Hb Hl'. rewrite (locked_free _ _ _ Hl), Hb. now rewrite unlock_lock.
Qed.

(** [dial] when the dialer's answer carries an error, or when there is
    nothing to re-apply. *)
Lemma dial_plain env fuel self h c err :
  conn self = None ->
  dialer env h = (c, err) ->
  (err = None -> IsZero (readDeadline self) = true /\ IsZero (writeDeadline self) = true) ->
  dial env (S fuel) self h = Done err (set_conn c self) (h ++ [EDial c err]).
Proof.
  intros Hc Hd Hz. cbn [dial]. unfold bind at 1. unfold get at 1. rewrite Hc.
  unfold bind at 1. unfold ask at 1. rewrite Hd. cbn [fst snd].
  unfold bind at 1. unfold modify at 1. unfold bind at 1. unfold get at 1.
  cbn [readDeadline writeDeadline set_conn].
  destruct err as [e|]; cbn [is_nil andb].
  - reflexivity.
  - destruct (Hz eq_refl) as [Hr Hw]. rewrite Hr. cbn [negb andb].
    unfold bind, ret, get. cbn [writeDeadline set_conn]. now rewrite Hw.
Qed.

(** X3.  When the dialer fails, nothing is done on any socket.  On a
    connection without a socket, if the dialer answers with an error,
    then [Dial], [Read], [Write] and the deadline setters all return that
    error after the one dialer call: [Read] and [Write] report 0 bytes and
    leave the buffer alone, the setters do not store the deadline, and the
    connection keeps whatever the dialer gave back beside the error. *)
Theorem dialer_error_is_returned env fuel self h c e :
  lock self = false ->
  conn self = None ->
  dialer env h = (c, Some e) ->
  let self' := set_conn c self in
  let h' := h ++ [EDial c (Some e)] in
  Dial env (S fuel) self h = Done (Some e) self' h' /\
  (forall buf, Read env (S fuel) buf self h = Done (0, buf, Some e) self' h') /\
  (forall out, Write env (S fuel) out self h = Done (0, Some e) self' h') /\
  (forall k t, SetDeadlineOf k env (S fuel) t self h = Done (Some e) self' h') /\
  (forall t, SetDeadline env (S fuel) t self h = Done (Some e) self' h').
Proof.
  intros Hl Hc Hd self' h'.
  assert (Hdial : dial env (S fuel) (set_lock true self) h
                  = Done (Some e) (set_lock true self') h').
  { apply (dial_plain env fuel (set_lock true self) h c (Some e)); [exact Hc|exact Hd|].
    discriminate. }
  assert (Hl' : lock self' = false) by exact Hl.
  assert (Hr : forall t, SetReadDeadline env (S fuel) t self h = Done (Some e) self' h').
  { intros t. apply locked_returns; [exact Hl| |exact Hl'].
    unfold setReadDeadline, setReadDeadline_over, bind. now rewrite Hdial. }
  repeat split.
  - apply locked_returns; [exact Hl|exact Hdial|exact Hl'].
  - intros buf. apply locked_returns; [exact Hl| |exact Hl'].
    unfold read, bind. now rewrite Hdial.
  - intros out. apply locked_returns; [exact Hl| |exact Hl'].
    unfold write, bind. now rewrite Hdial.
  - intros [|] t; cbn [SetDeadlineOf]; [apply Hr|].
    apply locked_returns; [exact Hl| |exact Hl'].
    unfold setWriteDeadline, setWriteDeadline_over, bind. now rewrite Hdial.
  - intros t. unfold SetDeadline, bind. now rewrite Hr.
Qed.

Lemma dialer_error_is_returned_witness :
  let self' := NewReusableConnection in
  let h' := [EDial None (Some "dial: connection refused")] in
  Dial Mock.env_down 1 NewReusableConnection []
  = Done (Some "dial: connection refused") self' h' /\
  (forall buf, Read Mock.env_down 1 buf NewReusableConnection []
               = Done (0, buf, Some "dial: connection refused") self' h') /\
  (forall out, Write Mock.env_down 1 out NewReusableConnection []
               = Done (0, Some "dial: connection refused") self' h') /\
  (forall k t, SetDeadlineOf k Mock.env_down 1 t NewReusableConnection []
               = Done (Some "dial: connection refused") self' h') /\
  (forall t, SetDeadline Mock.env_down 1 t NewReusableConnection []
             = Done (Some "dial: connection refused") self' h').
Proof.
  apply (dialer_error_is_returned Mock.env_down 0 NewReusableConnection [] None
           "dial: connection refused"); reflexivity.
Defined.

(** X4.  A dialer that answers with neither a socket nor an error, on a
    connection without a socket and without deadlines: [Dial] returns nil
    although no socket is stored, and [Read], [Write] and the deadline
    setters, which go on to call the socket, panic on the nil socket.  The
    deferred unlock has run: the mutex is free after the panic. *)
Theorem nil_socket_without_error_panics env fuel self h :
  lock self = false ->
  conn self = None ->
  dialer env h = (None, None) ->
  IsZero (readDeadline self) = true ->
  IsZero (writeDeadline self) = true ->
  let h' := h ++ [EDial None None] in
  Dial env (S fuel) self h = Done None self h' /\
  (forall buf, Read env (S fuel) buf self h = Panicked self h') /\
  (forall out, Write env (S fuel) out self h = Panicked self h') /\
  (forall k t, SetDeadlineOf k env (S fuel) t self h = Panicked self h') /\
  (forall t, SetDeadline env (S fuel) t self h = Panicked self h').
Proof.
  intros Hl Hc Hd Hzr Hzw h'.
  assert (Hdial : dial env (S fuel) (set_lock true self) h
                  = Done None (set_lock true self) h').
  { rewrite (dial_plain env fuel (set_lock true self) h None None Hc Hd) by auto.
    f_equal. destruct self; cbn in Hc |- *. now subst. }
  assert (Hnil : the_conn (set_lock true self) h' = Panicked (set_lock true self) h').
  { unfold the_conn. cbn [conn set_lock]. now rewrite Hc. }
  assert (Hr : forall t, SetReadDeadline env (S fuel) t self h = Panicked self h').
  { intros t. apply locked_panics; [exact Hl| |exact Hl].
    unfold setReadDeadline, setReadDeadline_over, bind. now rewrite Hdial, Hnil. }
  repeat split.
  - apply locked_returns; [exact Hl|exact Hdial|exact Hl].
  - intros buf. apply locked_panics; [exact Hl| |exact Hl].
    unfold read, bind. now rewrite Hdial, Hnil.
  - intros out. apply locked_panics; [exact Hl| |exact Hl].
    unfold write, bind. now rewrite Hdial, Hnil.
  - intros [|] t; cbn [SetDeadlineOf]; [apply Hr|].
    apply locked_panics; [exact Hl| |exact Hl].
    unfold setWriteDeadline, setWriteDeadline_over, bind. now rewrite Hdial, Hnil.
  - intros t. unfold SetDeadline, bind. now rewrite Hr.
Qed.

Lemma nil_socket_without_error_panics_witness :
  let h' := [EDial None None] in
  Dial env_silent 1 NewReusableConnection [] = Done None NewReusableConnection h' /\
  (forall buf, Read env_silent 1 buf NewReusableConnection []
               = Panicked NewReusableConnection h') /\
  (forall out, Write env_silent 1 out NewReusableConnection []
               = Panicked NewReusableConnection h') /\
  (forall k t, SetDeadlineOf k env_silent 1 t NewReusableConnection []
               = Panicked NewReusableConnection h') /\
  (forall t, SetDeadline env_silent 1 t NewReusableConnection []
             = Panicked NewReusableConnection h').
Proof.
  apply (nil_socket_without_error_panics env_silent 0 NewReusableConnection []);
    reflexivity.
Defined.

(** X5.  A dialer that answers with neither a socket nor an error, on a
    connection that has a deadline stored: [dial] calls the setter to
    re-apply the deadline, the setter calls [dial], which finds no socket
    and calls the dialer again, and so on.
    As long as the dialer keeps answering with neither a socket nor an
    error, no bound on the nesting is enough for [dial] to return. *)
Theorem dial_recurses_without_end env self h :
  (forall h', dialer env h' = (None, None)) ->
  conn self = None ->
  IsZero (readDeadline self) && IsZero (writeDeadline self) = false ->
  forall fuel, ran_out (dial env fuel self h) = true.
Proof.
  intros Hd Hc Hz fuel. revert self h Hc Hz.
  induction fuel as [|fuel IH]; intros self h Hc Hz; [reflexivity|].
  cbn [dial]. unfold bind at 1. unfold get at 1. rewrite Hc.
  unfold bind at 1. unfold ask at 1. rewrite Hd. cbn [fst snd].
  unfold bind at 1. unfold modify at 1. unfold bind at 1. unfold get at 1.
  cbn [readDeadline writeDeadline set_conn is_nil andb].
  set (self0 := set_conn None self).
  set (h0 := h ++ [EDial None None]).
  assert (Hout : forall st k, conn st = None -> readDeadline st = readDeadline self ->
             writeDeadline st = writeDeadline self ->
             exists st' k', dial env fuel st k = OutOfFuel st' k').
  { intros st k Hc' Hr Hw. specialize (IH st k Hc'). rewrite Hr, Hw in IH.
    specialize (IH Hz). destruct (dial env fuel st k); try discriminate. eauto. }
  destruct (IsZero (readDeadline self)) eqn:Hr; cbn [negb].
  - unfold bind at 1. unfold ret at 1. unfold bind at 1. unfold get at 1.
    cbn [is_nil andb]. cbn in Hz.
    change (writeDeadline self0) with (writeDeadline self). rewrite Hz. cbn [negb].
    unfold bind at 1. unfold setWriteDeadline_over. unfold bind at 1.
    destruct (Hout self0 h0 eq_refl eq_refl eq_refl) as (st' & k' & ->). reflexivity.
  - unfold bind at 1. unfold setReadDeadline_over. unfold bind at 1.
    destruct (Hout self0 h0 eq_refl eq_refl eq_refl) as (st' & k' & ->). reflexivity.
Qed.

Lemma dial_recurses_without_end_witness :
  ran_out (dial env_silent 1000 Mock.idle_with_deadlines []) = true.
Proof.
  apply (dial_recurses_without_end env_silent Mock.idle_with_deadlines []);
    reflexivity.
Defined.

(** ** On a live socket *)

Lemma SetReadDeadline_live env fuel t self h s :
  lock self = false ->
  conn self = Some s ->
  SetReadDeadline env (S fuel) t self h
  = Done (conn_SetReadDeadline env h s t)
      match conn_SetReadDeadline env h s t with
      | None => set_readDeadline t self
      | Some _ => self
      end
      (h ++ [ESetReadDeadline s t (conn_SetReadDeadline env h s t)]).
Proof.
  intros Hl Hc. apply locked_returns; [exact Hl| |].
  - unfold setReadDeadline, setReadDeadline_over. unfold bind at 1.
    rewrite (dial_live env fuel _ h s) by exact Hc.
    unfold bind at 1. unfold the_conn. cbn [conn set_lock]. rewrite Hc.
    unfold bind at 1. unfold ask at 1. cbv zeta.
    destruct (conn_SetReadDeadline env h s t); reflexivity.
  - destruct (conn_SetReadDeadline env h s t); exact Hl.
Qed.

Lemma SetWriteDeadline_live env fuel t self h s :
  lock self = false ->
  conn self = Some s ->
  SetWriteDeadline env (S fuel) t self h
  = Done (conn_SetWriteDeadline env h s t)
      match conn_SetWriteDeadline env h s t with
      | None => set_writeDeadline t self
      | Some _ => self
      end
      (h ++ [ESetWriteDeadline s t (conn_SetWriteDeadline env h s t)]).
Proof.
  intros Hl Hc. apply locked_returns; [exact Hl| |].
  - unfold setWriteDeadline, setWriteDeadline_over. unfold bind at 1.
    rewrite (dial_live env fuel _ h s) by exact Hc.
    unfold bind at 1. unfold the_conn. cbn [conn set_lock]. rewrite Hc.
    unfold bind at 1. unfold ask at 1. cbv zeta.
    destruct (conn_SetWriteDeadline env h s t); reflexivity.
  - destruct (conn_SetWriteDeadline env h s t); exact Hl.
Qed.

(** X6.  A deadline setter on a connection with a live socket calls the
    socket once and nothing else.  It stores the deadline, in its own
    field only, exactly when the socket accepted it; when the socket
    refused, the error is returned and the connection is left as it was,
    socket included: unlike a failed read or write, a failed deadline call
    does not discard the socket. *)
Theorem deadline_setter_on_live_socket k env fuel t self h s :
  lock self = false ->
  conn self = Some s ->
  let err := conn_SetDeadlineOf k env h s t in
  SetDeadlineOf k env (S fuel) t self h
  = Done err
      match err with None => set_stored k t self | Some _ => self end
      (h ++ [deadline_event k s t err]).
Proof.
  intros Hl Hc err. subst err.
  destruct k; cbn [SetDeadlineOf conn_SetDeadlineOf deadline_event set_stored].
  - now apply SetReadDeadline_live.
  - now apply SetWriteDeadline_live.
Qed.

Lemma deadline_setter_on_live_socket_witness :
  SetDeadlineOf WriteDeadline (Mock.env_with [] [] [] [0%nat]) 1 9 (Mock.live 0%nat) []
  = Done (Some "set write deadline: bad descriptor") (Mock.live 0%nat)
      [ESetWriteDeadline 0%nat 9 (Some "set write deadline: bad descriptor")] /\
  SetDeadlineOf WriteDeadline Mock.env_ok 1 9 (Mock.live 0%nat) []
  = Done None (mkReusableConn false (Some 0%nat) 0 9) [ESetWriteDeadline 0%nat 9 None].
Proof.
  split.
  - apply (deadline_setter_on_live_socket WriteDeadline (Mock.env_with [] [] [] [0%nat]) 0 9
             (Mock.live 0%nat) [] 0%nat); reflexivity.
  - apply (deadline_setter_on_live_socket WriteDeadline Mock.env_ok 0 9
             (Mock.live 0%nat) [] 0%nat); reflexivity.
Defined.

(** X7.  [SetDeadline] sets the read deadline first and the write
    deadline only if that succeeded, and it undoes nothing.  On a live
    socket: when the read call fails, the write deadline is not touched,
    neither on the socket nor in the connection; when the read call
    succeeds and the write call fails, [SetDeadline] returns the error
    with the new read deadline in force and stored, beside the old write
    deadline. *)
Theorem SetDeadline_stops_half_way env fuel t self h s e :
  lock self = false ->
  conn self = Some s ->
  (conn_SetReadDeadline env h s t = Some e ->
   SetDeadline env (S fuel) t self h
   = Done (Some e) self (h ++ [ESetReadDeadline s t (Some e)])) /\
  (conn_SetReadDeadline env h s t = None ->
   conn_SetWriteDeadline env (h ++ [ESetReadDeadline s t None]) s t = Some e ->
   SetDeadline env (S fuel) t self h
   = Done (Some e) (set_readDeadline t self)
       (h ++ [ESetReadDeadline s t None; ESetWriteDeadline s t (Some e)])).
Proof.
  intros Hl Hc. split.
  - intros Hr. unfold SetDeadline, bind.
    rewrite (SetReadDeadline_live env fuel t self h s Hl Hc), Hr. reflexivity.
  - intros Hr Hw. unfold SetDeadline, bind.
    rewrite (SetReadDeadline_live env fuel t self h s Hl Hc), Hr.
    rewrite (SetWriteDeadline_live env fuel t _ _ s) by assumption.
    rewrite Hw, <- app_assoc. reflexivity.
Qed.

Lemma SetDeadline_stops_half_way_witness :
  SetDeadline (Mock.env_with [] [] [0%nat] []) 1 9 (Mock.live 0%nat) []
  = Done (Some "set read deadline: bad descriptor") (Mock.live 0%nat)
      [ESetReadDeadline 0%nat 9 (Some "set read deadline: bad descriptor")] /\
  SetDeadline (Mock.env_with [] [] [] [0%nat]) 1 9 (Mock.live 0%nat) []
  = Done (Some "set write deadline: bad descriptor")
      (mkReusableConn false (Some 0%nat) 9 0)
      [ESetReadDeadline 0%nat 9 None;
       ESetWriteDeadline 0%nat 9 (Some "set write deadline: bad descriptor")].
Proof.
  split.
  - apply (proj1 (SetDeadline_stops_half_way (Mock.env_with [] [] [0%nat] []) 0 9
                    (Mock.live 0%nat) [] 0%nat "set read deadline: bad descriptor"
                    eq_refl eq_refl)).
    reflexivity.
  - apply (proj2 (SetDeadline_stops_half_way (Mock.env_with [] [] [] [0%nat]) 0 9
                    (Mock.live 0%nat) [] 0%nat "set write deadline: bad descriptor"
                    eq_refl eq_refl)); reflexivity.
Defined.

(** X8.  A read or write that succeeds on a live socket is one call on
    that socket and nothing more: the dialer is not called, the socket is
    not closed and stays stored, and the socket's byte count and buffer
    are returned as they came. *)
Theorem io_on_live_socket env fuel self h s :
  lock self = false ->
  conn self = Some s ->
  (forall buf n out,
     conn_Read env h s buf = (n, out, None) ->
     Read env (S fuel) buf self h = Done (n, out, None) self (h ++ [EConnRead s buf n out None])) /\
  (forall data n,
     conn_Write env h s data = (n, None) ->
     Write env (S fuel) data self h = Done (n, None) self (h ++ [EConnWrite s data n None])).
Proof.
  intros Hl Hc. split.
  - intros buf n out Hr. apply locked_returns; [exact Hl| |exact Hl].
    unfold read. unfold bind at 1. rewrite (dial_live env fuel _ h s) by exact Hc.
    unfold bind at 1. unfold the_conn. cbn [conn set_lock]. rewrite Hc.
    unfold bind at 1. unfold ask at 1. cbv zeta. rewrite Hr. reflexivity.
  - intros data n Hw. apply locked_returns; [exact Hl| |exact Hl].
    unfold write. unfold bind at 1. rewrite (dial_live env fuel _ h s) by exact Hc.
    unfold bind at 1. unfold the_conn. cbn [conn set_lock]. rewrite Hc.
    unfold bind at 1. unfold ask at 1. cbv zeta. rewrite Hw. reflexivity.
Qed.

Lemma io_on_live_socket_witness :
  Read Mock.env_ok 1 [] (Mock.live 0%nat) []
  = Done (0, [], None) (Mock.live 0%nat) [EConnRead 0%nat [] 0 [] None] /\
  Write Mock.env_ok 1 [] (Mock.live 0%nat) []
  = Done (0, None) (Mock.live 0%nat) [EConnWrite 0%nat [] 0 None].
Proof.
  split.
  - apply (proj1 (io_on_live_socket Mock.env_ok 0 (Mock.live 0%nat) [] 0%nat
                    eq_refl eq_refl)).
    reflexivity.
  - apply (proj2 (io_on_live_socket Mock.env_ok 0 (Mock.live 0%nat) [] 0%nat
                    eq_refl eq_refl)).
    reflexivity.
Defined.

(** X9.  What [dial] leaves alone, however it ends: it never changes the
    stored deadlines or the mutex, it never replaces or drops a socket
    that was live when it was called, and the only deadline calls it
    makes on a socket carry the stored deadlines, each only when it is not
    the zero time. *)
Theorem dial_only_reapplies_stored env fuel self h :
  let o := dial env fuel self h in
  dialing self h (final_state o) (final_trace o).
Proof.
  intros o. subst o. apply (after_final (dial env fuel) (dialing self h)).
  apply dial_dialing, dialing_refl.
Qed.

(** ** The request pipe *)

Lemma in_step_pipe_event c0 self h e :
  in_step c0 self h -> socket_event e = false -> in_step c0 self (h ++ [e]).
Proof.
  unfold in_step. intros Hs He. rewrite replay_app, Hs.
  destruct e; try discriminate; reflexivity.
Qed.

Lemma Dial_in_step env c0 fuel self h :
  in_step c0 self h ->
  after (Dial env fuel) (fun _ => in_step c0) (in_step c0) self h.
Proof. intros Hs. apply locked_in_step; [apply dial_in_step|exact Hs]. Qed.

Lemma run_io_in_step env c0 {A} fuel (p : Pipe.io A) :
  forall self h,
    in_step c0 self h ->
    after (Pipe.run_io env fuel p) (fun _ => in_step c0) (in_step c0) self h.
Proof.
  induction p as [a|data k IH|buf k IH]; intros self h Hs; cbn [Pipe.run_io].
  - now step.
  - step. eapply after_mono with (Q := fun _ => in_step c0) (E := in_step c0); [| |auto].
    + apply locked_in_step; [intros; now apply write_in_step|exact Hs].
    + intros r self1 h1 Hs1. cbv beta. now apply IH.
  - step. eapply after_mono with (Q := fun _ => in_step c0) (E := in_step c0); [| |auto].
    + apply locked_in_step; [intros; now apply read_in_step|exact Hs].
    + intros r self1 h1 Hs1. cbv beta. now apply IH.
Qed.

Lemma Dial_grows env fuel self h :
  after (Dial env fuel) (fun _ _ h' => grows h h') (fun _ h' => grows h h') self h.
Proof. apply locked_grows. intros st. apply dial_steady, steady_refl. Qed.

Lemma Dial_dialer_error env fuel self h c e :
  lock self = false ->
  conn self = None ->
  dialer env h = (c, Some e) ->
  Dial env (S fuel) self h = Done (Some e) (set_conn c self) (h ++ [EDial c (Some e)]).
Proof.
  intros Hl Hc Hd. apply locked_returns; [exact Hl| |exact Hl].
  apply (dial_plain env fuel (set_lock true self) h c (Some e)); [exact Hc|exact Hd|].
  discriminate.
Qed.

Section PipeMore.

Variable env : Env.
Variable ClientConn : Type.
Variable NewClientConn : ClientConn.
Variable client_Write : ClientConn -> Request -> Pipe.io (ClientConn * option error).
Variable client_Read :
  ClientConn -> Request -> Pipe.io (ClientConn * (option Response * option error)).
Variable Encode : Values -> string.

Local Abbreviation Conn := (Pipe.Conn ClientConn).
Local Abbreviation pipe_dial := (Pipe.dial env ClientConn NewClientConn).
Local Abbreviation c_Write := (Pipe.c_Write env ClientConn client_Write).
Local Abbreviation c_Read := (Pipe.c_Read env ClientConn client_Read).
Local Abbreviation pipe_Request :=
  (Pipe.Request env ClientConn NewClientConn client_Write client_Read Encode).
Local Abbreviation requests :=
  (run_requests env NewClientConn client_Write client_Read Encode).

(** [dial] of the pipe: it builds a handle exactly when it held none and
    [Dial] returned nil. *)
Lemma pipe_dial_budget fuel (self : Conn) h :
  after (pipe_dial fuel)
    (fun err self' h' =>
       handle_budget self' h' = handle_budget self h /\
       (err = None -> is_Some (Pipe.c self')))
    (fun self' h' => handle_budget self' h' = handle_budget self h) self h.
Proof.
  unfold Pipe.dial. do 2 step. destruct (Pipe.c self) as [cc|] eqn:Hc.
  { step. rewrite Hc. eauto. }
  step. apply after_zoom.
  eapply after_mono; [apply Dial_grows| |]; cbv beta.
  - intros err u1 h1 Hg.
    assert (Hn : count is_new_client h1 = count is_new_client h).
    { apply adds_count, grows_adds; [exact socket_event_not_new|exact Hg]. }
    destruct err as [e|]; repeat step; unfold handle_budget; cbn [Pipe.c Pipe.set_uc Pipe.set_c];
      rewrite ?Hc, ?count_app, Hn; cbn.
    + split; [reflexivity|discriminate].
    + split; [lia|eauto].
  - intros u1 h1 Hg. unfold handle_budget. cbn [Pipe.c Pipe.set_uc]. rewrite Hc.
    f_equal. apply adds_count, grows_adds; [exact socket_event_not_new|exact Hg].
Qed.

Lemma Request_budget fuel req (self : Conn) h :
  after (pipe_Request fuel req)
    (fun _ self' h' => handle_budget self' h' = handle_budget self h)
    (fun self' h' => handle_budget self' h' = handle_budget self h) self h.
Proof.
  unfold Pipe.Request. step.
  eapply after_mono; [apply pipe_dial_budget| |auto].
  intros [e|] self1 h1 [Hb Hc]; cbv beta iota; [now step|].
  destruct (Hc eq_refl) as [cc Hcc].
  assert (Hkeep : forall (self' : Conn) h',
             is_Some (Pipe.c self') /\
             adds is_new_client (h1 ++ [EClientWrite (Pipe.merge_form Encode req)]) h' ->
             handle_budget self' h' = handle_budget self h).
  { intros self' h' [[cc' Hc'] Ha]. rewrite <- Hb. unfold handle_budget.
    rewrite Hc', Hcc. f_equal. rewrite (adds_count _ _ _ Ha), count_app. cbn. lia. }
  eapply after_mono;
    [apply (Request_after_dial env ClientConn client_Write client_Read
              is_new_client fuel (Pipe.merge_form Encode req) self1 h1 cc);
       [exact socket_event_not_new|reflexivity|exact Hcc]| |];
    cbv beta; intros; apply Hkeep; tauto.
Qed.

(** X10.  A pipe builds at most one protocol handle in its life.  Over
    any sequence of requests, however each of them ends, the number of
    handles built so far, plus one while the pipe holds none, stays what
    it was: a handle is built only when none is held, and once one is held
    the pipe never goes back to holding none. *)
Theorem one_handle_for_life fuel reqs (self : Conn) h :
  let o := requests fuel reqs self h in
  handle_budget (final_state o) (final_trace o) = handle_budget self h.
Proof.
  intros o. subst o.
  apply (after_final (requests fuel reqs)
           (fun self' h' => handle_budget self' h' = handle_budget self h)).
  revert self h. induction reqs as [|req reqs IH]; intros self h; cbn [run_requests].
  - now step.
  - step. eapply after_mono; [apply Request_budget| |auto].
    intros r self1 h1 Hb. cbv beta. rewrite <- Hb. apply IH.
Qed.

Lemma on_uc_in_step c0 {A} (m : M ReusableConn A) (self : Conn) h :
  (forall st k, in_step c0 st k -> after m (fun _ => in_step c0) (in_step c0) st k) ->
  in_step c0 (Pipe.uc self) h ->
  after (Pipe.on_uc ClientConn m)
    (fun _ self' h' => in_step c0 (Pipe.uc self') h')
    (fun self' h' => in_step c0 (Pipe.uc self') h') self h.
Proof.
  intros Hm Hs. apply after_zoom. eapply after_mono; [apply Hm, Hs| |]; auto.
Qed.

Lemma after_the_client_any (Q : ClientConn -> Conn -> trace -> Prop) E (self : Conn) h :
  (forall cc, Pipe.c self = Some cc -> Q cc self h) ->
  (Pipe.c self = None -> E self h) ->
  after (Pipe.the_client ClientConn) Q E self h.
Proof. unfold after, Pipe.the_client. destruct (Pipe.c self); auto. Qed.

Lemma Request_in_step c0 fuel req (self : Conn) h :
  in_step c0 (Pipe.uc self) h ->
  after (pipe_Request fuel req)
    (fun _ self' h' => in_step c0 (Pipe.uc self') h')
    (fun self' h' => in_step c0 (Pipe.uc self') h') self h.
Proof.
  intros Hs. unfold Pipe.Request. step.
  eapply after_mono
    with (Q := fun _ (self' : Conn) h' => in_step c0 (Pipe.uc self') h')
         (E := fun (self' : Conn) h' => in_step c0 (Pipe.uc self') h'); [| |auto].
  { unfold Pipe.dial. do 2 step. destruct (Pipe.c self); [now step|]. step.
    eapply after_mono;
      [apply (on_uc_in_step c0); [intros; now apply Dial_in_step|exact Hs]| |auto].
    intros [e|] self1 h1 Hs1; cbv beta; repeat step; [exact Hs1|].
    now apply in_step_pipe_event. }
  intros [e|] self1 h1 Hs1; cbv beta iota; [now step|].
  step. unfold Pipe.c_Write. step.
  apply after_the_client_any; [intros cc _|intros _; exact Hs1]. do 3 step.
  eapply after_mono;
    [apply (on_uc_in_step c0);
       [intros; now apply run_io_in_step
       |apply in_step_pipe_event; [assumption|reflexivity]]| |auto].
  intros [cc' err] self2 h2 Hs2. cbv beta iota. do 3 step.
  destruct err as [e|]; [now step|].
  unfold Pipe.c_Read. do 2 step.
  apply after_the_client_any; [intros cc2 _|intros _; exact Hs2]. do 3 step.
  eapply after_mono;
    [apply (on_uc_in_step c0);
       [intros; now apply run_io_in_step
       |apply in_step_pipe_event; [assumption|reflexivity]]| |auto].
  intros [cc'' [resp err]] self3 h3 Hs3. cbv beta iota. do 4 step. exact Hs3.
Qed.

(** X11.  The pipe keeps the sockets in step too.  Over any sequence of
    requests, whatever the protocol layer reads and writes and however
    each request ends, the dialer is called only when no socket is stored,
    every call on a socket goes to the socket stored at that moment, and
    the socket stored at the end is the last one dialed and not closed. *)
Theorem pipe_sockets_one_at_a_time fuel reqs c0 (self : Conn) h :
  in_step c0 (Pipe.uc self) h ->
  let o := requests fuel reqs self h in
  in_step c0 (Pipe.uc (final_state o)) (final_trace o).
Proof.
  intros Hs o. subst o.
  apply (after_final (requests fuel reqs)
           (fun (self' : Conn) h' => in_step c0 (Pipe.uc self') h')).
  revert self h Hs. induction reqs as [|req reqs IH]; intros self h Hs; cbn [run_requests].
  - now step.
  - step. eapply after_mono; [apply Request_in_step, Hs| |auto].
    intros r self1 h1 Hs1. cbv beta. now apply IH.
Qed.

(** X12.  When the pipe holds no handle and the dialer fails, [Request]
    returns the dialer's error with a nil response after that one dialer
    call: no handle is built, nothing is handed to the protocol layer, and
    the request object is left as the caller passed it, parameter data
    included. *)
Theorem Request_when_dial_fails fuel req (self : Conn) h c e :
  Pipe.c self = None ->
  lock (Pipe.uc self) = false ->
  conn (Pipe.uc self) = None ->
  dialer env h = (c, Some e) ->
  pipe_Request (S fuel) req self h
  = Done (req, None, Some e) (Pipe.mkConn (set_conn c (Pipe.uc self)) None)
      (h ++ [EDial c (Some e)]).
Proof.
  intros Hc Hl Hs Hd. unfold Pipe.Request, Pipe.dial, bind, get. rewrite Hc.
  unfold Pipe.on_uc, zoom. rewrite (Dial_dialer_error env fuel _ h c e Hl Hs Hd).
  unfold ret, Pipe.set_uc. now rewrite Hc.
Qed.

(** X13.  For a request without parameter data (a nil [Form]), once
    [dial] has returned nil, the request handed to the protocol layer,
    the only one, is the request as the caller passed it, and the
    request object is left unchanged. *)
Theorem Request_without_form fuel req (self : Conn) h self1 h1 :
  pipe_dial fuel self h = Done None self1 h1 ->
  Form req = None ->
  let o := pipe_Request fuel req self h in
  (exists tl, final_trace o = h1 ++ EClientWrite req :: tl /\
    count is_client_write tl = O) /\
    (forall r, returned o = Some r -> fst (fst r) = req).
Proof.
  intros Hdial Hform o.
  destruct (pipe_dial_builds _ _ _ _ _ _ _ _ Hdial) as [cc Hcc].
  assert (Hm : Pipe.merge_form Encode req = req).
  { unfold Pipe.merge_form. now rewrite Hform. }
  assert (Hafter :
    after (pipe_Request fuel req)
      (fun r _ h' => fst (fst r) = req /\
    adds is_client_write (h1 ++ [EClientWrite req]) h')
      (fun _ h' => adds is_client_write (h1 ++ [EClientWrite req]) h') self h).
  { unfold Pipe.Request. step. eapply after_known; [exact Hdial|]. cbv beta iota.
    rewrite Hm.
    eapply after_mono;
      [apply (Request_after_dial env ClientConn client_Write client_Read
                is_client_write fuel req self1 h1 cc);
         [exact socket_event_not_client_write|reflexivity|exact Hcc]| |];
      cbv beta; tauto. }
  unfold after in Hafter. fold o in Hafter.
  assert (Hsplit : forall h', adds is_client_write (h1 ++ [EClientWrite req]) h' ->
             exists tl, h' = h1 ++ EClientWrite req :: tl /\ count is_client_write tl = O).
  { intros h' (ext & -> & Hext). exists ext. now rewrite <- app_assoc. }
  destruct o; cbn [final_trace returned]; (split; [now apply Hsplit, Hafter|]);
    try discriminate.
  intros r [= <-]. apply Hafter.
Qed.

End PipeMore.

Lemma pipe_sockets_one_at_a_time_witness :
  let o := run_requests Mock.env_first_socket_broken tt Mock.client_Write Mock.client_Read
             Mock.plain_Encode 3 [Mock.get_a1; Mock.get_plain] (Pipe.NewConn unit) [] in
  in_step None (Pipe.uc (Pipe.NewConn unit)) [] /\
    count is_dial (final_trace o) = 2%nat /\
    in_step None (Pipe.uc (final_state o)) (final_trace o).
Proof.
  split; [reflexivity|]. split; [reflexivity|].
  apply (pipe_sockets_one_at_a_time Mock.env_first_socket_broken unit tt Mock.client_Write
           Mock.client_Read Mock.plain_Encode 3 [Mock.get_a1; Mock.get_plain] None
           (Pipe.NewConn unit) []).
  reflexivity.
Defined.

Lemma Request_when_dial_fails_witness :
  Mock.pipe_Request Mock.env_down Mock.plain_Encode 1 Mock.get_a1 (Pipe.NewConn unit) []
  = Done (Mock.get_a1, None, Some "dial: connection refused") (Pipe.NewConn unit)
      [EDial None (Some "dial: connection refused")].
Proof.
  apply (Request_when_dial_fails Mock.env_down unit tt Mock.client_Write Mock.client_Read
           Mock.plain_Encode 0 Mock.get_a1 (Pipe.NewConn unit) [] None
           "dial: connection refused"); reflexivity.
Defined.

Lemma Request_without_form_witness :
  let req := mkRequest "GET" (mkURL "https" "sdb.amazonaws.com" "/" "a=1") None in
  let o := Mock.pipe_Request Mock.env_ok Mock.plain_Encode 3 req (Pipe.NewConn unit) [] in
  (exists tl, final_trace o = [EDial (Some 0%nat) None; ENewClientConn]
                              ++ EClientWrite req :: tl /\
    count is_client_write tl = O) /\
    (forall r, returned o = Some r -> fst (fst r) = req).
Proof.
  intros req.
  apply (Request_without_form Mock.env_ok unit tt Mock.client_Write Mock.client_Read
           Mock.plain_Encode 3 req (Pipe.NewConn unit) []
           (Pipe.mkConn (Mock.live 0%nat) (Some tt)) [EDial (Some 0%nat) None; ENewClientConn]);
    reflexivity.
Defined.

(** ** sdb/domain.go: failures *)

Section SelectMore.

Variable Item : Type.
Variable World : Type.
Variable NewRequest : URL -> string -> Values -> Request.
Variable SignRequestV2 :
  Request -> Values -> M World (Request * Values * option error).
Variable conn_Request :
  Request -> Values -> M World (option Response * option error * Values).
Variable DecodeSelect : string -> SDB.selectresponse Item * option error.
Variable self : SDB.Domain.

Local Abbreviation Run := (SDB.Run Item World).
Local Abbreviation Select_body :=
  (SDB.Select_body Item World NewRequest SignRequestV2 conn_Request DecodeSelect self).
Local Abbreviation Select_loop :=
  (SDB.Select_loop Item World NewRequest SignRequestV2 conn_Request DecodeSelect self).
Local Abbreviation Select :=
  (SDB.Select Item World NewRequest SignRequestV2 conn_Request DecodeSelect self).
Local Abbreviation serves_then :=
  (serves_then Item World NewRequest SignRequestV2 conn_Request DecodeSelect self).
Local Abbreviation fails_with :=
  (fails_with Item World NewRequest SignRequestV2 conn_Request DecodeSelect self).

(** One pass of the loop that ends in an error. *)
Lemma Select_body_fails (l : SDB.locals) (r : Run) h e n :
  fails_with e n (SDB.l_vl l) (SDB.l_nextToken l) (SDB.world r) h ->
  exists vl' r1 h1,
    Select_body l r h
    = Done (SDB.mkLocals vl' (Some e) (SDB.l_done l) (SDB.l_nextToken l)) r1 h1 /\
    SDB.queue r1 = SDB.queue r /\
    length (SDB.sent r1) = (length (SDB.sent r) + n)%nat /\
    length (SDB.built r1) = S (length (SDB.built r)).
Proof.
  unfold fails_with, page_params. cbv zeta.
  intros [(-> & req & vl1 & w1 & h1 & Hsign)
         |(-> & req & vl1 & w1 & h1 & Hsign &
           [(resp & vl2 & w2 & h2 & Hreq)
           |(resp & vl2 & w2 & h2 & partial & Hreq & Hdec)])];
    unfold SDB.Select_body; cbv zeta;
    unfold bind at 1; unfold SDB.note_built at 1;
    unfold bind at 1; unfold SDB.in_world at 1, zoom at 1; cbn [SDB.world];
    rewrite Hsign; cbv beta iota.
  - eexists _, _, _. split; [reflexivity|].
    cbn [SDB.queue SDB.sent SDB.built]. rewrite length_app. cbn [length].
    repeat split; lia.
  - unfold bind at 1. unfold SDB.note_sent at 1.
    unfold bind at 1. unfold SDB.in_world at 1, zoom at 1. cbn [SDB.world].
    rewrite Hreq. cbv beta iota.
    eexists _, _, _. split; [reflexivity|].
    cbn [SDB.queue SDB.sent SDB.built]. rewrite !length_app. cbn [length].
    repeat split; lia.
  - unfold bind at 1. unfold SDB.note_sent at 1.
    unfold bind at 1. unfold SDB.in_world at 1, zoom at 1. cbn [SDB.world].
    rewrite Hreq. cbv beta iota.
    unfold bind at 1. unfold SDB.the_resp at 1, ret at 1. rewrite Hdec.
    eexists _, _, _. split; [reflexivity|].
    cbn [SDB.queue SDB.sent SDB.built]. rewrite !length_app. cbn [length].
    repeat split; lia.
Qed.

Lemma Select_loop_failed fuel (l : SDB.locals) e :
  SDB.l_err l = Some e -> Select_loop fuel l = ret (Some e).
Proof. intros He. destruct fuel; cbn [SDB.Select_loop]; now rewrite He. Qed.

Lemma Select_loop_fails init e n :
  Forall (fun p => SDB.NextToken p <> "") init ->
  forall fuel (l : SDB.locals) (r : Run) h,
    SDB.l_err l = None -> SDB.l_done l = false ->
    serves_then init (fails_with e n) (SDB.l_vl l) (SDB.l_nextToken l) (SDB.world r) h ->
    (length init < fuel)%nat ->
    exists r' h',
      Select_loop fuel l r h = Done (Some e) r' h' /\
      SDB.queue r' = SDB.queue r ++ concat (map SDB.Items init) /\
      length (SDB.sent r') = (length (SDB.sent r) + length init + n)%nat /\
      length (SDB.built r') = (length (SDB.built r) + S (length init))%nat.
Proof.
  intros Hinit. induction Hinit as [|p init Hp Hinit IH];
    intros fuel l r h He Hd Hserves Hfuel;
    (destruct fuel as [|fuel]; [simpl in Hfuel; lia|]);
    cbn [serves_then] in Hserves;
    rewrite (Select_loop_step Item World NewRequest SignRequestV2 conn_Request
               DecodeSelect self fuel l He Hd); unfold bind.
  - destruct (Select_body_fails l r h e n Hserves) as (vl' & r1 & h1 & -> & Hq & Hs & Hb).
    rewrite (Select_loop_failed fuel _ e) by reflexivity.
    exists r1, h1. split; [reflexivity|]. cbn [map concat length].
    rewrite app_nil_r. repeat split; [assumption|lia|lia].
  - destruct Hserves as (req & vl1 & w1 & h1 & resp & vl2 & w2 & h2
                         & Hsign & Hreq & Hdec & Hrest).
    rewrite (Select_body_page Item World NewRequest SignRequestV2 conn_Request
               DecodeSelect self l r h _ _ _ _ _ _ _ _ _ Hsign Hreq Hdec).
    apply String.eqb_neq in Hp.
    destruct (IH fuel
                (SDB.mkLocals vl2 None (String.eqb (SDB.NextToken p) "") (SDB.NextToken p))
                (SDB.mkRun w2 (SDB.built r ++ [page_params (SDB.l_vl l) (SDB.l_nextToken l)])
                   (SDB.sent r ++ [req]) (SDB.queue r ++ SDB.Items p))
                h2 eq_refl Hp Hrest ltac:(simpl in Hfuel; lia))
      as (r' & h' & Hrun & Hq & Hs & Hb).
    exists r', h'. split; [exact Hrun|].
    cbn [SDB.queue SDB.sent SDB.built] in Hq, Hs, Hb.
    rewrite Hq, Hs, Hb, !length_app. cbn [map concat length].
    repeat split; [now rewrite <- app_assoc|lia|lia].
Qed.

(** X14.  [Select] stops at the first failure and returns it.  Against a
    service that answers with pages that all carry a cursor and then
    fails, in signing the next request, in sending it, or in decoding its
    response, [Select] returns that error; it has sent every item of the
    pages before the failure, in order, and nothing of the response that
    failed; and it has made no request after the failing one (none at all
    for that page if it was the signing that failed). *)
Theorem Select_stops_at_first_error init e n what where_ consist fuel w q h :
  Forall (fun p => SDB.NextToken p <> "") init ->
  serves_then init (fails_with e n) (SDB.Select_params self what where_ consist) "" w h ->
  (length init < fuel)%nat ->
  exists r' h',
    Select fuel what where_ consist (SDB.mkRun w [] [] q) h = Done (Some e) r' h' /\
    SDB.queue r' = q ++ concat (map SDB.Items init) /\
    length (SDB.sent r') = (length init + n)%nat /\
    length (SDB.built r') = S (length init).
Proof.
  intros Hinit Hserves Hfuel. unfold SDB.Select.
  destruct (Select_loop_fails init e n Hinit fuel
              (SDB.mkLocals (SDB.Select_params self what where_ consist) None false "")
              (SDB.mkRun w [] [] q) h eq_refl eq_refl Hserves Hfuel)
    as (r' & h' & Hrun & Hq & Hs & Hb).
  exists r', h'. cbn in Hs, Hb |- *. repeat split; assumption.
Qed.

(** X15.  The status codes of the responses have no part in what
    [Select] does: with every status code replaced by any other, it
    makes the same requests, sends the same items and returns the same
    result. *)
Theorem Select_ignores_status_codes (f : Z -> Z) fuel what where_ consist r h :
  SDB.Select Item World NewRequest SignRequestV2 (restatus f conn_Request)
    DecodeSelect self fuel what where_ consist r h
  = Select fuel what where_ consist r h.
Proof. apply Select_status_blind. Qed.

End SelectMore.

Lemma Select_stops_at_first_error_witness :
  exists r' h',
    Mock.Select 3
      (Mock.start [(Some (mkResponse 200 "page1"), None);
                   (Some (mkResponse 200 "not a page"), None);
                   (Some (mkResponse 200 "page3"), None)]) []
    = Done (Some "malformed XML") r' h' /\
    SDB.queue r' = ["apple"; "banana"] /\
    length (SDB.sent r') = 2%nat /\
    length (SDB.built r') = 2%nat.
Proof.
  refine (Select_stops_at_first_error string Mock.server Mock.NewRequest Mock.SignRequestV2
            Mock.conn_Request (Mock.DecodeSelect Mock.pages) Mock.domain
            [SDB.mkSelectresponse ["apple"; "banana"] "t1"]
            "malformed XML" 1 "*" "" false 3 _ [] [] _ _ _).
  - repeat constructor; discriminate.
  - cbn [serves_then]. do 8 eexists. split; [reflexivity|]. split; [reflexivity|].
    split; [reflexivity|]. right. split; [reflexivity|].
    do 4 eexists. split; [reflexivity|]. right. do 5 eexists. split; reflexivity.
  - simpl. lia.
Defined.

Section AttributeMore.

Variable Item : Type.
Variable Attribute : Type.
Variable AttributeList : Type.
Variable ATTRIBUTE_LIST_Values : AttributeList -> Values.
Variable EXPECTED_LIST_Values : AttributeList -> Values.
Variable World : Type.
Variable NewRequest : URL -> string -> Values -> Request.
Variable SignRequestV2 :
  Request -> Values -> M World (Request * Values * option error).
Variable conn_Request :
  Request -> Values -> M World (option Response * option error * Values).
Variable CodeToError : Z -> option error.
Variable DecodeGetAttributes : string -> list Attribute * option error.
Variable self : SDB.Domain.

Local Abbreviation Run := (SDB.Run Item World).
Local Abbreviation signed_call :=
  (SDB.signed_call Item World NewRequest SignRequestV2 conn_Request CodeToError self).
Local Abbreviation GetAttribute :=
  (SDB.GetAttribute Item Attribute AttributeList ATTRIBUTE_LIST_Values World NewRequest
     SignRequestV2 conn_Request CodeToError DecodeGetAttributes self).
Local Abbreviation DeleteAttribute :=
  (SDB.DeleteAttribute Item AttributeList ATTRIBUTE_LIST_Values EXPECTED_LIST_Values World
     NewRequest SignRequestV2 conn_Request CodeToError self).

(** The three ways the shared tail of the attribute calls can go. *)
Lemma signed_call_sign_fails vl (r : Run) h req vl1 w1 h1 e :
  SignRequestV2 (NewRequest (SDB.DomainURL self) "GET" vl) vl (SDB.world r) h
  = Done (req, vl1, Some e) w1 h1 ->
  signed_call vl r h
  = Done (None, Some e) (SDB.mkRun w1 (SDB.built r ++ [vl]) (SDB.sent r) (SDB.queue r)) h1.
Proof.
  intros Hsign.
  unfold SDB.signed_call, bind, SDB.note_built, SDB.note_sent, SDB.in_world, zoom.
  cbn [SDB.world]. rewrite Hsign. reflexivity.
Qed.

Lemma signed_call_request_fails vl (r : Run) h req vl1 w1 h1 resp e vl2 w2 h2 :
  SignRequestV2 (NewRequest (SDB.DomainURL self) "GET" vl) vl (SDB.world r) h
  = Done (req, vl1, None) w1 h1 ->
  conn_Request req vl1 w1 h1 = Done (resp, Some e, vl2) w2 h2 ->
  signed_call vl r h
  = Done (resp, Some e)
      (SDB.mkRun w2 (SDB.built r ++ [vl]) (SDB.sent r ++ [req]) (SDB.queue r)) h2.
Proof.
  intros Hsign Hreq.
  unfold SDB.signed_call, bind, SDB.note_built, SDB.note_sent, SDB.in_world, zoom.
  cbn [SDB.world]. rewrite Hsign. cbn [SDB.world]. rewrite Hreq. reflexivity.
Qed.

Lemma signed_call_response vl (r : Run) h req vl1 w1 h1 resp vl2 w2 h2 :
  SignRequestV2 (NewRequest (SDB.DomainURL self) "GET" vl) vl (SDB.world r) h
  = Done (req, vl1, None) w1 h1 ->
  conn_Request req vl1 w1 h1 = Done (Some resp, None, vl2) w2 h2 ->
  signed_call vl r h
  = Done (Some resp, CodeToError (StatusCode resp))
      (SDB.mkRun w2 (SDB.built r ++ [vl]) (SDB.sent r ++ [req]) (SDB.queue r)) h2.
Proof.
  intros Hsign Hreq.
  unfold SDB.signed_call, bind, SDB.note_built, SDB.note_sent, SDB.in_world, zoom.
  cbn [SDB.world]. rewrite Hsign. cbn [SDB.world]. rewrite Hreq. reflexivity.
Qed.

(** X16.  [GetAttribute] returns the first error on its way and
    attributes only when there was none.  It builds one request.  If the
    signing fails, the request is not sent.  If the sending fails, that
    error is returned whatever came back with it.  For a response, the
    error the status code maps to comes first, and the body is decoded
    only when the status maps to nil; a decoding error is returned
    without attributes. *)
Theorem GetAttribute_returns_first_error item attrs (consist : bool) (r : Run) h :
  let vl0 :=
    Values_Set "ItemName" item
      (Values_Set "DomainName" (SDB.Name self)
         (Values_Set "Action" "GetAttributes" (ATTRIBUTE_LIST_Values attrs))) in
  let vl := if consist then Values_Set "ConsistentRead" "true" vl0 else vl0 in
  let sign := SignRequestV2 (NewRequest (SDB.DomainURL self) "GET" vl) vl (SDB.world r) h in
  let o := GetAttribute item attrs consist r h in
  (forall (req : Request) (vl1 : Values) (w1 : World) (h1 : trace) (e : error),
     sign = Done (req, vl1, Some e) w1 h1 ->
     o = Done ([], Some e)
           (SDB.mkRun w1 (SDB.built r ++ [vl]) (SDB.sent r) (SDB.queue r)) h1) /\
  (forall (req : Request) (vl1 : Values) (w1 : World) (h1 : trace) resp (e : error) vl2 w2 h2,
     sign = Done (req, vl1, None) w1 h1 ->
     conn_Request req vl1 w1 h1 = Done (resp, Some e, vl2) w2 h2 ->
     o = Done ([], Some e)
           (SDB.mkRun w2 (SDB.built r ++ [vl]) (SDB.sent r ++ [req]) (SDB.queue r)) h2) /\
  (forall (req : Request) (vl1 : Values) (w1 : World) (h1 : trace) resp vl2 w2 h2,
     sign = Done (req, vl1, None) w1 h1 ->
     conn_Request req vl1 w1 h1 = Done (Some resp, None, vl2) w2 h2 ->
     o = Done
           match CodeToError (StatusCode resp) with
           | Some e => ([], Some e)
           | None =>
               match DecodeGetAttributes (Body resp) with
               | (a, None) => (a, None)
               | (_, Some e) => ([], Some e)
               end
           end
           (SDB.mkRun w2 (SDB.built r ++ [vl]) (SDB.sent r ++ [req]) (SDB.queue r)) h2).
Proof.
  intros vl0 vl sign o.
  assert (Ho : o = (let* (resp, err) := signed_call vl in
                    match err with
                    | None =>
                        let* r := SDB.the_resp Item World resp in
                        let (a, err) := DecodeGetAttributes (Body r) in
                        match err with
                        | None => ret (a, None)
                        | Some e => ret ([], Some e)
                        end
                    | Some e => ret ([], Some e)
                    end) r h).
  { subst o vl vl0. unfold SDB.GetAttribute. now destruct consist. }
  rewrite Ho. clear Ho. subst sign. repeat split.
  - intros req vl1 w1 h1 e Hsign. unfold bind at 1.
    now rewrite (signed_call_sign_fails vl r h _ _ _ _ _ Hsign).
  - intros req vl1 w1 h1 resp e vl2 w2 h2 Hsign Hreq. unfold bind at 1.
    now rewrite (signed_call_request_fails vl r h _ _ _ _ _ _ _ _ _ Hsign Hreq).
  - intros req vl1 w1 h1 resp vl2 w2 h2 Hsign Hreq. unfold bind at 1.
    rewrite (signed_call_response vl r h _ _ _ _ _ _ _ _ Hsign Hreq).
    destruct (CodeToError (StatusCode resp)) as [e|]; [reflexivity|].
    unfold bind, SDB.the_resp, ret.
    destruct (DecodeGetAttributes (Body resp)) as [a [e|]]; reflexivity.
Qed.

(** X17.  [DeleteAttribute] likewise: it builds one request, does not
    send it if the signing fails, returns the error of a failed sending,
    and for a response returns what the status code maps to.  The
    request carries [Action], [DomainName] and [ItemName] as the call
    sets them, whatever the two attribute lists hold under these names,
    and for any other name the value of [expected] before that of
    [attrs]. *)
Theorem DeleteAttribute_returns_first_error item attrs expected (r : Run) h :
  let vl :=
    Values_Set "ItemName" item
      (Values_Set "DomainName" (SDB.Name self)
         (Values_Set "Action" "DeleteAttribute"
            (EXPECTED_LIST_Values expected ∪ ATTRIBUTE_LIST_Values attrs))) in
  let sign := SignRequestV2 (NewRequest (SDB.DomainURL self) "GET" vl) vl (SDB.world r) h in
  let o := DeleteAttribute item attrs expected r h in
  (vl !! "Action" = Some ["DeleteAttribute"] /\
   vl !! "DomainName" = Some [SDB.Name self] /\
   vl !! "ItemName" = Some [item] /\
   forall k, k <> "Action" -> k <> "DomainName" -> k <> "ItemName" ->
     vl !! k = match EXPECTED_LIST_Values expected !! k with
               | Some v => Some v
               | None => ATTRIBUTE_LIST_Values attrs !! k
               end) /\
  (forall (req : Request) (vl1 : Values) (w1 : World) (h1 : trace) (e : error),
     sign = Done (req, vl1, Some e) w1 h1 ->
     o = Done (Some e)
           (SDB.mkRun w1 (SDB.built r ++ [vl]) (SDB.sent r) (SDB.queue r)) h1) /\
  (forall (req : Request) (vl1 : Values) (w1 : World) (h1 : trace) resp (e : error) vl2 w2 h2,
     sign = Done (req, vl1, None) w1 h1 ->
     conn_Request req vl1 w1 h1 = Done (resp, Some e, vl2) w2 h2 ->
     o = Done (Some e)
           (SDB.mkRun w2 (SDB.built r ++ [vl]) (SDB.sent r ++ [req]) (SDB.queue r)) h2) /\
  (forall (req : Request) (vl1 : Values) (w1 : World) (h1 : trace) resp vl2 w2 h2,
     sign = Done (req, vl1, None) w1 h1 ->
     conn_Request req vl1 w1 h1 = Done (Some resp, None, vl2) w2 h2 ->
     o = Done (CodeToError (StatusCode resp))
           (SDB.mkRun w2 (SDB.built r ++ [vl]) (SDB.sent r ++ [req]) (SDB.queue r)) h2).
Proof.
  intros vl sign o. split.
  { subst vl. unfold Values_Set. repeat split.
    - rewrite lookup_insert_ne by discriminate.
      rewrite lookup_insert_ne by discriminate. now rewrite lookup_insert_eq.
    - rewrite lookup_insert_ne by discriminate. now rewrite lookup_insert_eq.
    - now rewrite lookup_insert_eq.
    - intros k Ha Hd Hi. rewrite !lookup_insert_ne by congruence.
      rewrite lookup_union.
      destruct (EXPECTED_LIST_Values expected !! k), (ATTRIBUTE_LIST_Values attrs !! k);
        reflexivity. }
  assert (Ho : o = (let* (_, err) := signed_call vl in ret err) r h) by reflexivity.
  rewrite Ho. clear Ho. subst sign. repeat split.
  - intros req vl1 w1 h1 e Hsign. unfold bind at 1.
    now rewrite (signed_call_sign_fails vl r h _ _ _ _ _ Hsign).
  - intros req vl1 w1 h1 resp e vl2 w2 h2 Hsign Hreq. unfold bind at 1.
    now rewrite (signed_call_request_fails vl r h _ _ _ _ _ _ _ _ _ Hsign Hreq).
  - intros req vl1 w1 h1 resp vl2 w2 h2 Hsign Hreq. unfold bind at 1.
    now rewrite (signed_call_response vl r h _ _ _ _ _ _ _ _ Hsign Hreq).
Qed.

End AttributeMore.

Lemma GetAttribute_returns_first_error_witness :
  Mock.GetAttribute (Mock.start [(Some (mkResponse 500 "page2"), None)]) []
  = Done ([], Some "service error")
      (SDB.mkRun []
         [ {[ "Action" := ["GetAttributes"]; "DomainName" := ["fruit"];
              "ItemName" := ["item1"] ]} ]
         [ Mock.NewRequest (SDB.DomainURL Mock.domain) "GET"
             {[ "Action" := ["GetAttributes"]; "DomainName" := ["fruit"];
                "ItemName" := ["item1"] ]} ]
         []) [] /\
  Mock.GetAttribute (Mock.start [(Some (mkResponse 200 "page2"), None)]) []
  = Done (["page2"], None)
      (SDB.mkRun []
         [ {[ "Action" := ["GetAttributes"]; "DomainName" := ["fruit"];
              "ItemName" := ["item1"] ]} ]
         [ Mock.NewRequest (SDB.DomainURL Mock.domain) "GET"
             {[ "Action" := ["GetAttributes"]; "DomainName" := ["fruit"];
                "ItemName" := ["item1"] ]} ]
         []) [].
Proof.
  split.
  - eapply eq_trans;
      [eapply (proj2 (proj2 (GetAttribute_returns_first_error string string unit
                 (fun _ => ∅) Mock.server Mock.NewRequest Mock.SignRequestV2
                 Mock.conn_Request Mock.CodeToError Mock.DecodeGetAttributes Mock.domain
                 "item1" tt false (Mock.start [(Some (mkResponse 500 "page2"), None)]) [])));
         reflexivity|].
    vm_compute. reflexivity.
  - eapply eq_trans;
      [eapply (proj2 (proj2 (GetAttribute_returns_first_error string string unit
                 (fun _ => ∅) Mock.server Mock.NewRequest Mock.SignRequestV2
                 Mock.conn_Request Mock.CodeToError Mock.DecodeGetAttributes Mock.domain
                 "item1" tt false (Mock.start [(Some (mkResponse 200 "page2"), None)]) [])));
         reflexivity|].
    vm_compute. reflexivity.
Defined.

(** ** The [s3] commands *)

Section S3Commands.

Variable Signer : Type.
Variable Service : Type.
Variable DefaultSigner : option Signer * option error.
Variable url_Parse : string -> option URL * option error.
Variable NewService : option URL -> Service.
Variable path_Join : string -> string -> string.
Variable path_Base : string -> string.
Variable World : Type.
Variable Exists : string -> string -> World -> option error * World.
Variable Delete : string -> string -> World -> option error * World.
Variable PutLocalFile : string -> string -> string -> World -> option error * World.

Local Abbreviation Sys := (S3Util.Sys World).
Local Abbreviation rm_loop := (S3Util.rm_loop World Delete).
Local Abbreviation rm := (S3Util.rm World Delete).
Local Abbreviation put_loop := (S3Util.put_loop path_Join path_Base World PutLocalFile).
Local Abbreviation put := (S3Util.put path_Join path_Base World PutLocalFile).
Local Abbreviation exists_ := (S3Util.exists_ World Exists).

(** X18.  [DefaultS3Service] never reports a failure to parse the
    endpoint URL.  The error it returns is the one of [DefaultSigner],
    whatever [url.Parse] says; when the signer is fine and the URL does
    not parse, the caller gets a nil service together with a nil error. *)
Theorem DefaultS3Service_hides_parse_error (flag_endpoint_url : string) :
  let r := S3Util.DefaultS3Service Signer Service DefaultSigner url_Parse NewService
             flag_endpoint_url in
  snd r = snd DefaultSigner /\
  fst (fst r) = fst DefaultSigner /\
  (is_Some (snd (fst r)) <->
   snd DefaultSigner = None /\ snd (url_Parse flag_endpoint_url) = None).
Proof.
  unfold S3Util.DefaultS3Service.
  destruct DefaultSigner as [id [e|]]; cbn.
  - split; [reflexivity|]. split; [reflexivity|].
    split; [intros [x Hx]; discriminate|intros [H _]; discriminate].
  - destruct (url_Parse flag_endpoint_url) as [url_ [e|]]; cbn.
    + split; [reflexivity|]. split; [reflexivity|].
      split; [intros [x Hx]; discriminate|intros [_ H]; discriminate].
    + split; [reflexivity|]. split; [reflexivity|]. split; eauto.
Qed.

Lemma rm_loop_performs bucket keys :
  forall err (st : Sys) w1,
    performs (Delete bucket) keys (S3Util.world st) = Some w1 ->
    rm_loop bucket keys err st
    = (match keys with [] => err | _ => None end,
       S3Util.mkSys w1 (S3Util.calls st ++ map (S3Util.CDelete bucket) keys)
         (S3Util.stdout st)).
Proof.
  induction keys as [|key keys IH]; intros err st w1 Hp; cbn [performs] in Hp.
  - injection Hp as <-. cbn. rewrite app_nil_r. now destruct st.
  - cbn [S3Util.rm_loop]. unfold S3Util.on_service.
    destruct (Delete bucket key (S3Util.world st)) as [[e|] w'] eqn:Hd; [discriminate|].
    rewrite (IH None _ w1) by exact Hp. cbn [S3Util.calls S3Util.stdout map].
    rewrite <- app_assoc. f_equal. now destruct keys.
Qed.

Lemma rm_loop_stops bucket pre key post e :
  forall err (st : Sys) w1 w2,
    performs (Delete bucket) pre (S3Util.world st) = Some w1 ->
    Delete bucket key w1 = (Some e, w2) ->
    rm_loop bucket (pre ++ key :: post) err st
    = (Some e,
       S3Util.mkSys w2 (S3Util.calls st ++ map (S3Util.CDelete bucket) (pre ++ [key]))
         (S3Util.stdout st)).
Proof.
  induction pre as [|k pre IH]; intros err st w1 w2 Hp Hd; cbn [performs] in Hp.
  - injection Hp as <-. cbn [app S3Util.rm_loop]. unfold S3Util.on_service.
    rewrite Hd. reflexivity.
  - cbn [app S3Util.rm_loop]. unfold S3Util.on_service.
    destruct (Delete bucket k (S3Util.world st)) as [[e'|] w'] eqn:Hk; [discriminate|].
    rewrite (IH None _ w1 w2) by assumption. cbn [S3Util.calls S3Util.stdout map app].
    now rewrite <- app_assoc.
Qed.

(** X19.  [rm BUCKET KEY...] deletes the keys in the order given and
    stops at the first failure.  With fewer than two arguments it returns
    the usage error without calling the service.  When the deletions of
    the keys [pre] succeed and that of [key] fails, it returns that error
    after exactly these calls: the keys after [key] are not deleted.
    When all deletions succeed it returns nil. *)
Theorem rm_stops_at_first_error (st : Sys) :
  (forall args, (length args < 2)%nat ->
     rm args st = S3Util.Returns (Some "Usage: rm BUCKET KEY [KEY2...]") st) /\
  (forall bucket pre key post e w1 w2,
     performs (Delete bucket) pre (S3Util.world st) = Some w1 ->
     Delete bucket key w1 = (Some e, w2) ->
     rm (bucket :: pre ++ key :: post) st
     = S3Util.Returns (Some e)
         (S3Util.mkSys w2 (S3Util.calls st ++ map (S3Util.CDelete bucket) (pre ++ [key]))
            (S3Util.stdout st))) /\
  (forall bucket key keys w1,
     performs (Delete bucket) (key :: keys) (S3Util.world st) = Some w1 ->
     rm (bucket :: key :: keys) st
     = S3Util.Returns None
         (S3Util.mkSys w1 (S3Util.calls st ++ map (S3Util.CDelete bucket) (key :: keys))
            (S3Util.stdout st))).
Proof.
  repeat split.
  - intros args Hlen. unfold S3Util.rm.
    destruct (Nat.ltb_spec (length args) 2); [reflexivity|lia].
  - intros bucket pre key post e w1 w2 Hp Hd. unfold S3Util.rm.
    destruct (Nat.ltb_spec (length (bucket :: pre ++ key :: post)) 2) as [Hlen|_].
    { cbn in Hlen. rewrite length_app in Hlen. cbn in Hlen. lia. }
    cbn [lookup list_lookup List.skipn]. rewrite ?drop_0.
    now rewrite (rm_loop_stops bucket pre key post e None st w1 w2 Hp Hd).
  - intros bucket key keys w1 Hp. unfold S3Util.rm.
    cbn [length Nat.ltb Nat.leb lookup list_lookup List.skipn]. rewrite ?drop_0.
    now rewrite (rm_loop_performs bucket (key :: keys) None st w1 Hp).
Qed.

Lemma put_loop_performs bucket prefix files :
  forall err (st : Sys) w1,
    performs (fun file => PutLocalFile bucket (path_Join prefix (path_Base file)) file)
      files (S3Util.world st) = Some w1 ->
    put_loop bucket prefix files err st
    = (match files with [] => err | _ => None end,
       S3Util.mkSys w1
         (S3Util.calls st
          ++ map (fun file =>
                    S3Util.CPutLocalFile bucket (path_Join prefix (path_Base file)) file)
               files)
         (S3Util.stdout st)).
Proof.
  induction files as [|file files IH]; intros err st w1 Hp; cbn [performs] in Hp.
  - injection Hp as <-. cbn. rewrite app_nil_r. now destruct st.
  - cbn [S3Util.put_loop]. cbv zeta. unfold S3Util.on_service.
    destruct (PutLocalFile bucket _ file (S3Util.world st)) as [[e|] w'] eqn:Hd;
      [discriminate|].
    rewrite (IH None _ w1) by exact Hp. cbn [S3Util.calls S3Util.stdout map].
    rewrite <- app_assoc. f_equal. now destruct files.
Qed.

Lemma put_loop_stops bucket prefix pre file post e :
  forall err (st : Sys) w1 w2,
    performs (fun file => PutLocalFile bucket (path_Join prefix (path_Base file)) file)
      pre (S3Util.world st) = Some w1 ->
    PutLocalFile bucket (path_Join prefix (path_Base file)) file w1 = (Some e, w2) ->
    put_loop bucket prefix (pre ++ file :: post) err st
    = (Some e,
       S3Util.mkSys w2
         (S3Util.calls st
          ++ map (fun file =>
                    S3Util.CPutLocalFile bucket (path_Join prefix (path_Base file)) file)
               (pre ++ [file]))
         (S3Util.stdout st)).
Proof.
  induction pre as [|k pre IH]; intros err st w1 w2 Hp Hd; cbn [performs] in Hp.
  - injection Hp as <-. cbn [app S3Util.put_loop]. cbv zeta. unfold S3Util.on_service.
    rewrite Hd. reflexivity.
  - cbn [app S3Util.put_loop]. cbv zeta. unfold S3Util.on_service.
    destruct (PutLocalFile bucket _ k (S3Util.world st)) as [[e'|] w'] eqn:Hk;
      [discriminate|].
    rewrite (IH None _ w1 w2) by assumption. cbn [S3Util.calls S3Util.stdout map app].
    now rewrite <- app_assoc.
Qed.

(** X20.  [put BUCKET PREFIX FILE...] uploads the files in the order
    given, each under the key made of the prefix and the last element of
    the file's path, and stops at the first failure.  With fewer than
    three arguments it returns the usage error without calling the
    service.  When an upload fails, its error is returned and the files
    after it are not uploaded. *)
Theorem put_stops_at_first_error (st : Sys) :
  let upload bucket prefix file :=
    PutLocalFile bucket (path_Join prefix (path_Base file)) file in
  let uploaded bucket prefix file :=
    S3Util.CPutLocalFile bucket (path_Join prefix (path_Base file)) file in
  (forall args, (length args < 3)%nat ->
     put args st = S3Util.Returns (Some "Usage: put BUCKET PREFIX FILE [FILE2...]") st) /\
  (forall bucket prefix pre file post e w1 w2,
     performs (upload bucket prefix) pre (S3Util.world st) = Some w1 ->
     upload bucket prefix file w1 = (Some e, w2) ->
     put (bucket :: prefix :: pre ++ file :: post) st
     = S3Util.Returns (Some e)
         (S3Util.mkSys w2 (S3Util.calls st ++ map (uploaded bucket prefix) (pre ++ [file]))
            (S3Util.stdout st))) /\
  (forall bucket prefix file files w1,
     performs (upload bucket prefix) (file :: files) (S3Util.world st) = Some w1 ->
     put (bucket :: prefix :: file :: files) st
     = S3Util.Returns None
         (S3Util.mkSys w1 (S3Util.calls st ++ map (uploaded bucket prefix) (file :: files))
            (S3Util.stdout st))).
Proof.
  intros upload uploaded. subst upload uploaded. repeat split.
  - intros args Hlen. unfold S3Util.put.
    destruct (Nat.ltb_spec (length args) 3); [reflexivity|lia].
  - intros bucket prefix pre file post e w1 w2 Hp Hd. unfold S3Util.put.
    destruct (Nat.ltb_spec (length (bucket :: prefix :: pre ++ file :: post)) 3) as [Hlen|_].
    { cbn in Hlen. rewrite length_app in Hlen. cbn in Hlen. lia. }
    cbn [lookup list_lookup List.skipn]. rewrite ?drop_0.
    now rewrite (put_loop_stops bucket prefix pre file post e None st w1 w2 Hp Hd).
  - intros bucket prefix file files w1 Hp. unfold S3Util.put.
    cbn [length Nat.ltb Nat.leb lookup list_lookup List.skipn]. rewrite ?drop_0.
    now rewrite (put_loop_performs bucket prefix (file :: files) None st w1 Hp).
Qed.

(** X21.  [exists] turns away the very arguments its usage line asks
    for.  Called with exactly two arguments it prints the usage line and
    exits with status 1, without asking the service.  With fewer than two
    arguments an index expression is out of range.  Only with three or
    more arguments does it ask the service, about the first two, and
    return the answer. *)
Theorem exists_rejects_two_arguments (st : Sys) :
  (forall bucket key,
     exists_ [bucket; key] st
     = S3Util.Exits 1
         (S3Util.mkSys (S3Util.world st) (S3Util.calls st)
            (S3Util.stdout st ++ ["Usage: exists BUCKET KEY" +:+ S3Util.newline]))) /\
  (forall args, (length args < 2)%nat -> exists_ args st = S3Util.IndexOutOfRange st) /\
  (forall bucket key arg rest,
     exists_ (bucket :: key :: arg :: rest) st
     = S3Util.Returns (fst (Exists bucket key (S3Util.world st)))
         (S3Util.mkSys (snd (Exists bucket key (S3Util.world st)))
            (S3Util.calls st ++ [S3Util.CExists bucket key]) (S3Util.stdout st))).
Proof.
  repeat split.
  - intros [|a [|b [|c args]]] Hlen; cbn in Hlen; try lia; reflexivity.
  - intros bucket key arg rest. unfold S3Util.exists_, S3Util.on_service.
    cbn [length Nat.eqb lookup list_lookup].
    now destruct (Exists bucket key (S3Util.world st)).
Qed.

End S3Commands.

Lemma rm_stops_at_first_error_witness :
  S3Util.rm (list string) MockS3.Delete ["b"; "k1"; "missing"; "k2"]
    (MockS3.start ["k1"; "k2"])
  = S3Util.Returns (Some "NoSuchKey")
      (S3Util.mkSys ["k2"] [S3Util.CDelete "b" "k1"; S3Util.CDelete "b" "missing"] []) /\
  S3Util.rm (list string) MockS3.Delete ["b"; "k1"; "k2"] (MockS3.start ["k1"; "k2"])
  = S3Util.Returns None
      (S3Util.mkSys [] [S3Util.CDelete "b" "k1"; S3Util.CDelete "b" "k2"] []).
Proof.
  split.
  - apply (proj1 (proj2 (rm_stops_at_first_error (list string) MockS3.Delete
                           (MockS3.start ["k1"; "k2"])))
             "b" ["k1"] "missing" ["k2"] "NoSuchKey" ["k2"] ["k2"]); reflexivity.
  - apply (proj2 (proj2 (rm_stops_at_first_error (list string) MockS3.Delete
                           (MockS3.start ["k1"; "k2"])))
             "b" "k1" ["k2"] []); reflexivity.
Defined.

Lemma put_stops_at_first_error_witness :
  S3Util.put MockS3.path_Join MockS3.path_Base (list string) MockS3.PutLocalFile
    ["b"; "photos"; "/tmp/a.jpg"; ""; "/tmp/c.jpg"] (MockS3.start [])
  = S3Util.Returns (Some "open : no such file or directory")
      (S3Util.mkSys ["photos/a.jpg"]
         [S3Util.CPutLocalFile "b" "photos/a.jpg" "/tmp/a.jpg";
          S3Util.CPutLocalFile "b" "photos/" ""] []).
Proof.
  apply (proj1 (proj2 (put_stops_at_first_error MockS3.path_Join MockS3.path_Base
                         (list string) MockS3.PutLocalFile (MockS3.start [])))
           "b" "photos" ["/tmp/a.jpg"] "" ["/tmp/c.jpg"]
           "open : no such file or directory" ["photos/a.jpg"] ["photos/a.jpg"]);
    reflexivity.
Defined.

Lemma DeleteAttribute_returns_first_error_witness :
  let attrs : Values := {[ "Action" := ["PutAttributes"]; "Attribute.1.Name" := ["colour"] ]} in
  let expected : Values := {[ "Attribute.1.Name" := ["size"] ]} in
  SDB.DeleteAttribute string Values id id Mock.server Mock.NewRequest Mock.SignRequestV2
    Mock.conn_Request Mock.CodeToError Mock.domain "item1" attrs expected
    (Mock.start [(Some (mkResponse 404 ""), None)]) []
  = Done (Some "service error")
      (SDB.mkRun []
         [ {[ "Action" := ["DeleteAttribute"]; "Attribute.1.Name" := ["size"];
              "DomainName" := ["fruit"]; "ItemName" := ["item1"] ]} ]
         [ Mock.NewRequest (SDB.DomainURL Mock.domain) "GET"
             {[ "Action" := ["DeleteAttribute"]; "Attribute.1.Name" := ["size"];
                "DomainName" := ["fruit"]; "ItemName" := ["item1"] ]} ]
         []) [].
Proof.
  intros attrs expected.
  eapply eq_trans;
    [eapply (proj2 (proj2 (proj2 (DeleteAttribute_returns_first_error string Values id id
               Mock.server Mock.NewRequest Mock.SignRequestV2 Mock.conn_Request
               Mock.CodeToError Mock.domain "item1" attrs expected
               (Mock.start [(Some (mkResponse 404 ""), None)]) []))));
       reflexivity|].
  vm_compute. reflexivity.
Defined.

(** ** Requests return *)

Lemma Dial_sound env fuel self h :
  dialer_answers env ->
  lock self = false ->
  after (Dial env (S (S fuel)))
    (fun err self' _ => lock self' = false /\ (err = None -> is_Some (conn self')))
    never self h.
Proof.
  intros Hd Hl. apply after_locked_sure; [exact Hl|].
  eapply after_mono; [apply dial_sound, Hd| |easy].
  intros err self1 h1 [_ Hc]. cbv beta. split; [reflexivity|exact Hc].
Qed.

Lemma run_io_sound env {A} fuel (p : Pipe.io A) :
  dialer_answers env ->
  forall self h,
    lock self = false ->
    after (Pipe.run_io env (S (S fuel)) p) (fun _ self' _ => lock self' = false) never self h.
Proof.
  intros Hd. induction p as [a|data k IH|buf k IH]; intros self h Hl; cbn [Pipe.run_io].
  - now step.
  - step. eapply after_mono;
      [apply (locked_sound (write env (S (S fuel)) data)); [exact Hl|]| |easy].
    + intros. now apply write_sound.
    + intros r self1 h1 Hl1. cbv beta. now apply IH.
  - step. eapply after_mono;
      [apply (locked_sound (read env (S (S fuel)) buf)); [exact Hl|]| |easy].
    + intros. now apply read_sound.
    + intros r self1 h1 Hl1. cbv beta. now apply IH.
Qed.

Section PipeReturns.

Variable env : Env.
Variable ClientConn : Type.
Variable NewClientConn : ClientConn.
Variable client_Write : ClientConn -> Request -> Pipe.io (ClientConn * option error).
Variable client_Read :
  ClientConn -> Request -> Pipe.io (ClientConn * (option Response * option error)).
Variable Encode : Values -> string.
Hypothesis dialer_ok : dialer_answers env.

Local Abbreviation Conn := (Pipe.Conn ClientConn).
Local Abbreviation pipe_Request :=
  (Pipe.Request env ClientConn NewClientConn client_Write client_Read Encode).
Local Abbreviation requests :=
  (run_requests env NewClientConn client_Write client_Read Encode).

Lemma on_uc_io_sound {A} fuel (p : Pipe.io A) (self : Conn) h :
  lock (Pipe.uc self) = false ->
  after (Pipe.on_uc ClientConn (Pipe.run_io env (S (S fuel)) p))
    (fun _ self' _ => lock (Pipe.uc self') = false /\ Pipe.c self' = Pipe.c self)
    never self h.
Proof.
  intros Hl. apply after_zoom.
  eapply after_mono; [apply run_io_sound; [exact dialer_ok|exact Hl]| |easy].
  intros a st' h' Hl'. cbv beta. split; [exact Hl'|reflexivity].
Qed.

Lemma Request_sound fuel req (self : Conn) h :
  lock (Pipe.uc self) = false ->
  after (pipe_Request (S (S fuel)) req)
    (fun _ self' _ => lock (Pipe.uc self') = false) never self h.
Proof.
  intros Hl. unfold Pipe.Request. step.
  eapply after_mono
    with (Q := fun err (self' : Conn) _ =>
                 lock (Pipe.uc self') = false /\ (err = None -> is_Some (Pipe.c self')))
         (E := never); [| |easy].
  { unfold Pipe.dial. do 2 step. destruct (Pipe.c self) as [cc|] eqn:Hc.
    { step. rewrite Hc. eauto. }
    step. apply after_zoom.
    eapply after_mono; [apply Dial_sound; [exact dialer_ok|exact Hl]| |easy].
    intros [e|] u1 h1 [Hl1 _]; cbv beta; repeat step; cbn.
    - split; [exact Hl1|discriminate].
    - split; [exact Hl1|eauto]. }
  intros [e|] self1 h1 [Hl1 Hc1]; cbv beta iota; [now step|].
  destruct (Hc1 eq_refl) as [cc Hcc].
  step. unfold Pipe.c_Write. step.
  eapply after_the_client; [exact Hcc|]. cbv beta. do 3 step.
  eapply after_mono; [apply on_uc_io_sound; exact Hl1| |easy].
  intros [cc' err] self2 h2 [Hl2 Hc2]. cbv beta iota. do 3 step.
  destruct err as [e|]; [now step|].
  unfold Pipe.c_Read. do 2 step.
  eapply after_the_client; [reflexivity|]. cbv beta. do 3 step.
  eapply after_mono; [apply on_uc_io_sound; exact Hl2| |easy].
  intros [cc'' [resp err]] self3 h3 [Hl3 Hc3]. cbv beta iota. do 4 step. exact Hl3.
Qed.

(** X22.  With a dialer that never answers with neither a socket nor an
    error, every sequence of requests on a pipe whose connection is
    unlocked runs to its end, whatever the protocol layer reads and
    writes and whatever fails on the way: no request panics on a nil
    handle or a nil socket, none waits for the mutex, and the mutex is
    free when the last request has returned. *)
Theorem requests_return fuel reqs (self : Conn) h :
  lock (Pipe.uc self) = false ->
  exists self' h',
    requests (S (S fuel)) reqs self h = Done tt self' h' /\
    lock (Pipe.uc self') = false.
Proof.
  intros Hl.
  cut (after (requests (S (S fuel)) reqs)
         (fun _ (self' : Conn) _ => lock (Pipe.uc self') = false) never self h).
  { intros (u & self' & h' & Hrun & Hl')%after_never. destruct u. eauto. }
  revert self h Hl. induction reqs as [|req reqs IH]; intros self h Hl; cbn [run_requests].
  - now step.
  - step. eapply after_mono; [apply Request_sound, Hl| |easy].
    intros r self1 h1 Hl1. cbv beta. now apply IH.
Qed.

End PipeReturns.

Lemma requests_return_witness :
  dialer_answers Mock.env_first_socket_broken /\
  exists self' h',
    run_requests Mock.env_first_socket_broken tt Mock.client_Write Mock.client_Read
      Mock.plain_Encode 2 [Mock.get_a1; Mock.get_plain] (Pipe.NewConn unit) []
    = Done tt self' h' /\
    lock (Pipe.uc self') = false.
Proof.
  assert (Hd : dialer_answers Mock.env_first_socket_broken)
    by (intros h; simpl; discriminate).
  split; [exact Hd|].
  apply (requests_return Mock.env_first_socket_broken unit tt Mock.client_Write
           Mock.client_Read Mock.plain_Encode Hd 0 [Mock.get_a1; Mock.get_plain]
           (Pipe.NewConn unit) []).
  reflexivity.
Defined.

(** ** Closing *)

(** X23.  [Close] on a connection with a live socket closes that socket,
    once, and forgets it whether or not the closing succeeded; what the
    socket's [Close] returned is returned to the caller.  The stored
    deadlines stay, for the next socket. *)
Theorem Close_forgets_the_socket env self h s :
  lock self = false ->
  conn self = Some s ->
  Close env self h
  = Done (conn_Close env h s) (set_conn None self) (h ++ [EConnClose s (conn_Close env h s)]).
Proof.
  intros Hl Hc. apply locked_returns; [exact Hl| |exact Hl].
  unfold close, bind, get. cbn [conn set_lock]. rewrite Hc. reflexivity.
Qed.

Lemma Close_forgets_the_socket_witness :
  Close Mock.env_ok (mkReusableConn false (Some 3%nat) 5 7) []
  = Done None Mock.idle_with_deadlines [EConnClose 3%nat None].
Proof.
  apply (Close_forgets_the_socket Mock.env_ok (mkReusableConn false (Some 3%nat) 5 7) []
           3%nat); reflexivity.
Defined.

Section S3Arguments.

Variable World : Type.
Variable ListBuckets : World -> list string * option error * World.
Variable GetKey : string -> string -> World -> list string * option error * World.
Variable DeleteBucket : string -> World -> option error * World.
Variable CreateBucket : string -> World -> option error * World.

Local Abbreviation Sys := (S3Util.Sys World).

(** X24.  [buckets], [cat], [drop] and [create] check the number of
    their arguments before anything else: called with any other number
    than they take (none, two, one and one), they return their usage
    error, and have neither called the service nor written anything.
    Called with the right number, each makes one call on the service and
    returns its error: [cat] asks for the key named by its second
    argument in the bucket named by its first, [drop] and [create] pass
    their argument as the bucket, and [buckets] prints the names of the
    listing, one per line and in order, only when the listing did not
    fail. *)
Theorem commands_check_their_arguments (st : Sys) :
  let called c w out := S3Util.mkSys w (S3Util.calls st ++ [c]) (S3Util.stdout st ++ out) in
  (forall args, length args <> 0%nat ->
     S3Util.buckets World ListBuckets args st = S3Util.Returns (Some "USAGE: buckets") st) /\
  (forall args, length args <> 2%nat ->
     S3Util.cat World GetKey args st = S3Util.Returns (Some "Usage: get BUCKET KEY") st) /\
  (forall args, length args <> 1%nat ->
     S3Util.drop World DeleteBucket args st
     = S3Util.Returns (Some "Usage: drop BUCKET") st) /\
  (forall args, length args <> 1%nat ->
     S3Util.create World CreateBucket args st
     = S3Util.Returns (Some "Usage: create BUCKET") st) /\
  (forall lb err w,
     ListBuckets (S3Util.world st) = (lb, err, w) ->
     S3Util.buckets World ListBuckets [] st
     = S3Util.Returns err
         (called S3Util.CListBuckets w
            match err with
            | None => map (fun b => b +:+ S3Util.newline) lb
            | Some _ => []
            end)) /\
  (forall bucket key out err w,
     GetKey bucket key (S3Util.world st) = (out, err, w) ->
     S3Util.cat World GetKey [bucket; key] st
     = S3Util.Returns err (called (S3Util.CGetKey bucket key) w out)) /\
  (forall bucket err w,
     DeleteBucket bucket (S3Util.world st) = (err, w) ->
     S3Util.drop World DeleteBucket [bucket] st
     = S3Util.Returns err (called (S3Util.CDeleteBucket bucket) w [])) /\
  (forall bucket err w,
     CreateBucket bucket (S3Util.world st) = (err, w) ->
     S3Util.create World CreateBucket [bucket] st
     = S3Util.Returns err (called (S3Util.CCreateBucket bucket) w [])).
Proof.
  intros called. subst called.
  split; [|split; [|split; [|split; [|split; [|split; [|split]]]]]].
  - intros args Hlen. unfold S3Util.buckets.
    destruct (Nat.eqb_spec (length args) 0); [contradiction|reflexivity].
  - intros args Hlen. unfold S3Util.cat.
    destruct (Nat.eqb_spec (length args) 2); [contradiction|reflexivity].
  - intros args Hlen. unfold S3Util.drop.
    destruct (Nat.eqb_spec (length args) 1); [contradiction|reflexivity].
  - intros args Hlen. unfold S3Util.create.
    destruct (Nat.eqb_spec (length args) 1); [contradiction|reflexivity].
  - intros lb err w Hl. unfold S3Util.buckets, S3Util.print.
    cbn [length Nat.eqb negb]. rewrite Hl.
    destruct err; cbn [S3Util.world S3Util.calls S3Util.stdout];
      [now rewrite app_nil_r|reflexivity].
  - intros bucket key out err w Hg. unfold S3Util.cat.
    cbn [length Nat.eqb negb lookup list_lookup]. now rewrite Hg.
  - intros bucket err w Hd. unfold S3Util.drop, S3Util.on_service.
    cbn [length Nat.eqb negb lookup list_lookup]. rewrite Hd. now rewrite app_nil_r.
  - intros bucket err w Hc. unfold S3Util.create, S3Util.on_service.
    cbn [length Nat.eqb negb lookup list_lookup]. rewrite Hc. now rewrite app_nil_r.
Qed.

End S3Arguments.
